(** * Clearance-wizard: the visual-inertial fusion core

    A shallow embedding of the two numerical classes of the repository,

    - [IMUProcessor]     (src/python-dev/vio/imu_processor.py), and
    - [EKFFusionEngine]  (src/vio/ekf_fusion_engine.py),

    of the tag lookup of [AprilTagDetector] (src/vio/apriltag_detector.py)
    and of the orchestrator [VIOSystem] (src/main.py) that drives them,
    together with the handful of [numpy] and [scipy.spatial.transform]
    operations they call.

    Numbers.  The Python code computes on IEEE-754 doubles.  Here a float
    is a real number ([R] of the Standard Library) and every arithmetic
    operation is the exact one: rounding, overflow, infinities and NaN are
    outside the model.  Where numpy would store [nan] (a division of a zero
    array by its zero norm) the model stores what [R] gives, [x / 0 = 0];
    and [np.linalg.inv] is taken to raise exactly on a singular matrix.
    The statements that turn on either point are made over [Library],
    which reads the division as floats, nan included, and takes the
    inversion routine as an argument.

    Arrays.  A numpy array of shape (3,) is a [vec3], one of shape (4,) a
    [vec4]; the 16-vector of the filter and its matrices are MathComp
    column vectors and matrices over [R].

    Exceptions.  A call that can raise returns an [outcome]: either the
    object after a normal return or the exception together with the
    object as the raise left it. *)

From HB Require Import structures.
From Stdlib Require Import Reals Lra Lia ClassicalEpsilon FunctionalExtensionality.
From mathcomp Require Import ssreflect ssrfun ssrbool eqtype choice ssrnat seq.
From mathcomp Require Import path fintype bigop ssralg matrix mxalgebra.

Set Implicit Arguments.
Unset Strict Implicit.
Unset Printing Implicit Defensive.

Delimit Scope R_scope with Re.

(** ** The reals as a MathComp field

    MathComp's matrices want their coefficients in a [fieldType].  The
    instance below equips the Standard Library's [R] with that interface;
    its operations are [Rplus], [Rmult], [Ropp] and [Rinv] themselves, so
    that an entry of a MathComp matrix is an ordinary real number on which
    [lra], [nra] and [field] work once the operators are folded back. *)

Definition eqr (x y : R) : bool := if Req_dec_T x y then true else false.

Lemma eqrP : Equality.axiom eqr.
Proof. by move=> x y; rewrite /eqr; case: Req_dec_T => H; constructor. Qed.

HB.instance Definition _ := hasDecEq.Build R eqrP.

Section ClassicalChoice.

Variable T : Type.

Definition cfind (P : pred T) (n : nat) : option T :=
  match excluded_middle_informative (exists x, P x) with
  | left ex => Some (proj1_sig (constructive_indefinite_description _ ex))
  | right _ => None
  end.

Lemma cfind_correct P n x : cfind P n = Some x -> P x.
Proof.
rewrite /cfind; case: excluded_middle_informative => // ex [<-].
exact: (proj2_sig (constructive_indefinite_description _ ex)).
Qed.

Lemma cfind_complete (P : pred T) : (exists x, P x) -> exists n, cfind P n.
Proof.
by move=> ex; exists 0; rewrite /cfind; case: excluded_middle_informative.
Qed.

Lemma cfind_ext (P Q : pred T) : P =1 Q -> cfind P =1 cfind Q.
Proof. by move=> eqPQ n; have -> : P = Q by apply: functional_extensionality. Qed.

End ClassicalChoice.

HB.instance Definition _ :=
  hasChoice.Build R (@cfind_correct R) (@cfind_complete R) (@cfind_ext R).

Fact RplusA : associative Rplus.
Proof. by move=> x y z; rewrite Rplus_assoc. Qed.

HB.instance Definition _ :=
  GRing.isZmodule.Build R RplusA Rplus_comm Rplus_0_l Rplus_opp_l.

Fact RmultA : associative Rmult.
Proof. by move=> x y z; rewrite Rmult_assoc. Qed.

Fact R1_neq_0 : R1 != R0.
Proof. by apply/eqP; exact: R1_neq_R0. Qed.

HB.instance Definition _ :=
  GRing.Zmodule_isComNzRing.Build R
    RmultA Rmult_comm Rmult_1_l Rmult_plus_distr_r R1_neq_0.

Fact RmultVf (x : R) : x != R0 -> Rmult (Rinv x) x = R1.
Proof. by move=> /eqP x0; rewrite Rinv_l. Qed.

HB.instance Definition _ := GRing.ComNzRing_isField.Build R RmultVf Rinv_0.

Lemma RaddE : @GRing.add R = Rplus. Proof. by []. Qed.
Lemma RmulE : @GRing.mul R = Rmult. Proof. by []. Qed.
Lemma RoppE : @GRing.opp R = Ropp. Proof. by []. Qed.
Lemma RinvE : @GRing.inv R = Rinv. Proof. by []. Qed.
Lemma R0E : @GRing.zero R = R0. Proof. by []. Qed.
Lemma R1E : @GRing.one R = R1. Proof. by []. Qed.

(** [toR] folds the field operations of the instance back into those of
    the Standard Library, for [lra], [nra], [ring] and [field]. *)
Ltac toR := rewrite ?RaddE ?RmulE ?RoppE ?RinvE ?R0E ?R1E.

(** [entries] replaces every matrix entry [A i j] of the goal by a
    variable, so that two occurrences that differ in their implicit
    arguments only become one atom. *)
Ltac entries :=
  repeat match goal with
  | |- context [@fun_of_matrix _ _ _ ?A ?i ?j] =>
      let x := fresh "x" in move: (A i j) => x
  end.

(** Comparisons of floats, as the booleans the Python tests compute. *)
Definition Rleb (x y : R) : bool := if Rle_dec x y then true else false.
Definition Rltb (x y : R) : bool := if Rlt_dec x y then true else false.

Lemma RlebP x y : reflect (x <= y)%Re (Rleb x y).
Proof. by rewrite /Rleb; case: Rle_dec => H; constructor. Qed.

Lemma RltbP x y : reflect (x < y)%Re (Rltb x y).
Proof. by rewrite /Rltb; case: Rlt_dec => H; constructor. Qed.

(** ** Exceptions *)

Inductive exn : Type :=
  | ValueError     (* scipy: "Found zero norm quaternions" *)
  | LinAlgError.   (* numpy.linalg: "Singular matrix" *)

Inductive result (A : Type) : Type :=
  | Ok (a : A)
  | Raise (e : exn).

Arguments Ok {A} a.
Arguments Raise {A} e.

(** ** Small numpy arrays *)

Module Numpy.

Local Open Scope R_scope.

(** An array of shape (3,). *)
Record vec3 : Type := Vec3 { v0 : R; v1 : R; v2 : R }.

(** An array of shape (4,). *)
Record vec4 : Type := Vec4 { a0 : R; a1 : R; a2 : R; a3 : R }.

(** [np.zeros(3)] *)
Definition zeros3 : vec3 := Vec3 0 0 0.

(** [u + v], [u - v], [v * c] on arrays of shape (3,). *)
Definition add3 (u v : vec3) : vec3 :=
  Vec3 (v0 u + v0 v) (v1 u + v1 v) (v2 u + v2 v).
Definition sub3 (u v : vec3) : vec3 :=
  Vec3 (v0 u - v0 v) (v1 u - v1 v) (v2 u - v2 v).
Definition scale3 (v : vec3) (c : R) : vec3 :=
  Vec3 (v0 v * c) (v1 v * c) (v2 v * c).
(** [c * v], a scalar on the left. *)
Definition lscale3 (c : R) (v : vec3) : vec3 :=
  Vec3 (c * v0 v) (c * v1 v) (c * v2 v).

Definition add4 (u v : vec4) : vec4 :=
  Vec4 (a0 u + a0 v) (a1 u + a1 v) (a2 u + a2 v) (a3 u + a3 v).
Definition sub4 (u v : vec4) : vec4 :=
  Vec4 (a0 u - a0 v) (a1 u - a1 v) (a2 u - a2 v) (a3 u - a3 v).
(** [v / c] *)
Definition div4 (v : vec4) (c : R) : vec4 :=
  Vec4 (a0 v / c) (a1 v / c) (a2 v / c) (a3 v / c).

(** [np.dot] on arrays of shape (4,). *)
Definition dot4 (u v : vec4) : R :=
  a0 u * a0 v + a1 u * a1 v + a2 u * a2 v + a3 u * a3 v.

(** [np.linalg.norm] *)
Definition norm3 (v : vec3) : R := sqrt (v0 v * v0 v + v1 v * v1 v + v2 v * v2 v).
Definition norm4 (v : vec4) : R := sqrt (dot4 v v).

(** Indexing [v[i]]. *)
Definition get3 (v : vec3) (i : nat) : R :=
  match i with 0 => v0 v | 1 => v1 v | _ => v2 v end.
Definition get4 (v : vec4) (i : nat) : R :=
  match i with 0 => a0 v | 1 => a1 v | 2 => a2 v | _ => a3 v end.

End Numpy.

Export Numpy.

(** ** scipy.spatial.transform.Rotation

    A [Rotation] holds one quaternion in scipy's scalar-last order
    [x, y, z, w].  The functions follow scipy's implementation:
    [from_quat] normalises and refuses a zero quaternion, [from_rotvec]
    builds the quaternion of the exponential map (with scipy's series for
    angles up to 1e-3) and does not normalise, [*] composes and
    normalises, [inv] negates the vector part, [apply] multiplies by the
    rotation matrix of the quaternion. *)

Module Scipy.

Local Open Scope R_scope.

Record Rotation : Type := MkRotation { as_quat : vec4 }.

(** The class invariant of scipy's [Rotation]: the stored quaternion has
    unit norm. *)
Definition unit_quat (q : vec4) : Prop := dot4 q q = 1.
Definition wf (r : Rotation) : Prop := unit_quat (as_quat r).

Definition identity : Rotation := MkRotation (Vec4 0 0 0 1).

(** Division of a quaternion by its norm. *)
Definition normalize (q : vec4) : vec4 := div4 q (norm4 q).

(** [Rotation.from_quat(q)]: "Found zero norm quaternions" is a
    [ValueError].  (On floats scipy also refuses a quaternion that holds
    nan or whose norm underflows to zero; neither is a real vector.) *)
Definition from_quat (q : vec4) : result Rotation :=
  if norm4 q == 0 then Raise ValueError else Ok (MkRotation (normalize q)).

(** [_compose_quat(p, q)], the Hamilton product [p q] in [x, y, z, w]
    order. *)
Definition compose_quat (p q : vec4) : vec4 :=
  Vec4 (a3 p * a0 q + a3 q * a0 p + (a1 p * a2 q - a2 p * a1 q))
       (a3 p * a1 q + a3 q * a1 p + (a2 p * a0 q - a0 p * a2 q))
       (a3 p * a2 q + a3 q * a2 p + (a0 p * a1 q - a1 p * a0 q))
       (a3 p * a3 q - (a0 p * a0 q + a1 p * a1 q + a2 p * a2 q)).

(** [p * q].  scipy normalises the composed quaternion and would raise on
    a zero one; for operands that satisfy the class invariant the composed
    quaternion has norm 1 ([compose_quat_unit]), so no exception is
    modelled here. *)
Definition mul (p q : Rotation) : Rotation :=
  MkRotation (normalize (compose_quat (as_quat p) (as_quat q))).

(** [r.inv()] *)
Definition inv (r : Rotation) : Rotation :=
  let q := as_quat r in MkRotation (Vec4 (- a0 q) (- a1 q) (- a2 q) (a3 q)).

(** [Rotation.from_rotvec(v)] *)
Definition from_rotvec (v : vec3) : Rotation :=
  let angle := norm3 v in
  let scale :=
    if Rleb angle (1 / 1000)
    then 1 / 2 - angle ^ 2 / 48 + angle ^ 4 / 3840
    else sin (angle / 2) / angle in
  MkRotation (Vec4 (scale * v0 v) (scale * v1 v) (scale * v2 v) (cos (angle / 2))).

(** [r.apply(v)]: the product of [r.as_matrix()] with [v]. *)
Definition apply (r : Rotation) (v : vec3) : vec3 :=
  let q := as_quat r in
  let x := a0 q in let y := a1 q in let z := a2 q in let w := a3 q in
  let x2 := x * x in let y2 := y * y in let z2 := z * z in let w2 := w * w in
  let xy := x * y in let zw := z * w in let xz := x * z in
  let yw := y * w in let yz := y * z in let xw := x * w in
  Vec3 ((x2 - y2 - z2 + w2) * v0 v + 2 * (xy - zw) * v1 v + 2 * (xz + yw) * v2 v)
       (2 * (xy + zw) * v0 v + (- x2 + y2 - z2 + w2) * v1 v + 2 * (yz - xw) * v2 v)
       (2 * (xz - yw) * v0 v + 2 * (yz + xw) * v1 v + (- x2 - y2 + z2 + w2) * v2 v).

End Scipy.

Arguments Scipy.mul : simpl never.
Arguments Scipy.inv : simpl never.
Arguments Scipy.from_rotvec : simpl never.
Arguments Scipy.apply : simpl never.
Arguments Scipy.normalize : simpl never.

(** ** IMUProcessor (src/python-dev/vio/imu_processor.py) *)

Module IMUProcessor.

Local Open Scope R_scope.

Import Scipy.

(** One measurement: a [(timestamp, reading)] tuple. *)
Definition sample : Type := (R * vec3)%type.

Record t : Type := Make {
  gyro_bias : vec3;
  accel_bias : vec3;
  gravity : vec3;
  delta_position : vec3;
  delta_velocity : vec3;
  delta_rotation : Rotation;
  dt_total : R
}.

(** [reset_integration(self)] *)
Definition reset_integration (self : t) : t :=
  Make (gyro_bias self) (accel_bias self) (gravity self)
       zeros3 zeros3 identity 0.

(** [__init__(self, gyro_bias=None, accel_bias=None, gravity=None)] *)
Definition init (gyro_bias accel_bias gravity : option vec3) : t :=
  reset_integration
    (Make (if gyro_bias is Some b then b else zeros3)
          (if accel_bias is Some b then b else zeros3)
          (if gravity is Some g then g else Vec3 0 0 (- 9.81))
          zeros3 zeros3 identity 0).

(** [update_bias] and [get_bias] *)
Definition update_bias (self : t) (gyro_bias accel_bias : vec3) : t :=
  Make gyro_bias accel_bias (gravity self)
       (delta_position self) (delta_velocity self) (delta_rotation self)
       (dt_total self).

Definition get_bias (self : t) : vec3 * vec3 := (gyro_bias self, accel_bias self).

(** [sorted(measurements, key=lambda x: x[0])]: a stable sort on the
    timestamps. *)
Definition by_time (s1 s2 : sample) : bool := Rleb s1.1 s2.1.
Definition sorted_by_time (ms : seq sample) : seq sample := sort by_time ms.

(** What the body of the [while] loop reads and writes: the local
    [current_rotation] and the accumulators of [self]. *)
Record loop_state : Type := LoopState {
  current_rotation : Rotation;
  acc_velocity : vec3;     (* self.delta_velocity *)
  acc_position : vec3;     (* self.delta_position *)
  acc_dt : R               (* self.dt_total *)
}.

(** The world-frame acceleration of one step, from the rotation already
    advanced by this step's gyro increment. *)
Definition accel_world (self : t) (rot : Rotation) (accel : vec3) : vec3 :=
  let accel_corrected := sub3 accel (accel_bias self) in
  sub3 (apply rot accel_corrected) (gravity self).

(** The running rotation after this step's gyro increment. *)
Definition advance_rotation (self : t) (rot : Rotation) (gyro : vec3) (dt : R) :
  Rotation :=
  let gyro_corrected := sub3 gyro (gyro_bias self) in
  let delta_angle := scale3 gyro_corrected dt in
  let delta_rot := from_rotvec delta_angle in
  mul rot delta_rot.

(** Lines 140-159: one integration step of duration [dt]. *)
Definition integrate_step (self : t) (gyro accel : vec3) (dt : R)
    (st : loop_state) : loop_state :=
  let current_rotation := advance_rotation self (current_rotation st) gyro dt in
  let accel_world := accel_world self current_rotation accel in
  let delta_velocity := add3 (acc_velocity st) (scale3 accel_world dt) in
  let delta_position :=
    add3 (acc_position st)
         (add3 (scale3 delta_velocity dt)
               (scale3 (scale3 (lscale3 0.5 accel_world) dt) dt)) in
  LoopState current_rotation delta_velocity delta_position (acc_dt st + dt).

Definition sample0 : sample := (0, zeros3).

(** The [while] loop of lines 119-165.  Every iteration increments one of
    the two indices, so [size gyro + size accel] iterations are always
    enough ([integrate_loop_fuel] below); [fuel] counts them down.  The
    test [gyro_idx < len(gyro) - 1] is written [gyro_idx.+1 < size gyro],
    the same on integers and free of the truncated subtraction of [nat]. *)
Fixpoint integrate_loop (self : t) (gyro_measurements accel_measurements : seq sample)
    (fuel gyro_idx accel_idx : nat) (st : loop_state) : loop_state :=
  if fuel is fuel'.+1 then
    if (gyro_idx.+1 < size gyro_measurements)%N
       && (accel_idx.+1 < size accel_measurements)%N then
      let: (t_gyro, gyro) := nth sample0 gyro_measurements gyro_idx in
      let: (t_accel, accel) := nth sample0 accel_measurements accel_idx in
      let t_gyro_next := (nth sample0 gyro_measurements gyro_idx.+1).1 in
      let t_accel_next := (nth sample0 accel_measurements accel_idx.+1).1 in
      let t_next := Rmin t_gyro_next t_accel_next in
      let dt := t_next - Rmin t_gyro t_accel in
      let st' := if Rleb dt 0 then st else integrate_step self gyro accel dt st in
      if Rleb t_gyro_next t_accel_next
      then integrate_loop self gyro_measurements accel_measurements
             fuel' gyro_idx.+1 accel_idx st'
      else integrate_loop self gyro_measurements accel_measurements
             fuel' gyro_idx accel_idx.+1 st'
    else st
  else st.

(** [preintegrate(self, gyro_measurements, accel_measurements,
    initial_rotation=None)]: the object after the call and the returned
    tuple. *)
Definition preintegrate (self : t) (gyro_measurements accel_measurements : seq sample)
    (initial_rotation : option Rotation) : t * (vec3 * vec3 * Rotation) :=
  let self := reset_integration self in
  let initial_rotation :=
    if initial_rotation is Some r then r else identity in
  let current_rotation := initial_rotation in
  let gyro_measurements := sorted_by_time gyro_measurements in
  let accel_measurements := sorted_by_time accel_measurements in
  let st :=
    integrate_loop self gyro_measurements accel_measurements
      (size gyro_measurements + size accel_measurements)%N 0%N 0%N
      (LoopState current_rotation (delta_velocity self) (delta_position self)
                 (dt_total self)) in
  let delta_rotation := mul (inv initial_rotation) (IMUProcessor.current_rotation st) in
  let self :=
    Make (gyro_bias self) (accel_bias self) (gravity self)
         (acc_position st) (acc_velocity st) delta_rotation (acc_dt st) in
  (self, (delta_position self, delta_velocity self, IMUProcessor.delta_rotation self)).

End IMUProcessor.

Arguments IMUProcessor.accel_world : simpl never.
Arguments IMUProcessor.advance_rotation : simpl never.

(** ** EKFFusionEngine (src/vio/ekf_fusion_engine.py) *)

Module EKFFusionEngine.

Import Scipy.

Local Open Scope ring_scope.

(** The attributes [state], [covariance], [Q] and [R] of the engine. *)
Record t : Type := Make {
  state : 'cV[R]_16;
  covariance : 'M[R]_16;
  Qn : 'M[R]_16;        (* self.Q *)
  Rn : 'M[R]_7          (* self.R *)
}.

(** A call on the engine either returns, leaving the engine [self], or
    raises [e], leaving the engine [self]. *)
Inductive outcome : Type :=
  | Returns (self : t)
  | Raises (e : exn) (self : t).

(** *** Slices of the state vector *)

(** [x[k]] *)
Definition item (n : nat) (x : 'cV[R]_n.+1) (k : nat) : R := x (inord k) 0.

(** [x[lo:lo+3]] and [x[lo:lo+4]] *)
Definition slice3 (n : nat) (x : 'cV[R]_n.+1) (lo : nat) : vec3 :=
  Vec3 (item x lo) (item x lo.+1) (item x lo.+2).
Definition slice4 (n : nat) (x : 'cV[R]_n.+1) (lo : nat) : vec4 :=
  Vec4 (item x lo) (item x lo.+1) (item x lo.+2) (item x lo.+3).

(** [x[lo:lo+3] = v] and [x[lo:lo+4] = v] *)
Definition set_slice3 (n : nat) (x : 'cV[R]_n) (lo : nat) (v : vec3) : 'cV[R]_n :=
  \col_(i < n) if (lo <= i < lo + 3)%N then get3 v (i - lo) else x i 0.
Definition set_slice4 (n : nat) (x : 'cV[R]_n) (lo : nat) (v : vec4) : 'cV[R]_n :=
  \col_(i < n) if (lo <= i < lo + 4)%N then get4 v (i - lo) else x i 0.

(** [np.concatenate([p, q])] of an array of shape (3,) and one of shape
    (4,). *)
Definition concatenate (p : vec3) (q : vec4) : 'cV[R]_7 :=
  \col_(i < 7) if (i < 3)%N then get3 p i else get4 q (i - 3).

(** [A[lo:hi, lo:hi] *= c] *)
Definition scale_block (n : nat) (A : 'M[R]_n) (lo hi : nat) (c : R) : 'M[R]_n :=
  \matrix_(i < n, j < n)
    if (lo <= i < hi)%N && (lo <= j < hi)%N then A i j * c else A i j.

(** [np.linalg.inv] in exact arithmetic: the inverse, or [LinAlgError] on
    a singular matrix.  On floats numpy raises when the LU factorisation
    meets an exactly zero pivot, which rounding can spare a singular
    matrix; [Library.update_with] below takes the routine as an argument
    for the statements that depend on when it raises. *)
Definition linalg_inv (n : nat) (A : 'M[R]_n) : result 'M[R]_n :=
  if A \in unitmx then Ok (invmx A) else Raise LinAlgError.

(** *** Construction *)

(** [np.zeros(16)] with [state[6:10] = [1, 0, 0, 0]] *)
Definition default_state : 'cV[R]_16 :=
  set_slice4 (0 : 'cV[R]_16) 6 (Vec4 1 0 0 0).

(** [np.eye(16) * 0.1] *)
Definition default_covariance : 'M[R]_16 := (0.1)%Re *: 1%:M.

Definition default_Q : 'M[R]_16 :=
  let Q := 1%:M in
  let Q := scale_block Q 0 3 (0.01)%Re in
  let Q := scale_block Q 3 6 (0.01)%Re in
  let Q := scale_block Q 6 10 (0.001)%Re in
  let Q := scale_block Q 10 13 (0.0001)%Re in
  scale_block Q 13 16 (0.001)%Re.

Definition default_R : 'M[R]_7 :=
  let R := 1%:M in
  let R := scale_block R 0 3 (0.01)%Re in
  scale_block R 3 7 (0.001)%Re.

(** [__init__(self, initial_state=None, initial_covariance=None,
    process_noise=None, measurement_noise=None)] *)
Definition init (initial_state : option 'cV[R]_16)
    (initial_covariance process_noise : option 'M[R]_16)
    (measurement_noise : option 'M[R]_7) : t :=
  Make (if initial_state is Some x then x else default_state)
       (if initial_covariance is Some P then P else default_covariance)
       (if process_noise is Some Q then Q else default_Q)
       (if measurement_noise is Some R then R else default_R).

(** *** Prediction *)

(** Lines 144 and 211: [state[6:10] /= np.linalg.norm(state[6:10])].  On
    a zero block numpy divides zero by zero and stores nan, where this
    definition stores [0 / 0 = 0]; [Library.stored_quaternion] below gives
    the floats line 211 stores, nan included. *)
Definition renormalize (state : 'cV[R]_16) : 'cV[R]_16 :=
  set_slice4 state 6 (div4 (slice4 state 6) (norm4 (slice4 state 6))).


(** [_compute_state_transition_matrix(self, dt)]: [np.eye(16)] with
    [F[0:3, 3:6] = np.eye(3) * dt]. *)
Definition compute_state_transition_matrix (dt : R) : 'M[R]_16 :=
  \matrix_(i < 16, j < 16)
    if (i < 3)%N && (3 <= j < 6)%N then (if (j - 3 == i)%N then dt else 0)
    else (i == j)%:R.

(** [predict(self, delta_position, delta_velocity, delta_rotation, dt)] *)
Definition predict (self : t) (delta_position delta_velocity : vec3)
    (delta_rotation : Rotation) (dt : R) : outcome :=
  let position := slice3 (state self) 0 in
  let velocity := slice3 (state self) 3 in
  let quat := slice4 (state self) 6 in
  match from_quat (Vec4 (a1 quat) (a2 quat) (a3 quat) (a0 quat)) with
  | Raise e => Raises e self
  | Ok current_rotation =>
    let new_position := add3 (add3 position (scale3 velocity dt)) delta_position in
    let new_velocity := add3 velocity delta_velocity in
    let new_rotation := mul current_rotation delta_rotation in
    let new_quat_xyzw := as_quat new_rotation in
    let new_quat :=
      Vec4 (a3 new_quat_xyzw) (a0 new_quat_xyzw) (a1 new_quat_xyzw)
           (a2 new_quat_xyzw) in
    let gyro_bias := slice3 (state self) 10 in
    let accel_bias := slice3 (state self) 13 in
    let state := set_slice3 (state self) 0 new_position in
    let state := set_slice3 state 3 new_velocity in
    let state := set_slice4 state 6 new_quat in
    let state := set_slice3 state 10 gyro_bias in
    let state := set_slice3 state 13 accel_bias in
    let state := renormalize state in
    let F := compute_state_transition_matrix dt in
    Returns (Make state (F *m covariance self *m F^T + dt *: Qn self)
                  (Qn self) (Rn self))
  end.

(** *** Update *)

(** [np.zeros((7, 16))] with [H[0:3, 0:3] = np.eye(3)] and
    [H[3:7, 6:10] = np.eye(4)]. *)
Definition measurement_matrix : 'M[R]_(7, 16) :=
  \matrix_(i < 7, j < 16)
    if (i < 3)%N && (j < 3)%N then (i == j :> nat)%:R
    else if (3 <= i)%N && (6 <= j < 10)%N then (i - 3 == j - 6)%N%:R
    else 0.

(** The innovation [y] of lines 190-194, from the measurement [z], the
    predicted measurement [h] and the two quaternions. *)
Definition innovation (z h : 'cV[R]_7) (measured_quat predicted_quat : vec4) :
  'cV[R]_7 :=
  let y := z - h in
  if Rltb (dot4 measured_quat predicted_quat) 0
  then \col_(i < 7) if (3 <= i)%N then z i 0 + h i 0 else y i 0
  else y.

(** Lines 171-194: the measurement residual of a call. *)
Definition residual (self : t) (measured_position : vec3)
    (measured_rotation : Rotation) : 'cV[R]_7 :=
  let measured_quat_xyzw := as_quat measured_rotation in
  let measured_quat :=
    Vec4 (a3 measured_quat_xyzw) (a0 measured_quat_xyzw)
         (a1 measured_quat_xyzw) (a2 measured_quat_xyzw) in
  let z := concatenate measured_position measured_quat in
  let predicted_position := slice3 (state self) 0 in
  let predicted_quat := slice4 (state self) 6 in
  let h := concatenate predicted_position predicted_quat in
  innovation z h measured_quat predicted_quat.

(** Line 202: [S = H @ self.covariance @ H.T + self.R]. *)
Definition innovation_covariance (self : t) : 'M[R]_7 :=
  let H := measurement_matrix in
  H *m covariance self *m H^T + Rn self.

(** Line 205, once the inverse is there: [K = self.covariance @ H.T @ S_inv]. *)
Definition kalman_gain (self : t) (S_inv : 'M[R]_7) : 'M[R]_(16, 7) :=
  covariance self *m measurement_matrix^T *m S_inv.

(** Line 208: [self.state + K @ y]. *)
Definition corrected_state (self : t) (K : 'M[R]_(16, 7)) (y : 'cV[R]_7) :
  'cV[R]_16 :=
  state self + K *m y.

(** [update(self, measured_position, measured_rotation)].  The inverse is
    taken on line 205, before the first assignment to [self]: when it
    raises, [self] is as the caller passed it. *)
Definition update (self : t) (measured_position : vec3)
    (measured_rotation : Rotation) : outcome :=
  let y := residual self measured_position measured_rotation in
  let H := measurement_matrix in
  let S := innovation_covariance self in
  match linalg_inv S with
  | Raise e => Raises e self
  | Ok S_inv =>
    let K := kalman_gain self S_inv in
    let state := corrected_state self K y in
    let state := renormalize state in
    let I := 1%:M in
    Returns (Make state ((I - K *m H) *m covariance self) (Qn self) (Rn self))
  end.

(** A call on the engine, and a sequence of calls on one engine: an
    exception goes to the caller, the engine stays as the raise left it
    and takes the next call. *)
Inductive call : Type :=
  | Predict (delta_position delta_velocity : vec3) (delta_rotation : Rotation)
            (dt : R)
  | Update (measured_position : vec3) (measured_rotation : Rotation).

Definition exec (self : t) (c : call) : outcome :=
  match c with
  | Predict dp dv dr dt => predict self dp dv dr dt
  | Update z r => update self z r
  end.

Definition after (o : outcome) : t :=
  match o with Returns self => self | Raises _ self => self end.

Definition run (self : t) (calls : seq call) : t :=
  foldl (fun self c => after (exec self c)) self calls.

(** *** Reads *)

(** [np.trace(self.covariance[0:3, 0:3])] *)
Definition position_cov_trace (P : 'M[R]_16) : R :=
  \sum_(i < 16 | (i < 3)%N) P i i.

(** [get_covariance] and [get_position_uncertainty] *)
Definition get_covariance (self : t) : 'M[R]_16 := covariance self.
Definition get_position_uncertainty (self : t) : R :=
  sqrt (position_cov_trace (covariance self)).

(** [reset(self, position=None, orientation=None)] *)
Definition reset (self : t) (position : option vec3)
    (orientation : option Rotation) : t :=
  let state := (0 : 'cV[R]_16) in
  let state := if position is Some p then set_slice3 state 0 p else state in
  let state :=
    if orientation is Some r then
      let quat_xyzw := as_quat r in
      set_slice4 state 6
        (Vec4 (a3 quat_xyzw) (a0 quat_xyzw) (a1 quat_xyzw) (a2 quat_xyzw))
    else set_slice4 state 6 (Vec4 1 0 0 0) in
  Make state default_covariance (Qn self) (Rn self).

(** [is_initialized]: [np.linalg.norm(self.state[0:3]) > 0.001] *)
Definition is_initialized (self : t) : bool :=
  Rltb (0.001)%Re (norm3 (slice3 (state self) 0)).

(** [get_state]: the dictionary it returns, as a record of its six keys.
    The arrays are copies; [Rotation.from_quat] raises [ValueError] on a
    zero quaternion. *)
Record state_dict : Type := StateDict {
  position : vec3;
  velocity : vec3;
  orientation : Rotation;
  quaternion : vec4;      (* [w, x, y, z] *)
  gyro_bias : vec3;
  accel_bias : vec3
}.

Definition get_state (self : t) : result state_dict :=
  let quat := slice4 (state self) 6 in
  let quat_xyzw := Vec4 (a1 quat) (a2 quat) (a3 quat) (a0 quat) in
  match from_quat quat_xyzw with
  | Ok orientation =>
      Ok (StateDict (slice3 (state self) 0) (slice3 (state self) 3)
                    orientation quat
                    (slice3 (state self) 10) (slice3 (state self) 13))
  | Raise e => Raise e
  end.

End EKFFusionEngine.

(** ** [update] over the library as it is

    [EKFFusionEngine.update] takes [np.linalg.inv] to raise exactly on a
    singular matrix, and line 211 to divide as the reals do.  On floats
    numpy's routine raises when its LU factorisation meets an exactly zero
    pivot and returns a matrix otherwise, also on a singular argument that
    rounding keeps from such a pivot; and a division of zero by zero
    stores nan.  [update_with] is [update] with the inversion routine as
    an argument; [stored_quaternion] is the block line 211 stores, as
    floats. *)

Module Library.

Import Scipy EKFFusionEngine.

Local Open Scope ring_scope.

(** A float: a number, an infinity or nan. *)
Inductive ieee : Type :=
  | Finite (x : R)
  | Infinity (negative : bool)
  | NaN.

(** [x / y] on floats, for numbers [x] and [y]: numpy does not raise on a
    zero divisor, a nonzero [x] gives an infinity and [0 / 0] gives nan.
    (The divisor below is a norm, of positive sign when zero.) *)
Definition divide (x y : R) : ieee :=
  if y == 0 then (if x == 0 then NaN else Infinity (Rltb x 0))
  else Finite (x / y).

(** An array of shape (4,) of floats, and [v / c]. *)
Definition ieee4 : Type := (ieee * ieee * ieee * ieee)%type.

Definition divide4 (v : vec4) (c : R) : ieee4 :=
  (divide (a0 v) c, divide (a1 v) c, divide (a2 v) c, divide (a3 v) c).

Definition finite4 (v : vec4) : ieee4 :=
  (Finite (a0 v), Finite (a1 v), Finite (a2 v), Finite (a3 v)).

Section Inverse.

(** [np.linalg.inv] on the 7x7 matrix [S]: it raises or returns a
    matrix. *)
Variable np_linalg_inv : 'M[R]_7 -> result 'M[R]_7.

(** [update(self, measured_position, measured_rotation)], lines 171-215,
    over that routine. *)
Definition update_with (self : t) (measured_position : vec3)
    (measured_rotation : Rotation) : outcome :=
  let y := residual self measured_position measured_rotation in
  let H := measurement_matrix in
  let S := innovation_covariance self in
  match np_linalg_inv S with
  | Raise e => Raises e self
  | Ok S_inv =>
    let K := kalman_gain self S_inv in
    let state := corrected_state self K y in
    let state := renormalize state in
    let I := 1%:M in
    Returns (Make state ((I - K *m H) *m covariance self) (Qn self) (Rn self))
  end.

(** [self.state[6:10]] after line 208, [self.state = self.state + K @ y],
    when the inversion has returned. *)
Definition corrected_block (self : t) (measured_position : vec3)
    (measured_rotation : Rotation) : result vec4 :=
  match np_linalg_inv (innovation_covariance self) with
  | Raise e => Raise e
  | Ok S_inv =>
      Ok (slice4 (corrected_state self (kalman_gain self S_inv)
                    (residual self measured_position measured_rotation)) 6)
  end.

(** [self.state[6:10]] after line 211,
    [self.state[6:10] /= np.linalg.norm(self.state[6:10])], as floats. *)
Definition stored_quaternion (self : t) (measured_position : vec3)
    (measured_rotation : Rotation) : result ieee4 :=
  match corrected_block self measured_position measured_rotation with
  | Raise e => Raise e
  | Ok q => Ok (divide4 q (norm4 q))
  end.

Definition exec_with (self : t) (c : call) : outcome :=
  match c with
  | Predict dp dv dr dt => predict self dp dv dr dt
  | Update z r => update_with self z r
  end.

Definition run_with (self : t) (calls : seq call) : t :=
  foldl (fun self c => after (exec_with self c)) self calls.

End Inverse.

End Library.

(** ** AprilTagDetector (src/vio/apriltag_detector.py)

    [detect] runs the apriltag library and OpenCV's [solvePnP] on an
    image; its result, a list of dictionaries, is an input here.  A
    [detection] keeps the keys of such a dictionary that the code below
    reads. *)

Module AprilTagDetector.

Record detection : Type := Detection {
  tag_id : BinNums.Z;
  translation : vec3;
  rotation_matrix : 'M[R]_3
}.

(** [get_pose_from_tag_id(self, detections, tag_id)]; [self] is not
    read. *)
Fixpoint get_pose_from_tag_id (detections : seq detection) (id : BinNums.Z) :
    option (vec3 * 'M[R]_3) :=
  if detections is detection :: detections then
    if BinInt.Z.eqb (tag_id detection) id
    then Some (translation detection, rotation_matrix detection)
    else get_pose_from_tag_id detections id
  else None.

End AprilTagDetector.

(** ** VIOSystem (src/main.py)

    The orchestrator: one [IMUProcessor], one [EKFFusionEngine], the time
    of the last frame and a frame counter.  The detector is configuration
    only; what [self.detector.detect(image)] returns is an argument of
    [process_frame].  Printing and the OpenCV window are left out. *)

Module VIOSystem.

Import Scipy AprilTagDetector.

Local Open Scope R_scope.

Record t : Type := Make {
  imu_processor : IMUProcessor.t;
  ekf : EKFFusionEngine.t;
  last_frame_time : option R;
  frame_count : nat
}.

(** [__init__]: [IMUProcessor()], [EKFFusionEngine()],
    [last_frame_time = None], [frame_count = 0]. *)
Definition init : t :=
  Make (IMUProcessor.init None None None)
       (EKFFusionEngine.init None None None None) None 0.

(** A call either returns a value, leaving the system [self], or raises,
    leaving the system as the raise found it. *)
Inductive outcome (A : Type) : Type :=
  | Returns (self : t) (a : A)
  | Raises (e : exn) (self : t).

Arguments Returns {A} self a.
Arguments Raises {A} e self.

Definition bind (A B : Type) (o : outcome A) (k : t -> A -> outcome B) :
    outcome B :=
  match o with
  | Returns self a => k self a
  | Raises e self => Raises e self
  end.

Definition after (A : Type) (o : outcome A) : t :=
  match o with Returns self _ => self | Raises _ self => self end.

(** The dictionary [process_frame] returns. *)
Record pose : Type := Pose {
  position : vec3;
  velocity : vec3;
  orientation : Rotation;
  quaternion : vec4;
  uncertainty : R;
  detections : nat;
  timestamp : R
}.

Section ProcessFrame.

(** [Rotation.from_matrix] of scipy. *)
Variable from_matrix : 'M[R]_3 -> Rotation.

(** Step 1 of [process_frame], lines 99-119: the IMU prediction, when
    there was a frame before and the gyro list is not empty. *)
Definition imu_prediction (self : t) (timestamp : R)
    (gyro_measurements accel_measurements : seq IMUProcessor.sample) :
    outcome unit :=
  match last_frame_time self with
  | Some last =>
    if (0 < size gyro_measurements)%N then
      match EKFFusionEngine.get_state (ekf self) with
      | Raise e => Raises e self
      | Ok state =>
        let current_rotation := EKFFusionEngine.orientation state in
        let: (imu, (delta_pos, delta_vel, delta_rot)) :=
          IMUProcessor.preintegrate (imu_processor self)
            gyro_measurements accel_measurements (Some current_rotation) in
        let dt := timestamp - last in
        match EKFFusionEngine.predict (ekf self) delta_pos delta_vel delta_rot dt with
        | EKFFusionEngine.Returns ekf =>
            Returns (Make imu ekf (last_frame_time self) (frame_count self)) tt
        | EKFFusionEngine.Raises e ekf =>
            Raises e (Make imu ekf (last_frame_time self) (frame_count self))
        end
      end
    else Returns self tt
  | None => Returns self tt
  end.

(** Step 2, lines 121-145: the update from the first detected tag. *)
Definition tag_update (self : t) (detected : seq detection) : outcome unit :=
  if detected is detection :: _ then
    let measured_position := translation detection in
    let measured_rotation := from_matrix (rotation_matrix detection) in
    match EKFFusionEngine.update (ekf self) measured_position measured_rotation with
    | EKFFusionEngine.Returns ekf =>
        Returns (Make (imu_processor self) ekf (last_frame_time self)
                      (frame_count self)) tt
    | EKFFusionEngine.Raises e ekf =>
        Raises e (Make (imu_processor self) ekf (last_frame_time self)
                       (frame_count self))
    end
  else Returns self tt.

(** [process_frame(self, image, timestamp, gyro_measurements,
    accel_measurements)], with [detected] the list
    [self.detector.detect(image)]. *)
Definition process_frame (self : t) (detected : seq detection) (timestamp : R)
    (gyro_measurements accel_measurements : seq IMUProcessor.sample) :
    outcome pose :=
  let self := Make (imu_processor self) (ekf self) (last_frame_time self)
                   (frame_count self).+1 in
  bind (imu_prediction self timestamp gyro_measurements accel_measurements)
    (fun self _ =>
  bind (tag_update self detected)
    (fun self _ =>
  match EKFFusionEngine.get_state (ekf self) with
  | Raise e => Raises e self
  | Ok state =>
    let position := EKFFusionEngine.position state in
    let uncertainty := EKFFusionEngine.get_position_uncertainty (ekf self) in
    let self := Make (imu_processor self) (ekf self) (Some timestamp)
                     (frame_count self) in
    Returns self
      (Pose position (EKFFusionEngine.velocity state)
            (EKFFusionEngine.orientation state)
            (EKFFusionEngine.quaternion state)
            uncertainty (size detected) timestamp)
  end)).

End ProcessFrame.

(** [get_current_pose] *)
Definition get_current_pose (self : t) : result EKFFusionEngine.state_dict :=
  EKFFusionEngine.get_state (ekf self).

(** [reset]: [self.ekf.reset()], [self.imu_processor.reset_integration()],
    no frame time, counter 0. *)
Definition reset (self : t) : t :=
  Make (IMUProcessor.reset_integration (imu_processor self))
       (EKFFusionEngine.reset (ekf self) None None) None 0.

End VIOSystem.

(** * Properties *)

Lemma vec3_eq (u v : vec3) :
  v0 u = v0 v -> v1 u = v1 v -> v2 u = v2 v -> u = v.
Proof. by case: u => x y z; case: v => x' y' z' /= -> -> ->. Qed.

Lemma vec4_eq (u v : vec4) :
  a0 u = a0 v -> a1 u = a1 v -> a2 u = a2 v -> a3 u = a3 v -> u = v.
Proof. by case: u => x y z w; case: v => x' y' z' w' /= -> -> -> ->. Qed.

(** ** Quaternions and rotations *)

Section RotationFacts.

Import Scipy.

Local Open Scope R_scope.

Lemma dot4_ge0 (q : vec4) : 0 <= dot4 q q.
Proof. rewrite /dot4; nra. Qed.

Lemma dot4_eq0 (q : vec4) : dot4 q q = 0 -> q = Vec4 0 0 0 0.
Proof.
case: q => x y z w; rewrite /dot4 /= => H.
by congr Vec4; nra.
Qed.

Lemma norm4_eq0 (q : vec4) : norm4 q = 0 -> dot4 q q = 0.
Proof. by move=> H; apply: sqrt_eq_0 => //; exact: dot4_ge0. Qed.

Lemma norm4_gt0 (q : vec4) : dot4 q q <> 0 -> 0 < norm4 q.
Proof.
move=> H; apply: sqrt_lt_R0.
by case: (dot4_ge0 q) => // H0; case: H.
Qed.

Lemma norm4_neq0 (q : vec4) : dot4 q q <> 0 -> norm4 q <> 0.
Proof. by move=> /norm4_gt0 H E; rewrite E in H; lra. Qed.

Lemma norm4_sqr (q : vec4) : norm4 q * norm4 q = dot4 q q.
Proof. by apply: sqrt_sqrt; exact: dot4_ge0. Qed.

Lemma norm4_unit (q : vec4) : unit_quat q -> norm4 q = 1.
Proof. by rewrite /norm4 => ->; exact: sqrt_1. Qed.

Lemma dot4_div4 (q : vec4) (c : R) :
  c <> 0 -> dot4 (div4 q c) (div4 q c) = dot4 q q / (c * c).
Proof. by move=> c0; rewrite /dot4 /=; field. Qed.

(** Dividing a nonzero quaternion by its norm leaves a unit quaternion. *)
Lemma normalize_unit (q : vec4) : dot4 q q <> 0 -> unit_quat (normalize q).
Proof.
move=> q0; have n0 := norm4_neq0 q0.
rewrite /unit_quat /normalize dot4_div4 // norm4_sqr.
by field.
Qed.

Lemma norm4_normalize (q : vec4) : dot4 q q <> 0 -> norm4 (normalize q) = 1.
Proof. by move=> /normalize_unit /norm4_unit. Qed.

(** A unit quaternion is its own normalisation. *)
Lemma normalize_id (q : vec4) : unit_quat q -> normalize q = q.
Proof.
move=> /norm4_unit; rewrite /normalize /div4 => ->.
by case: q => x y z w /=; congr Vec4; field.
Qed.

(** The norm is multiplicative on Hamilton products. *)
Lemma dot4_compose_quat (p q : vec4) :
  dot4 (compose_quat p q) (compose_quat p q) = dot4 p p * dot4 q q.
Proof. by rewrite /dot4 /compose_quat /=; ring. Qed.

Lemma compose_quat_unit (p q : vec4) :
  unit_quat p -> unit_quat q -> unit_quat (compose_quat p q).
Proof. by rewrite /unit_quat dot4_compose_quat => -> ->; lra. Qed.

Lemma wf_identity : wf identity.
Proof. by rewrite /wf /unit_quat /dot4 /=; lra. Qed.

Lemma wf_inv (r : Rotation) : wf r -> wf (inv r).
Proof. by rewrite /wf /unit_quat /dot4 /= => <-; ring. Qed.

Lemma wf_mul (p q : Rotation) : wf p -> wf q -> wf (mul p q).
Proof.
move=> wp wq; rewrite /wf /mul /=; apply: normalize_unit.
by rewrite (compose_quat_unit wp wq); lra.
Qed.

(** On well-formed rotations [*] is the Hamilton product. *)
Lemma as_quat_mul (p q : Rotation) :
  wf p -> wf q -> as_quat (mul p q) = compose_quat (as_quat p) (as_quat q).
Proof. by move=> wp wq; rewrite /mul /= normalize_id //; exact: compose_quat_unit. Qed.

Lemma mul_identity_r (r : Rotation) : wf r -> mul r identity = r.
Proof.
move=> wr; case: r wr => q wq; congr MkRotation.
rewrite -[RHS](normalize_id wq); congr normalize.
by case: q {wq} => x y z w; rewrite /compose_quat /=; congr Vec4; ring.
Qed.

(** [r.inv() * r] is the identity rotation. *)
Lemma mul_inv_l (r : Rotation) : wf r -> mul (inv r) r = identity.
Proof.
move=> wr; have <- : MkRotation (normalize (as_quat identity)) = identity.
  by rewrite (normalize_id wf_identity).
rewrite /mul /=; congr (MkRotation (normalize _)).
case: r wr => -[x y z w]; rewrite /wf /unit_quat /dot4 /compose_quat /= => H.
by congr Vec4; nra.
Qed.

(** [from_rotvec] of the zero vector is the identity. *)
Lemma from_rotvec_zeros : from_rotvec zeros3 = identity.
Proof.
rewrite /from_rotvec /identity /norm3 /=.
have -> : 0 * 0 + 0 * 0 + 0 * 0 = 0 by ring.
rewrite sqrt_0; have -> : 0 / 2 = 0 by field.
by rewrite cos_0; congr (MkRotation (Vec4 _ _ _ _)); ring.
Qed.

(** The identity rotation leaves every vector in place. *)
Lemma apply_identity (v : vec3) : apply identity v = v.
Proof. by case: v => x y z; rewrite /apply /=; congr Vec3; ring. Qed.

End RotationFacts.

(** ** The integration loop *)

Section IntegrateLoop.

Import Scipy IMUProcessor.

Local Open Scope R_scope.

Variable self : IMUProcessor.t.
Variables gyro accel : seq sample.

(** The loop test fails: the loop is over. *)
Lemma integrate_loop_exit fuel gyro_idx accel_idx st :
  ~~ ((gyro_idx.+1 < size gyro)%N && (accel_idx.+1 < size accel)%N) ->
  integrate_loop self gyro accel fuel gyro_idx accel_idx st = st.
Proof. by case: fuel => [|fuel] //= /negbTE ->. Qed.

(** One iteration, when the loop test holds. *)
Lemma integrate_loop_iter fuel gyro_idx accel_idx st :
  (gyro_idx.+1 < size gyro)%N -> (accel_idx.+1 < size accel)%N ->
  let t_gyro := (nth sample0 gyro gyro_idx).1 in
  let t_accel := (nth sample0 accel accel_idx).1 in
  let t_gyro_next := (nth sample0 gyro gyro_idx.+1).1 in
  let t_accel_next := (nth sample0 accel accel_idx.+1).1 in
  let dt := Rmin t_gyro_next t_accel_next - Rmin t_gyro t_accel in
  let st' :=
    if Rleb dt 0 then st
    else integrate_step self (nth sample0 gyro gyro_idx).2
           (nth sample0 accel accel_idx).2 dt st in
  integrate_loop self gyro accel fuel.+1 gyro_idx accel_idx st =
  if Rleb t_gyro_next t_accel_next
  then integrate_loop self gyro accel fuel gyro_idx.+1 accel_idx st'
  else integrate_loop self gyro accel fuel gyro_idx accel_idx.+1 st'.
Proof.
move=> Hg Ha /=; rewrite Hg Ha /=.
by case: (nth sample0 gyro gyro_idx) => tg g; case: (nth sample0 accel accel_idx).
Qed.

(** The fuel [preintegrate] gives the loop is enough: from indices
    [gyro_idx] and [accel_idx] on, any two amounts of fuel that cover the
    samples still ahead give the same final state. *)
Lemma integrate_loop_fuel fuel1 fuel2 gyro_idx accel_idx st :
  (size gyro - gyro_idx + (size accel - accel_idx) <= fuel1)%N ->
  (size gyro - gyro_idx + (size accel - accel_idx) <= fuel2)%N ->
  integrate_loop self gyro accel fuel1 gyro_idx accel_idx st =
  integrate_loop self gyro accel fuel2 gyro_idx accel_idx st.
Proof.
elim: fuel1 fuel2 gyro_idx accel_idx st => [|f1 IH] f2 gi ai st.
  rewrite leqn0 addn_eq0 !subn_eq0 => /andP[Hg Ha] _.
  rewrite !integrate_loop_exit // negb_and -!leqNgt;
    by rewrite (leq_trans Hg (leqnSn _)).
case: f2 => [|f2] H1 H2.
  move: H2; rewrite leqn0 addn_eq0 !subn_eq0 => /andP[Hg Ha].
  rewrite !integrate_loop_exit // negb_and -!leqNgt;
    by rewrite (leq_trans Hg (leqnSn _)).
case Hg: (gi.+1 < size gyro)%N; last first.
  by rewrite !integrate_loop_exit // Hg.
case Ha: (ai.+1 < size accel)%N; last first.
  by rewrite !integrate_loop_exit // Ha andbF.
rewrite !integrate_loop_iter //.
have Hg' : (size gyro - gi.+1 + (size accel - ai)).+1 = (size gyro - gi + (size accel - ai))%N.
  by rewrite -addSn subnSK // ltnW.
have Ha' : (size gyro - gi + (size accel - ai.+1)).+1 = (size gyro - gi + (size accel - ai))%N.
  by rewrite -addnS subnSK // ltnW.
by case: ifP => _; apply: IH; rewrite -ltnS ?Hg' ?Ha'.
Qed.

End IntegrateLoop.

(** ** The schedule of the integration loop

    Which steps the loop integrates depends on the timestamps only.
    [integration_steps] lists them in order, each with the gyro reading,
    the accelerometer reading and the duration it is given. *)

Section Schedule.

Import Scipy IMUProcessor.

Local Open Scope R_scope.

Variables gyro accel : seq sample.

Fixpoint integration_steps (fuel gyro_idx accel_idx : nat) : seq (vec3 * vec3 * R) :=
  if fuel is fuel'.+1 then
    if (gyro_idx.+1 < size gyro)%N && (accel_idx.+1 < size accel)%N then
      let t_gyro_next := (nth sample0 gyro gyro_idx.+1).1 in
      let t_accel_next := (nth sample0 accel accel_idx.+1).1 in
      let dt :=
        Rmin t_gyro_next t_accel_next
        - Rmin (nth sample0 gyro gyro_idx).1 (nth sample0 accel accel_idx).1 in
      let rest :=
        if Rleb t_gyro_next t_accel_next
        then integration_steps fuel' gyro_idx.+1 accel_idx
        else integration_steps fuel' gyro_idx accel_idx.+1 in
      if Rleb dt 0 then rest
      else ((nth sample0 gyro gyro_idx).2, (nth sample0 accel accel_idx).2, dt)
             :: rest
    else [::]
  else [::].

Definition run_steps (self : IMUProcessor.t) (st : loop_state)
    (steps : seq (vec3 * vec3 * R)) : loop_state :=
  foldl (fun st s => integrate_step self s.1.1 s.1.2 s.2 st) st steps.

(** The loop runs [integrate_step] over its schedule, and nothing else. *)
Lemma integrate_loop_schedule self fuel gyro_idx accel_idx st :
  integrate_loop self gyro accel fuel gyro_idx accel_idx st =
  run_steps self st (integration_steps fuel gyro_idx accel_idx).
Proof.
elim: fuel gyro_idx accel_idx st => [|fuel IH] gi ai st //.
case Hg: (gi.+1 < size gyro)%N; last by rewrite integrate_loop_exit /= Hg.
case Ha: (ai.+1 < size accel)%N; last by rewrite integrate_loop_exit /= Ha ?andbF.
rewrite integrate_loop_iter //= Hg Ha /=.
by do 2![case: ifP => _]; rewrite IH.
Qed.

(** Every scheduled step has a positive duration. *)
Lemma integration_steps_dt fuel gyro_idx accel_idx :
  all (fun s => Rltb 0 s.2) (integration_steps fuel gyro_idx accel_idx).
Proof.
elim: fuel gyro_idx accel_idx => [|fuel IH] gi ai //=.
case: ifP => // _; case: ifP => [_|/RlebP Hdt]; first by case: ifP.
rewrite /=; apply/andP; split; last by case: ifP.
by apply/RltbP; lra.
Qed.

End Schedule.

(** ** Claims on [IMUProcessor.preintegrate] *)

Section PreintegrateClaims.

Import Scipy IMUProcessor.

Local Open Scope R_scope.

Lemma size_sorted_by_time (ms : seq sample) : size (sorted_by_time ms) = size ms.
Proof. exact: size_sort. Qed.

(** C5.  Insufficient data: when the gyro sequence or the accelerometer
    sequence has fewer than two samples (one sample each included),
    [preintegrate] returns the zero delta: zero position change, zero
    velocity change and the identity rotation.  The model of
    [preintegrate] has no exceptional outcome: nothing on this path can
    raise.  The starting rotation, when one is given, is a scipy
    [Rotation], hence of unit norm. *)
Theorem C5_insufficient_data_zero_delta
    (self : IMUProcessor.t) (gyro accel : seq sample)
    (initial_rotation : option Rotation) :
  (size gyro < 2)%N \/ (size accel < 2)%N ->
  (if initial_rotation is Some r then wf r else True) ->
  (preintegrate self gyro accel initial_rotation).2 = (zeros3, zeros3, identity).
Proof.
move=> Hsz Hwf; rewrite /preintegrate /=.
have Hexit : ~~ ((1 < size (sorted_by_time gyro))%N
                 && (1 < size (sorted_by_time accel))%N).
  rewrite !size_sorted_by_time negb_and -!leqNgt.
  by case: Hsz; rewrite ltnS => ->; rewrite ?orbT.
rewrite (integrate_loop_exit _ _ _ Hexit) /=.
by case: initial_rotation Hwf => [r wr|_]; rewrite mul_inv_l //; exact: wf_identity.
Qed.

(** One gyro sample and one accelerometer sample, no starting rotation. *)
Lemma C5_insufficient_data_zero_delta_witness :
  (preintegrate (init None None None)
     [:: (0, Vec3 0.01 0 0)] [:: (0, Vec3 0 0 9.81)] None).2
  = (zeros3, zeros3, identity).
Proof.
apply: C5_insufficient_data_zero_delta; last by [].
by left.
Defined.

(** C8.  Step order and relative output.  With an explicit starting
    rotation [r], [preintegrate] returns the accumulators reached by
    running [integrate_step] over the schedule of the loop from the state
    (rotation [r], zero velocity, zero position), and the rotation it
    returns is [r.inv()] composed with the final running rotation, [r]
    itself being the caller's value throughout.  In every step the velocity
    gains [accel_world * dt] first, and the position then gains the updated
    velocity times [dt] plus [0.5 * accel_world * dt * dt]; in terms of the
    velocity before the step that is [v * dt + 1.5 * accel_world * dt^2]. *)
Theorem C8_step_order_and_relative_rotation
    (self : IMUProcessor.t) (gyro accel : seq sample) (r : Rotation) :
  let self0 := reset_integration self in
  let gyro_sorted := sorted_by_time gyro in
  let accel_sorted := sorted_by_time accel in
  let steps :=
    integration_steps gyro_sorted accel_sorted
      (size gyro_sorted + size accel_sorted)%N 0%N 0%N in
  let final := run_steps self0 (LoopState r zeros3 zeros3 0) steps in
  (preintegrate self gyro accel (Some r)).2
    = (acc_position final, acc_velocity final, mul (inv r) (current_rotation final))
  /\ forall (st : loop_state) (gyro_reading accel_reading : vec3) (dt : R),
       let st' := integrate_step self0 gyro_reading accel_reading dt st in
       let a := accel_world self0 (current_rotation st') accel_reading in
       [/\ current_rotation st' =
             advance_rotation self0 (current_rotation st) gyro_reading dt,
           acc_velocity st' = add3 (acc_velocity st) (scale3 a dt),
           acc_position st' =
             add3 (acc_position st)
                  (add3 (scale3 (acc_velocity st') dt)
                        (scale3 (lscale3 0.5 a) (dt * dt)))
         & acc_position st' =
             add3 (acc_position st)
                  (add3 (scale3 (acc_velocity st) dt)
                        (scale3 (lscale3 1.5 a) (dt * dt)))].
Proof.
split; first by rewrite /preintegrate /= integrate_loop_schedule.
move=> st g a dt; rewrite /integrate_step; cbv zeta.
rewrite [acc_velocity (LoopState _ _ _ _)]/= [acc_position (LoopState _ _ _ _)]/=.
rewrite [current_rotation (LoopState _ _ _ _)]/=.
move: (accel_world _ _ _) (acc_position st) (acc_velocity st).
move=> [ax ay az] [px py pz] [vx vy vz].
by split=> //; apply: vec3_eq => /=; nra.
Qed.

End PreintegrateClaims.

(** ** The stationary burst

    [simulate_imu_data(1.0, 200.0, 'stationary')] without its noise terms:
    timestamps [np.arange(0, 1.0, 0.005)], that is [k * 0.005] for
    [k < 200], gyro reading zero, accelerometer reading [[0, 0, 9.81]]. *)

Section StationaryBurst.

Import Scipy IMUProcessor.

Local Open Scope R_scope.

Local Arguments INR : simpl never.

Definition burst (n : nat) (reading : vec3) : seq sample :=
  [seq (INR k * 0.005, reading) | k <- iota 0 n].

Definition stationary_gyro : seq sample := burst 200 zeros3.
Definition stationary_accel : seq sample := burst 200 (Vec3 0 0 9.81).

Lemma size_burst n r : size (burst n r) = n.
Proof. by rewrite /burst size_map size_iota. Qed.

Lemma nth_burst n r k : (k < n)%N -> nth sample0 (burst n r) k = (INR k * 0.005, r).
Proof.
move=> Hk; rewrite /burst (nth_map 0%N) ?size_iota //.
by rewrite nth_iota // add0n.
Qed.

Lemma by_time_trans : transitive by_time.
Proof.
move=> y x z /RlebP Hxy /RlebP Hyz; apply/RlebP.
exact: Rle_trans Hxy Hyz.
Qed.

(** The burst is in time order already: sorting leaves it as it is. *)
Lemma sorted_by_time_burst n r : sorted_by_time (burst n r) = burst n r.
Proof.
apply: (sorted_sort by_time_trans).
rewrite /burst sorted_map; apply: sub_sorted (iota_sorted 0 n) => i j /leP Hij.
by apply/RlebP => /=; have := le_INR _ _ Hij; lra.
Qed.

(** The engine [preintegrate] works on: default biases and gravity. *)
Definition self0 : IMUProcessor.t := reset_integration (init None None None).

(** The accumulators after [m] steps of the burst. *)
Definition burst_state (m : nat) : loop_state :=
  LoopState identity
    (Vec3 0 0 (19.62 * 0.005 * INR m))
    (Vec3 0 0 (19.62 * (0.005 * 0.005) * (INR m * (INR m + 2) / 2)))
    (0.005 * INR m).

(** One step of the burst: the rotation stays the identity, and the
    world-frame acceleration is [[0, 0, 9.81] - [0, 0, -9.81]]. *)
Lemma burst_step (m : nat) (dt : R) :
  dt = 0.005 ->
  integrate_step self0 zeros3 (Vec3 0 0 9.81) dt (burst_state m) = burst_state m.+1.
Proof.
move=> ->; rewrite /integrate_step /burst_state.
rewrite [current_rotation (LoopState _ _ _ _)]/=.
have -> : advance_rotation self0 identity zeros3 0.005 = identity.
  rewrite /advance_rotation.
  have -> : scale3 (sub3 zeros3 (gyro_bias self0)) 0.005 = zeros3.
    by apply: vec3_eq => /=; lra.
  by rewrite from_rotvec_zeros mul_identity_r //; exact: wf_identity.
have -> : accel_world self0 identity (Vec3 0 0 9.81) = Vec3 0 0 19.62.
  by rewrite /accel_world apply_identity; apply: vec3_eq => /=; lra.
rewrite S_INR; congr LoopState; last by rewrite /=; lra.
  by apply: vec3_eq => /=; lra.
by apply: vec3_eq => /=; nra.
Qed.

Lemma Rleb_false x y : (y < x) -> Rleb x y = false.
Proof. by move=> H; apply/RlebP; lra. Qed.

Lemma Rleb_true x y : (x <= y) -> Rleb x y = true.
Proof. by move=> H; apply/RlebP. Qed.

(** An iteration from aligned indices [(k, k)]: a step of 0.005 s, then
    the gyro index advances. *)
Lemma burst_iter_aligned (n k fuel : nat) (st : loop_state) (r1 r2 : vec3) :
  (k.+1 < n)%N ->
  integrate_loop self0 (burst n r1) (burst n r2) fuel.+1 k k st
  = integrate_loop self0 (burst n r1) (burst n r2) fuel k.+1 k
      (integrate_step self0 r1 r2 0.005 st).
Proof.
move=> Hk; rewrite integrate_loop_iter ?size_burst //.
rewrite !nth_burst // ?(ltnW Hk) //= S_INR.
rewrite !Rmin_left; try lra.
rewrite [Rleb (_ - _) 0]Rleb_false; try lra.
rewrite Rleb_true; try lra.
by congr (integrate_loop _ _ _ _ _ _ (integrate_step _ _ _ _ _)); lra.
Qed.

(** An iteration from staggered indices [(k + 1, k)]: the same interval
    is integrated once more, then the accelerometer index advances. *)
Lemma burst_iter_staggered (n k fuel : nat) (st : loop_state) (r1 r2 : vec3) :
  (k.+2 < n)%N ->
  integrate_loop self0 (burst n r1) (burst n r2) fuel.+1 k.+1 k st
  = integrate_loop self0 (burst n r1) (burst n r2) fuel k.+1 k.+1
      (integrate_step self0 r1 r2 0.005 st).
Proof.
move=> Hk; have Hk1 := ltnW Hk; have Hk0 := ltnW Hk1.
rewrite integrate_loop_iter ?size_burst //.
rewrite !nth_burst //= !S_INR.
rewrite Rmin_right; try lra.
rewrite Rmin_right; try lra.
rewrite [Rleb (_ - _) 0]Rleb_false; try lra.
rewrite Rleb_false; try lra.
by congr (integrate_loop _ _ _ _ _ _ (integrate_step _ _ _ _ _)); lra.
Qed.

(** From aligned indices [(k, k)] with [e + 2] samples left in each
    stream the loop integrates [2 * e + 1] steps: every interval but the
    last is integrated twice, once from [(k, k)] and once more from
    [(k + 1, k)]. *)
Lemma burst_loop (e k m fuel : nat) :
  ((e.*2).+1 <= fuel)%N ->
  integrate_loop self0 (burst (k + e).+2 zeros3) (burst (k + e).+2 (Vec3 0 0 9.81))
    fuel k k (burst_state m)
  = burst_state (m + (e.*2).+1).
Proof.
elim: e k m fuel => [|e IH] k m [|fuel] // Hfuel.
  rewrite addn0 burst_iter_aligned // burst_step //.
  by rewrite integrate_loop_exit ?size_burst ?ltnn // addn1.
case: fuel Hfuel => [|fuel] // Hfuel.
have H1 : (k.+1 < (k + e.+1).+2)%N by rewrite !ltnS leq_addr.
have H2 : (k.+2 < (k + e.+1).+2)%N by rewrite !ltnS addnS ltnS leq_addr.
have H3 : ((e.*2).+1 <= fuel)%N by move: Hfuel; rewrite doubleS !ltnS.
rewrite (burst_iter_aligned _ _ _ _ H1) burst_step //.
rewrite (burst_iter_staggered _ _ _ _ H2) burst_step //.
by rewrite -addSnnS (IH _ _ _ H3) doubleS !addSn !addnS.
Qed.

(** C2.  Stationary burst.  On one second of 200 Hz stationary samples,
    gyro exactly zero and accelerometer exactly [[0, 0, 9.81]], with zero
    biases, the default gravity [[0, 0, -9.81]] and no starting rotation,
    [preintegrate] does not return a velocity and position change near
    zero.  Each step takes the rotated specific force and subtracts the
    world gravity vector, [[0, 0, 9.81] - [0, 0, -9.81] = [0, 0, 19.62]],
    and the 199 intervals are integrated in 397 steps of 0.005 s; the call
    returns a velocity change of 38.9457 m/s and a position change of
    38.84833575 m along z (the rotation is the identity). *)
Theorem C2_stationary_burst_result :
  (preintegrate (init None None None) stationary_gyro stationary_accel None).2
  = (Vec3 0 0 38.84833575, Vec3 0 0 38.9457, identity).
Proof.
rewrite /preintegrate /stationary_gyro /stationary_accel.
rewrite !sorted_by_time_burst !size_burst; cbv zeta.
rewrite -/self0.
have -> : LoopState identity (delta_velocity self0) (delta_position self0)
            (dt_total self0) = burst_state 0.
  have E0 : INR 0 = 0 by [].
  by rewrite /burst_state E0 /=; congr LoopState; [apply: vec3_eq | apply: vec3_eq | ];
     rewrite /=; lra.
rewrite (@burst_loop 198 0 0) // add0n.
have E : INR 397 = 397 by rewrite INR_IZR_INZ.
rewrite /burst_state /= E (mul_inv_l wf_identity).
by congr (_, _, _); apply: vec3_eq => /=; lra.
Qed.

End StationaryBurst.

(** ** Vectors, slices and the measurement matrix *)

Section StateLayout.

Import GRing.Theory.
Import Scipy EKFFusionEngine.

Local Open Scope ring_scope.

(** [x[k]] at an index read off an ordinal. *)
Lemma item_ord (n : nat) (x : 'cV[R]_n.+1) (i : 'I_n.+1) : item x i = x i 0.
Proof. by rewrite /item inord_val. Qed.

Lemma item_val (n : nat) (x : 'cV[R]_n.+1) (k : nat) (i : 'I_n.+1) :
  k = i :> nat -> item x k = x i 0.
Proof. by move=> ->; exact: item_ord. Qed.

Lemma item_set_slice3 (n : nat) (x : 'cV[R]_n.+1) (lo : nat) (v : vec3) (k : nat) :
  (k < n.+1)%N ->
  item (set_slice3 x lo v) k
  = if (lo <= k < lo + 3)%N then get3 v (k - lo) else item x k.
Proof. by move=> Hk; rewrite /item mxE inordK. Qed.

Lemma item_set_slice4 (n : nat) (x : 'cV[R]_n.+1) (lo : nat) (v : vec4) (k : nat) :
  (k < n.+1)%N ->
  item (set_slice4 x lo v) k
  = if (lo <= k < lo + 4)%N then get4 v (k - lo) else item x k.
Proof. by move=> Hk; rewrite /item mxE inordK. Qed.

(** The state index a measurement component observes: position
    components 0..2 and quaternion components 6..9. *)
Definition obs_index (i : nat) : nat := if (i < 3)%N then i else (i + 3)%N.

Lemma obs_index_lt (i : 'I_7) : (obs_index i < 16)%N.
Proof. by case: i; do 7?[case=> //]. Qed.

Definition obs (i : 'I_7) : 'I_16 := Ordinal (obs_index_lt i).

Lemma obs_lt10 (i : 'I_7) : (obs i < 10)%N.
Proof. by case: i; do 7?[case=> //]. Qed.

Lemma obs_inj : injective obs.
Proof.
move=> i j /(congr1 val) /= H; apply: val_inj; move: H.
by case: i; do 7?[case=> //]; move=> ?; case: j; do 7?[case=> //].
Qed.

(** [H] has a single 1 in each row, in the column the row observes. *)
Lemma measurement_matrixE (i : 'I_7) (j : 'I_16) :
  measurement_matrix i j = (j == obs i)%:R.
Proof.
rewrite mxE -val_eqE /=.
by case: i; do 7?[case=> //]; move=> ?; case: j; do 16?[case=> //].
Qed.

(** Products with [H] and its transpose select rows and columns. *)
Lemma mulmx_measurement (n : nat) (A : 'M[R]_(16, n)) (i : 'I_7) (j : 'I_n) :
  (measurement_matrix *m A) i j = A (obs i) j.
Proof.
rewrite mxE (bigD1 (obs i)) //= measurement_matrixE eqxx mul1r big1 ?addr0 //.
by move=> k /negbTE Hk; rewrite measurement_matrixE Hk mul0r.
Qed.

Lemma mulmx_measurement_tr (n : nat) (A : 'M[R]_(n, 16)) (i : 'I_n) (j : 'I_7) :
  (A *m measurement_matrix^T) i j = A i (obs j).
Proof.
rewrite mxE (bigD1 (obs j)) //= mxE measurement_matrixE eqxx mulr1 big1 ?addr0 //.
by move=> k /negbTE Hk; rewrite mxE measurement_matrixE Hk mulr0.
Qed.

(** The entries of [S]. *)
Lemma innovation_covarianceE (self : EKFFusionEngine.t) (i j : 'I_7) :
  innovation_covariance self i j
  = covariance self (obs i) (obs j) + Rn self i j.
Proof.
by rewrite /innovation_covariance mxE mulmx_measurement_tr mulmx_measurement.
Qed.

End StateLayout.

(** ** The two outcomes of [update] *)

Section UpdateOutcome.

Import GRing.Theory.
Import Scipy EKFFusionEngine.

Local Open Scope ring_scope.

Variable self : EKFFusionEngine.t.
Variables (measured_position : vec3) (measured_rotation : Rotation).

Let S := innovation_covariance self.
Let K := kalman_gain self (invmx S).
Let y := residual self measured_position measured_rotation.

(** The engine a returning [update] leaves. *)
Definition updated : EKFFusionEngine.t :=
  Make (renormalize (corrected_state self K y))
       ((1%:M - K *m measurement_matrix) *m covariance self)
       (Qn self) (Rn self).

Lemma update_returns :
  S \in unitmx ->
  update self measured_position measured_rotation = Returns updated.
Proof. by rewrite /update /linalg_inv -/S => ->. Qed.

Lemma update_raises :
  S \notin unitmx ->
  update self measured_position measured_rotation = Raises LinAlgError self.
Proof. by rewrite /update /linalg_inv -/S => /negbTE ->. Qed.

(** [update] raises nothing but [LinAlgError], and only on a singular
    [S]. *)
Lemma update_cases :
  (S \in unitmx
   /\ update self measured_position measured_rotation = Returns updated)
  \/ (S \notin unitmx
      /\ update self measured_position measured_rotation
         = Raises LinAlgError self).
Proof.
case HS: (S \in unitmx); [left | right]; split=> //.
  exact: update_returns.
by apply: update_raises; rewrite HS.
Qed.

End UpdateOutcome.

(** ** Singular innovation covariance *)

Section SingularUpdate.

Import GRing.Theory.
Import Scipy EKFFusionEngine Library.

Local Open Scope ring_scope.

(** Over the exact inverse [update_with] is [update]. *)
Lemma update_with_linalg_inv (self : EKFFusionEngine.t) (z : vec3) (r : Rotation) :
  update_with (@linalg_inv 7) self z r = update self z r.
Proof. by []. Qed.

(** C9 (amended).  [update] is atomic on error, and raises exactly when
    the inversion does.  Whatever routine inverts [S = H P H^T + R]: when
    it raises, [update] raises the same exception and the engine it
    leaves (state vector, covariance, noise matrices) is the engine it
    was given; [update] raises in no other way; and when the routine
    returns a matrix, [update] returns.  Whether a singular [S] is
    surfaced is therefore the routine's doing alone. *)
Theorem C9_update_raises_exactly_when_inversion_raises
    (np_linalg_inv : 'M[R]_7 -> result 'M[R]_7)
    (self : EKFFusionEngine.t) (measured_position : vec3)
    (measured_rotation : Rotation) :
  let S := innovation_covariance self in
  let call := update_with np_linalg_inv self measured_position
                measured_rotation in
  [/\ forall e, np_linalg_inv S = Raise e -> call = Raises e self,
      forall e self', call = Raises e self' ->
        np_linalg_inv S = Raise e /\ self' = self
    & forall S_inv, np_linalg_inv S = Ok S_inv ->
        exists self', call = Returns self'].
Proof.
move=> S call; rewrite /call /update_with -/S.
split.
- by move=> e ->.
- by move=> e self'; case: (np_linalg_inv S) => [S_inv|e'] // [-> ->].
- by move=> S_inv ->; eexists.
Qed.

(** An engine with zero covariance and zero measurement noise: [S = 0],
    on which the first pivot is exactly zero and numpy raises. *)
Definition degenerate_engine : EKFFusionEngine.t :=
  init None (Some 0) None (Some 0).

Lemma degenerate_engine_singular :
  innovation_covariance degenerate_engine \notin unitmx.
Proof.
have -> : innovation_covariance degenerate_engine = 0.
  by rewrite /innovation_covariance /= mulmx0 mul0mx addr0.
by rewrite unitmxE det0 unitr0.
Qed.

Lemma C9_update_raises_exactly_when_inversion_raises_witness :
  update_with (@linalg_inv 7) degenerate_engine (Vec3 1 0 0) identity
  = Raises LinAlgError degenerate_engine.
Proof.
have [H _ _] :=
  C9_update_raises_exactly_when_inversion_raises (@linalg_inv 7)
    degenerate_engine (Vec3 1 0 0) identity.
by apply: H; rewrite /linalg_inv (negbTE degenerate_engine_singular).
Defined.

(** The counterexample to the claim as the specification has it: a
    covariance whose position block is [[1, 2, 3], [4, 5, 6], [7, 8, 9]]
    (the identity elsewhere) and a zero measurement noise, so that [S]
    holds that block and the identity on the quaternion rows.  [S] is
    singular, its rows 0, 1, 2 combine to zero with the weights
    [1, -2, 1]; yet elimination with partial pivoting on floats leaves a
    last pivot next to 1e-16, not zero. *)
Definition block9 (i j : nat) : R :=
  match i, j with
  | 0, 0 => 1 | 0, 1 => 2 | 0, 2 => 3
  | 1, 0 => 4 | 1, 1 => 5 | 1, 2 => 6
  | 2, 0 => 7 | 2, 1 => 8 | 2, 2 => 9
  | _, _ => 0
  end%Re.

Definition covariance9 : 'M[R]_16 :=
  \matrix_(i < 16, j < 16)
    if (i < 3)%N && (j < 3)%N then block9 i j else (i == j)%:R.

Definition engine9 : EKFFusionEngine.t :=
  init None (Some covariance9) None (Some 0).

Lemma engine9_singular : innovation_covariance engine9 \notin unitmx.
Proof.
pose v : 'rV[R]_7 :=
  \row_(i < 7) if (i == 0 :> nat)%N then 1%Re
               else if (i == 1 :> nat)%N then (- 2)%Re
               else if (i == 2 :> nat)%N then 1%Re else 0%Re.
have Hv : v *m innovation_covariance engine9 = 0.
  apply/rowP => j; rewrite [RHS]mxE mxE !big_ord_recl big_ord0.
  rewrite !innovation_covarianceE [Rn _]/= [covariance _]/= !mxE /=.
  by case: j; do 7?[case=> //=; first by move=> _; toR; lra].
apply/negP => HS.
have : v = 0 by rewrite -(mulmxK HS v) Hv mul0mx.
by move=> /rowP /(_ 0); rewrite !mxE /=; toR; lra.
Qed.

(** C9, counterexample.  [S] of [engine9] is singular, and on every
    inversion routine that returns a matrix for it, as numpy's does,
    [update] returns: the singular [S] is not surfaced. *)
Lemma C9_counterexample :
  innovation_covariance engine9 \notin unitmx
  /\ forall (np_linalg_inv : 'M[R]_7 -> result 'M[R]_7) (S_inv : 'M[R]_7),
       np_linalg_inv (innovation_covariance engine9) = Ok S_inv ->
       exists self' : EKFFusionEngine.t,
         update_with np_linalg_inv engine9 (Vec3 1 0 0) identity
         = Returns self'
         /\ covariance self'
            = (1%:M - kalman_gain engine9 S_inv *m measurement_matrix)
              *m covariance engine9.
Proof.
split; first exact: engine9_singular.
by move=> np_linalg_inv S_inv E; rewrite /update_with E; eexists.
Qed.

End SingularUpdate.

(** ** Sums of reals and quadratic forms *)

Section RealSums.

Import GRing.Theory.

Local Open Scope ring_scope.

Lemma Rsum_ge0 (I : Type) (r : seq I) (P : pred I) (F : I -> R) :
  (forall i, P i -> (0 <= F i)%Re) -> (0 <= \sum_(i <- r | P i) F i)%Re.
Proof.
move=> HF; elim/big_rec: _ => [|i x Pi Hx]; first exact: Rle_refl.
by toR; have := HF i Pi; lra.
Qed.

Lemma Rsum_le (I : Type) (r : seq I) (P : pred I) (F G : I -> R) :
  (forall i, P i -> (F i <= G i)%Re) ->
  (\sum_(i <- r | P i) F i <= \sum_(i <- r | P i) G i)%Re.
Proof.
move=> HFG; elim/big_rec2: _ => [|i x y Pi Hxy]; first exact: Rle_refl.
by toR; have := HFG i Pi; lra.
Qed.

Lemma Rsum_eq0 (n : nat) (F : 'I_n -> R) :
  (forall i, (0 <= F i)%Re) -> \sum_i F i = 0 -> forall i, F i = 0.
Proof.
move=> HF Hsum i; move: Hsum; rewrite (bigD1 i) //=.
set s := (X in _ + X).
have Hs : (0 <= s)%Re by apply: Rsum_ge0.
by move: Hs (HF i); toR; lra.
Qed.

(** Symmetric, positive semidefinite, and diagonal with positive
    entries. *)
Definition symmetric (n : nat) (A : 'M[R]_n) : Prop := A^T = A.

(** The quadratic form [v A v^T]. *)
Definition qform (n : nat) (A : 'M[R]_n) (v : 'rV[R]_n) : R :=
  (v *m A *m v^T) 0 0.

Definition positive_semidefinite (n : nat) (A : 'M[R]_n) : Prop :=
  forall v : 'rV[R]_n, (0 <= qform A v)%Re.

Definition positive_diagonal (n : nat) (A : 'M[R]_n) : Prop :=
  (forall i j, i != j -> A i j = 0) /\ (forall i, (0 < A i i)%Re).

Lemma positive_diagonal_sym (n : nat) (A : 'M[R]_n) :
  positive_diagonal A -> symmetric A.
Proof.
move=> [Hoff _]; apply/matrixP => i j; rewrite mxE.
case Hij: (i == j); first by rewrite (eqP Hij).
by rewrite !Hoff // ?Hij // eq_sym Hij.
Qed.

(** The quadratic form of a diagonal matrix. *)
Lemma quadratic_diagonal (n : nat) (A : 'M[R]_n) (v : 'rV[R]_n) :
  (forall i j, i != j -> A i j = 0) ->
  qform A v = \sum_j v 0 j * v 0 j * A j j.
Proof.
move=> Hoff; rewrite /qform mxE; apply: eq_bigr => j _.
rewrite !mxE (bigD1 j) //= big1 ?addr0; last by rewrite mulrAC.
by move=> i Hij; rewrite Hoff // mulr0.
Qed.

Lemma positive_diagonal_definite (n : nat) (A : 'M[R]_n) (v : 'rV[R]_n) :
  positive_diagonal A ->
  (0 <= qform A v)%Re /\ (qform A v = 0 -> v = 0).
Proof.
move=> [Hoff Hpos]; rewrite quadratic_diagonal //.
have Hterm j : (0 <= (v 0 j * v 0 j * A j j)%R)%Re.
  by toR; have := Hpos j; nra.
split; first exact: Rsum_ge0.
move=> /(Rsum_eq0 Hterm) H0; apply/rowP => j; rewrite mxE.
move: (H0 j) (Hpos j); toR => /Rmult_integral[/Rmult_integral[]|] //.
by move=> -> /Rlt_irrefl.
Qed.

Lemma mulmx_row_col (m n p : nat) (A : 'M[R]_(m, n)) (B : 'M[R]_(n, p)) i j :
  (A *m B) i j = (row i A *m col j B) 0 0.
Proof. by rewrite !mxE; apply: eq_bigr => k _; rewrite !mxE. Qed.

End RealSums.

(** ** Covariance shrinkage *)

Section Shrinkage.

Import GRing.Theory.
Import Scipy EKFFusionEngine.

Local Open Scope ring_scope.

Variable self : EKFFusionEngine.t.

Hypothesis P_sym : symmetric (covariance self).
Hypothesis P_psd : positive_semidefinite (covariance self).
Hypothesis R_diag : positive_diagonal (Rn self).

Let P := covariance self.
Let H := measurement_matrix.
Let S := innovation_covariance self.

Lemma innovation_covariance_sym : symmetric S.
Proof.
rewrite /symmetric /S /innovation_covariance linearD /= !trmx_mul trmxK.
by rewrite P_sym (positive_diagonal_sym R_diag) mulmxA.
Qed.

(** The quadratic form of [S] splits into that of [P] and that of [R]. *)
Lemma qform_innovation_covariance (v : 'rV[R]_7) :
  qform S v = qform P (v *m H) + qform (Rn self) v.
Proof.
rewrite /qform /S /innovation_covariance -/P -/H.
by rewrite mulmxDr mulmxDl mxE trmx_mul !mulmxA.
Qed.

Lemma innovation_covariance_psd (v : 'rV[R]_7) : (0 <= qform S v)%Re.
Proof.
rewrite qform_innovation_covariance; toR.
have := P_psd (v *m H); have [] := positive_diagonal_definite v R_diag.
by rewrite -/P; lra.
Qed.

Lemma innovation_covariance_definite (v : 'rV[R]_7) : qform S v = 0 -> v = 0.
Proof.
rewrite qform_innovation_covariance; toR => HS.
have HP := P_psd (v *m H); have [HR HR0] := positive_diagonal_definite v R_diag.
by apply: HR0; move: HP HR HS; rewrite -/P; toR; lra.
Qed.

(** A positive definite [S] is invertible: [np.linalg.inv] returns. *)
Lemma innovation_covariance_unit : S \in unitmx.
Proof.
rewrite -row_free_unit -kermx_eq0; apply/eqP/row_matrixP => i.
rewrite row0; apply: innovation_covariance_definite.
by rewrite /qform -row_mul mulmx_ker row0 mul0mx mxE.
Qed.

(** Each diagonal entry of [K H P] is a value of the quadratic form of
    [S], hence not negative. *)
Lemma gain_diag_ge0 (i : 'I_16) :
  (0 <= (kalman_gain self (invmx S) *m H *m P) i i)%Re.
Proof.
pose w : 'rV[R]_7 := row i P *m H^T.
pose u : 'rV[R]_7 := w *m invmx S.
have -> : (kalman_gain self (invmx S) *m H *m P) i i = qform S u.
  rewrite -mulmxA mulmx_row_col /kalman_gain -/P -/H !row_mul -/w -/u.
  have -> : col i (H *m P) = w^T.
    by apply: trmx_inj; rewrite tr_col trmx_mul P_sym row_mul trmxK.
  rewrite /qform -mulmxA; congr ((u *m _) 0 0).
  rewrite -[X in X *m _]innovation_covariance_sym -trmx_mul.
  by rewrite /u (mulmxKV innovation_covariance_unit).
exact: innovation_covariance_psd.
Qed.

End Shrinkage.

(** ** The default matrices, entry by entry *)

Section Defaults.

Import GRing.Theory.
Import Scipy EKFFusionEngine.

Local Open Scope ring_scope.

Lemma default_covarianceE (i j : 'I_16) :
  default_covariance i j = if i == j then (0.1)%Re else 0.
Proof. by rewrite /default_covariance !mxE; case: (i == j); rewrite ?mulr1 ?mulr0. Qed.

Lemma scale_block_offdiag (n : nat) (A : 'M[R]_n) (lo hi : nat) (c : R) (i j : 'I_n) :
  A i j = 0 -> scale_block A lo hi c i j = 0.
Proof. by move=> H0; rewrite mxE H0 mul0r; case: ifP. Qed.

Lemma default_Q_offdiag (i j : 'I_16) : i != j -> default_Q i j = 0.
Proof.
move=> /negbTE Hij; rewrite /default_Q; do 5![apply: scale_block_offdiag].
by rewrite mxE Hij.
Qed.

Lemma default_R_offdiag (i j : 'I_7) : i != j -> default_R i j = 0.
Proof.
move=> /negbTE Hij; rewrite /default_R; do 2![apply: scale_block_offdiag].
by rewrite mxE Hij.
Qed.

Lemma default_R_diag (i : 'I_7) :
  default_R i i = if (i < 3)%N then (0.01)%Re else (0.001)%Re.
Proof.
rewrite /default_R /scale_block !mxE eqxx.
by case: i; do 7?[case=> //=; first by move=> _; rewrite ?mul1r].
Qed.

Lemma default_R_positive_diagonal : positive_diagonal default_R.
Proof.
split; first exact: default_R_offdiag.
by move=> i; rewrite default_R_diag; case: ifP => _; lra.
Qed.

Lemma default_covariance_sym : symmetric default_covariance.
Proof.
apply/matrixP => i j; rewrite mxE !default_covarianceE eq_sym.
by [].
Qed.

Lemma default_covariance_psd : positive_semidefinite default_covariance.
Proof.
move=> v; rewrite quadratic_diagonal.
  by move=> i j /negbTE Hij; rewrite default_covarianceE Hij.
apply: Rsum_ge0 => j _; rewrite default_covarianceE eqxx; toR.
by nra.
Qed.

End Defaults.

Section ShrinkageClaim.

Import GRing.Theory.
Import Scipy EKFFusionEngine.

Local Open Scope ring_scope.

(** C4.  Covariance shrinkage.  For a symmetric positive semidefinite
    prior covariance [P] and a diagonal measurement noise [R] with
    positive entries, [update] returns, and the trace of the position
    block (rows and columns 0..2) of the posterior covariance
    [(I - K H) P] is at most that of [P]. *)
Theorem C4_covariance_shrinkage
    (self : EKFFusionEngine.t) (measured_position : vec3)
    (measured_rotation : Rotation) :
  symmetric (covariance self) ->
  positive_semidefinite (covariance self) ->
  positive_diagonal (Rn self) ->
  exists self' : EKFFusionEngine.t,
    update self measured_position measured_rotation = Returns self'
    /\ (position_cov_trace (covariance self')
        <= position_cov_trace (covariance self))%Re.
Proof.
move=> Psym Ppsd Rdiag.
have Sunit := innovation_covariance_unit Ppsd Rdiag.
exists (updated self measured_position measured_rotation); split.
  exact: update_returns.
apply: Rsum_le => i _; rewrite /updated /= mulmxBl mul1mx 2!mxE.
by have := gain_diag_ge0 Psym Ppsd Rdiag i; toR; entries; lra.
Qed.

(** The default engine meets the three conditions. *)
Lemma C4_covariance_shrinkage_witness :
  exists self' : EKFFusionEngine.t,
    update (init None None None None) (Vec3 1 0 0) identity = Returns self'
    /\ (position_cov_trace (covariance self')
        <= position_cov_trace (covariance (init None None None None)))%Re.
Proof.
apply: C4_covariance_shrinkage.
- exact: default_covariance_sym.
- exact: default_covariance_psd.
- exact: default_R_positive_diagonal.
Defined.

End ShrinkageClaim.

(** ** [update] on diagonal covariance and noise

    With [P] and [R] diagonal, [S] is diagonal, its inverse is the
    diagonal of the inverses, and the gain moves each observed state
    component by the fraction [p / (p + r)] of its residual. *)

Section DiagonalUpdate.

Import GRing.Theory.
Import Scipy EKFFusionEngine.

Local Open Scope ring_scope.

Variable self : EKFFusionEngine.t.
Variables (p r : nat -> R).

Hypothesis P_diag :
  forall i j : 'I_16, covariance self i j = if i == j then p i else 0.
Hypothesis R_diag :
  forall i j : 'I_7, Rn self i j = if i == j then r i else 0.
Hypothesis S_nonzero : forall k : nat, (k < 7)%N -> p (obs_index k) + r k <> 0.

Let S := innovation_covariance self.

Lemma diagonal_S (i j : 'I_7) :
  S i j = if i == j then p (obs_index i) + r i else 0.
Proof.
rewrite /S innovation_covarianceE P_diag R_diag (inj_eq obs_inj).
by case: (i == j); rewrite ?addr0.
Qed.

Definition diagonal_S_inv : 'M[R]_7 :=
  \matrix_(i < 7, j < 7) if i == j then (p (obs_index i) + r i)^-1 else 0.

Lemma diagonal_S_mul : S *m diagonal_S_inv = 1%:M.
Proof.
apply/matrixP => i j; rewrite mxE (bigD1 i) //= big1 ?addr0.
  by move=> k /negbTE Hk; rewrite diagonal_S eq_sym Hk mul0r.
rewrite diagonal_S eqxx !mxE; case: (i == j); last by rewrite mulr0.
by rewrite divff //; apply/eqP; exact: S_nonzero.
Qed.

Lemma diagonal_S_unit : S \in unitmx.
Proof. by have [] := mulmx1_unit diagonal_S_mul. Qed.

Lemma diagonal_invmx : invmx S = diagonal_S_inv.
Proof. by rewrite -[RHS](mulKmx diagonal_S_unit) diagonal_S_mul mulmx1. Qed.

Let K := kalman_gain self (invmx S).

Lemma diagonal_gain (j : 'I_16) (i : 'I_7) :
  K j i = if j == obs i then p j / (p j + r i) else 0.
Proof.
rewrite /K /kalman_gain diagonal_invmx mxE (bigD1 i) //= big1 ?addr0.
  by move=> k /negbTE Hk; rewrite [X in _ * X]mxE Hk mulr0.
rewrite mulmx_measurement_tr P_diag mxE eqxx.
by case: eqP => [->|_]; rewrite ?mul0r.
Qed.

(** The corrected state at an observed component. *)
Lemma diagonal_corrected (y : 'cV[R]_7) (k : nat) :
  (k < 7)%N ->
  item (corrected_state self K y) (obs_index k)
  = item (state self) (obs_index k)
    + p (obs_index k) / (p (obs_index k) + r k) * item y k.
Proof.
move=> Hk; pose i : 'I_7 := Ordinal Hk.
rewrite (@item_val _ _ _ (obs i)) // (@item_val _ _ _ (obs i)) //.
rewrite (@item_val _ _ _ i) // /corrected_state !mxE.
rewrite (bigD1 i) //= big1 ?addr0.
  by move=> l Hl; rewrite diagonal_gain (inj_eq obs_inj) eq_sym (negbTE Hl) mul0r.
by rewrite diagonal_gain eqxx.
Qed.

End DiagonalUpdate.

(** ** The residual and the renormalised state, component by component *)

Section UpdateComponents.

Import GRing.Theory.
Import Scipy EKFFusionEngine.

Local Open Scope ring_scope.

(** A quaternion in the filter's [w, x, y, z] order from scipy's
    [x, y, z, w], and back. *)
Definition wxyz (q : vec4) : vec4 := Vec4 (a3 q) (a0 q) (a1 q) (a2 q).
Definition xyzw (q : vec4) : vec4 := Vec4 (a1 q) (a2 q) (a3 q) (a0 q).

Lemma xyzwK : cancel xyzw wxyz. Proof. by case. Qed.
Lemma wxyzK : cancel wxyz xyzw. Proof. by case. Qed.

Lemma dot4_wxyz (p q : vec4) : dot4 (wxyz p) (wxyz q) = dot4 p q.
Proof. by rewrite /dot4 /=; ring. Qed.

Lemma dot4_xyzw (p q : vec4) : dot4 (xyzw p) (xyzw q) = dot4 p q.
Proof. by rewrite /dot4 /=; ring. Qed.

Lemma norm4_wxyz (q : vec4) : norm4 (wxyz q) = norm4 q.
Proof. by rewrite /norm4 dot4_wxyz. Qed.

Lemma norm4_xyzw (q : vec4) : norm4 (xyzw q) = norm4 q.
Proof. by rewrite /norm4 dot4_xyzw. Qed.

Variable self : EKFFusionEngine.t.
Variables (measured_position : vec3) (measured_rotation : Rotation).

Let y := residual self measured_position measured_rotation.
Let measured_quat := wxyz (as_quat measured_rotation).
Let predicted_quat := slice4 (state self) 6.

(** Position rows of the residual: measured minus predicted. *)
Lemma item_residual_position (k : nat) :
  (k < 3)%N ->
  item y k = get3 measured_position k - item (state self) k.
Proof.
move=> Hk; have Hk7 : (k < 7)%N by exact: leq_trans Hk _.
have Hk3 : (3 <= k)%N = false by rewrite leqNgt Hk.
rewrite /y /residual /innovation /item.
case: ifP => _; rewrite !mxE ?inordK ?Hk ?Hk3 //;
  by case: k Hk {Hk7 Hk3} => [|[|[|]]].
Qed.

(** Quaternion rows of the residual: [z - h], or [z + h] when the dot
    product of the measured and the predicted quaternion is negative. *)
Lemma item_residual_quaternion (k : nat) :
  (k < 4)%N ->
  item y (k + 3)
  = if Rltb (dot4 measured_quat predicted_quat) 0
    then get4 measured_quat k + get4 predicted_quat k
    else get4 measured_quat k - get4 predicted_quat k.
Proof.
move=> Hk; have Hk7 : (k + 3 < 7)%N by rewrite (@ltn_add2r 3 k 4).
have Hk3 : (k + 3 < 3)%N = false by rewrite ltnNge leq_addl.
have Hk3' : (3 <= k + 3)%N by rewrite leq_addl.
rewrite /y /residual /innovation /item -/measured_quat -/predicted_quat.
case: ifP => _; rewrite !mxE ?inordK ?Hk3 ?Hk3' ?addnK //;
  by case: k Hk {Hk7 Hk3 Hk3'} => [|[|[|[|]]]].
Qed.

(** [renormalize] divides the quaternion block and leaves the rest. *)
Lemma item_renormalize (x : 'cV[R]_16) (k : nat) :
  (k < 16)%N ->
  item (renormalize x) k
  = if (6 <= k < 10)%N
    then get4 (div4 (slice4 x 6) (norm4 (slice4 x 6))) (k - 6)
    else item x k.
Proof. by move=> Hk; rewrite /renormalize item_set_slice4. Qed.

Lemma slice4_renormalize (x : 'cV[R]_16) :
  slice4 (renormalize x) 6 = div4 (slice4 x 6) (norm4 (slice4 x 6)).
Proof. by rewrite /slice4 !item_renormalize. Qed.

End UpdateComponents.

(** ** The default engine *)

Section DefaultEngine.

Import GRing.Theory.
Import Scipy EKFFusionEngine.

Local Open Scope ring_scope.

(** [EKFFusionEngine()] *)
Definition engine0 : EKFFusionEngine.t := init None None None None.

Definition p0 (k : nat) : R := (0.1)%Re.
Definition r0 (k : nat) : R := if (k < 3)%N then (0.01)%Re else (0.001)%Re.

Lemma engine0_P_diag (i j : 'I_16) :
  covariance engine0 i j = if i == j then p0 i else 0.
Proof. exact: default_covarianceE. Qed.

Lemma engine0_R_diag (i j : 'I_7) :
  Rn engine0 i j = if i == j then r0 i else 0.
Proof.
case: eqP => [->|/eqP Hij]; first exact: default_R_diag.
exact: default_R_offdiag.
Qed.

Lemma engine0_S_nonzero (k : nat) : (k < 7)%N -> p0 (obs_index k) + r0 k <> 0.
Proof. by move=> _; rewrite /p0 /r0; case: ifP => _; toR; lra. Qed.

Lemma item_default_state (k : nat) :
  (k < 16)%N -> item default_state k = if (k == 6)%N then 1 else 0.
Proof.
move=> Hk; rewrite /default_state item_set_slice4 // /item mxE.
by move: Hk; do 16?[case: k => [|k] //].
Qed.

Lemma engine0_S_unit (self := engine0) : innovation_covariance self \in unitmx.
Proof.
exact: (diagonal_S_unit engine0_P_diag engine0_R_diag engine0_S_nonzero).
Qed.

(** C7.  On the default engine (zero position, identity orientation,
    covariance [0.1 I], default [R]) one call
    [update([1, 0, 0], identity)] returns, and the x component of the
    posterior position lies strictly between 0 and 1: it is
    [0.1 / (0.1 + 0.01) = 10/11]. *)
Theorem C7_update_pulls_toward_measurement :
  exists self' : EKFFusionEngine.t,
    update engine0 (Vec3 1 0 0) identity = Returns self'
    /\ (0 < item (state self') 0 < 1)%Re.
Proof.
exists (updated engine0 (Vec3 1 0 0) identity); split.
  by apply: update_returns; exact: engine0_S_unit.
rewrite /updated [state _]/= item_renormalize //=.
rewrite (diagonal_corrected engine0_P_diag engine0_R_diag engine0_S_nonzero _ (k := 0)) //.
rewrite item_residual_position // [state engine0]/= item_default_state //=.
by rewrite /p0 /r0 /=; toR; lra.
Qed.

End DefaultEngine.

(** ** The double cover *)

Section DoubleCover.

Import GRing.Theory.
Import Scipy EKFFusionEngine.

Local Open Scope ring_scope.

Lemma Rltb_true x y : (x < y)%Re -> Rltb x y = true.
Proof. by move=> H; apply/RltbP. Qed.

Lemma Rltb_false x y : (y <= x)%Re -> Rltb x y = false.
Proof. by move=> H; apply/RltbP; lra. Qed.

(** The rotation object that stores [-q] where [r] stores [q]: the same
    rotation. *)
Definition negated (r : Rotation) : Rotation :=
  let q := as_quat r in
  MkRotation (Vec4 (- a0 q)%Re (- a1 q)%Re (- a2 q)%Re (- a3 q)%Re).

Lemma wf_negated (r : Rotation) : wf r -> wf (negated r).
Proof. by rewrite /wf /unit_quat /dot4 /= => <-; ring. Qed.

(** The posterior covariance does not depend on the measurement at all. *)
Lemma covariance_updated (self : EKFFusionEngine.t) (z z' : vec3) (r r' : Rotation) :
  covariance (updated self z r) = covariance (updated self z' r').
Proof. by []. Qed.

Lemma slice4_engine0 : slice4 (state engine0) 6 = Vec4 1 0 0 0.
Proof. by rewrite /slice4 [state _]/= !item_default_state. Qed.

(** The quaternion block of the corrected state of the default engine,
    before renormalisation: the predicted quaternion [h = [1, 0, 0, 0]]
    plus the fraction [g = 0.1 / (0.1 + 0.001)] of the residual. *)
Lemma engine0_corrected_quaternion (z : vec3) (r : Rotation) :
  let K := kalman_gain engine0 (invmx (innovation_covariance engine0)) in
  let x := corrected_state engine0 K (residual engine0 z r) in
  let m := wxyz (as_quat r) in
  let g := ((0.1) / (0.1 + 0.001))%Re in
  slice4 x 6
  = if Rltb (a0 m) 0
    then Vec4 (1 + g * (a0 m + 1))%Re (g * a1 m)%Re (g * a2 m)%Re (g * a3 m)%Re
    else Vec4 (1 + g * (a0 m - 1))%Re (g * a1 m)%Re (g * a2 m)%Re (g * a3 m)%Re.
Proof.
move=> K x m g; rewrite /slice4 /x /K.
have Hd k := diagonal_corrected engine0_P_diag engine0_R_diag engine0_S_nonzero
               (residual engine0 z r) (k := k).
rewrite (Hd 3) // (Hd 4) // (Hd 5) // (Hd 6) // {Hd}.
rewrite (item_residual_quaternion _ _ _ (k := 0)) //.
rewrite (item_residual_quaternion _ _ _ (k := 1)) //.
rewrite (item_residual_quaternion _ _ _ (k := 2)) //.
rewrite (item_residual_quaternion _ _ _ (k := 3)) //.
rewrite slice4_engine0 [state engine0]/= !item_default_state //= -/m.
have -> : dot4 m (Vec4 1 0 0 0) = a0 m by rewrite /dot4 /=; toR; ring.
by case: ifP => _; apply: vec4_eq; rewrite /= /p0 /r0 /= /g; toR; field; lra.
Qed.

(** Whatever the engine: when the measured quaternion [q] has a positive
    dot product with the predicted one, the quaternion rows of the
    residual computed for [-q] are the opposites of those computed for
    [q], not the same rows. *)
Lemma residual_negated (self : EKFFusionEngine.t) (z : vec3) (r : Rotation)
    (k : nat) :
  (k < 4)%N ->
  (0 < dot4 (wxyz (as_quat r)) (slice4 (state self) 6))%Re ->
  item (residual self z (negated r)) (k + 3)
  = - item (residual self z r) (k + 3).
Proof.
move=> Hk Hdot; rewrite !item_residual_quaternion //.
have Hneg : dot4 (wxyz (as_quat (negated r))) (slice4 (state self) 6)
            = (- dot4 (wxyz (as_quat r)) (slice4 (state self) 6))%Re.
  by rewrite /dot4 /=; ring.
have H1 : Rltb (- dot4 (wxyz (as_quat r)) (slice4 (state self) 6))%Re 0 = true.
  by apply: Rltb_true; lra.
have H2 : Rltb (dot4 (wxyz (as_quat r)) (slice4 (state self) 6)) 0 = false.
  by apply: Rltb_false; lra.
rewrite Hneg H1 H2.
by case: k Hk => [|[|[|[|]]]] //= _; toR; ring.
Qed.

End DoubleCover.

Section DoubleCoverClaim.

Import GRing.Theory.
Import Scipy EKFFusionEngine.

Local Open Scope ring_scope.

Lemma normalized_a1_pos (v : vec4) : (0 < a1 v)%Re -> (0 < a1 v / norm4 v)%Re.
Proof.
move=> Hv; apply: Rdiv_lt_0_compat => //; apply: norm4_gt0.
by have := dot4_ge0 (Vec4 (a0 v) 0 (a2 v) (a3 v)); rewrite /dot4 /=; nra.
Qed.

Lemma normalized_a1_neg (v : vec4) : (a1 v < 0)%Re -> (a1 v / norm4 v < 0)%Re.
Proof.
move=> Hv; have Hn : (0 < norm4 v)%Re.
  apply: norm4_gt0.
  by have := dot4_ge0 (Vec4 (a0 v) 0 (a2 v) (a3 v)); rewrite /dot4 /=; nra.
have := Rdiv_lt_0_compat _ _ (Ropp_gt_lt_0_contravar _ Hv) Hn.
by rewrite /Rdiv; lra.
Qed.

(** A rotation of about 106 degrees about the x axis: the unit
    quaternion [x = 0.8, w = 0.6]. *)
Definition about_x : Rotation := MkRotation (Vec4 (0.8)%Re 0 0 (0.6)%Re).

Lemma wf_about_x : wf about_x.
Proof. by rewrite /wf /unit_quat /dot4 /=; toR; lra. Qed.

(** C1.  Double cover.  On the default engine, [update] with the
    measured orientation [q = about_x] and [update] with [-q], the same
    rotation, both return and leave the same covariance, but not the same
    state: the x component of the posterior quaternion (state component 7)
    is positive after the first and negative after the second.  With a
    positive dot product the residual is [z - h]; for [-q] the dot
    product is negative and the residual is recomputed as [-q + h], the
    opposite of the first, so the correction pushes the other way. *)
Theorem C1_double_cover_posteriors_differ :
  exists self1 self2 : EKFFusionEngine.t,
    [/\ update engine0 zeros3 about_x = Returns self1,
        update engine0 zeros3 (negated about_x) = Returns self2,
        covariance self1 = covariance self2
      & (0 < item (state self1) 7)%Re /\ (item (state self2) 7 < 0)%Re]
    /\ state self1 <> state self2.
Proof.
exists (updated engine0 zeros3 about_x),
       (updated engine0 zeros3 (negated about_x)).
have H1 : (0 < item (state (updated engine0 zeros3 about_x)) 7)%Re.
  rewrite /updated [state _]/= item_renormalize //=.
  apply: (@normalized_a1_pos (slice4 _ 6)).
  rewrite engine0_corrected_quaternion /= Rltb_false /=; last lra.
  by lra.
have H2 : (item (state (updated engine0 zeros3 (negated about_x))) 7 < 0)%Re.
  rewrite /updated [state _]/= item_renormalize //=.
  apply: (@normalized_a1_neg (slice4 _ 6)).
  rewrite engine0_corrected_quaternion /= Rltb_true /=; last lra.
  by lra.
split; last by move=> E; rewrite E in H1; lra.
by split=> //; apply: update_returns; exact: engine0_S_unit.
Qed.

End DoubleCoverClaim.

(** ** Prediction *)

Section Predict.

Import GRing.Theory.
Import Scipy EKFFusionEngine.

Local Open Scope ring_scope.

Lemma div4_1 (v : vec4) : div4 v 1%Re = v.
Proof. by apply: vec4_eq; rewrite /=; field. Qed.

Lemma norm4_div4 (v : vec4) (c : R) :
  (0 < c)%Re -> norm4 (div4 v c) = (norm4 v / c)%Re.
Proof.
move=> Hc; have Hc0 : c <> 0%Re by move=> E; rewrite E in Hc; lra.
have Hcc : (0 < c * c)%Re by nra.
rewrite /norm4 (dot4_div4 _ Hc0) (sqrt_div_alt _ _ Hcc) sqrt_square //.
by lra.
Qed.

(** Scaling a nonzero quaternion by a positive factor does not change
    its normalisation. *)
Lemma normalize_div4 (v : vec4) (c : R) :
  (0 < c)%Re -> dot4 v v <> 0%Re -> normalize (div4 v c) = normalize v.
Proof.
move=> Hc Hv; rewrite /normalize norm4_div4 //.
have Hn := norm4_neq0 Hv.
by apply: vec4_eq; rewrite /=; field; split=> // E; rewrite E in Hc; lra.
Qed.

Lemma compose_quat_div4 (p q : vec4) (c : R) :
  c <> 0%Re -> compose_quat (div4 p c) q = div4 (compose_quat p q) c.
Proof. by move=> Hc; apply: vec4_eq; rewrite /=; field. Qed.

(** [from_quat] refuses the zero quaternion and nothing else. *)
Lemma from_quat_ok (q : vec4) :
  dot4 q q <> 0%Re -> from_quat q = Ok (MkRotation (normalize q)).
Proof.
move=> Hq; rewrite /from_quat; case: eqP => // /norm4_eq0 H0.
by case: Hq.
Qed.

Lemma from_quat_raise (q : vec4) :
  dot4 q q = 0%Re -> from_quat q = Raise ValueError.
Proof. by move=> Hq; rewrite /from_quat /norm4 Hq sqrt_0 eqxx. Qed.

(** The rotation [predict] composes and stores, for a nonzero state
    quaternion and a well-formed increment: the normalised product. *)
Lemma predicted_quaternion (q : vec4) (delta_rotation : Rotation) :
  dot4 q q <> 0%Re -> wf delta_rotation ->
  let new_quat :=
    wxyz (as_quat (mul (MkRotation (normalize (xyzw q))) delta_rotation)) in
  div4 new_quat (norm4 new_quat)
  = wxyz (normalize (compose_quat (xyzw q) (as_quat delta_rotation))).
Proof.
move=> Hq Hd new_quat.
have Hq' : dot4 (xyzw q) (xyzw q) <> 0%Re by rewrite dot4_xyzw.
have Hc : dot4 (compose_quat (xyzw q) (as_quat delta_rotation))
               (compose_quat (xyzw q) (as_quat delta_rotation)) <> 0%Re.
  by rewrite dot4_compose_quat Hd; toR; lra.
have E : new_quat
         = wxyz (normalize (compose_quat (xyzw q) (as_quat delta_rotation))).
  rewrite /new_quat /mul /= [normalize (xyzw q)]/normalize.
  rewrite (compose_quat_div4 _ _ (norm4_neq0 Hq')).
  by rewrite (normalize_div4 (norm4_gt0 Hq') Hc).
by rewrite E norm4_wxyz norm4_normalize // div4_1.
Qed.

Variable self : EKFFusionEngine.t.
Variables (delta_position delta_velocity : vec3) (delta_rotation : Rotation).
Variable dt : R.

Let x := state self.
Let quat := slice4 x 6.

(** The engine a returning [predict] leaves. *)
Definition predicted : EKFFusionEngine.t :=
  let new_quat :=
    wxyz (as_quat (mul (MkRotation (normalize (xyzw quat))) delta_rotation)) in
  let state := set_slice3 x 0
                 (add3 (add3 (slice3 x 0) (scale3 (slice3 x 3) dt)) delta_position) in
  let state := set_slice3 state 3 (add3 (slice3 x 3) delta_velocity) in
  let state := set_slice4 state 6 new_quat in
  let state := set_slice3 state 10 (slice3 x 10) in
  let state := set_slice3 state 13 (slice3 x 13) in
  let F := compute_state_transition_matrix dt in
  Make (renormalize state) (F *m covariance self *m F^T + dt *: Qn self)
       (Qn self) (Rn self).

Lemma predict_returns :
  dot4 quat quat <> 0%Re ->
  predict self delta_position delta_velocity delta_rotation dt = Returns predicted.
Proof.
move=> Hq; rewrite /predict -/x -/quat.
have -> : Vec4 (a1 quat) (a2 quat) (a3 quat) (a0 quat) = xyzw quat by [].
by rewrite from_quat_ok // dot4_xyzw.
Qed.

Lemma predict_raises :
  dot4 quat quat = 0%Re ->
  predict self delta_position delta_velocity delta_rotation dt
  = Raises ValueError self.
Proof.
move=> Hq; rewrite /predict -/x -/quat.
have -> : Vec4 (a1 quat) (a2 quat) (a3 quat) (a0 quat) = xyzw quat by [].
by rewrite from_quat_raise // dot4_xyzw.
Qed.

Lemma predict_cases :
  predict self delta_position delta_velocity delta_rotation dt = Returns predicted
  \/ predict self delta_position delta_velocity delta_rotation dt
     = Raises ValueError self.
Proof.
case: (Req_dec_T (dot4 quat quat) 0%Re) => Hq; [right | left].
  exact: predict_raises.
exact: predict_returns.
Qed.

(** The blocks of the predicted state. *)
Lemma predicted_position :
  slice3 (state predicted) 0
  = add3 (add3 (slice3 x 0) (scale3 (slice3 x 3) dt)) delta_position.
Proof.
rewrite /predicted [state _]/= /slice3 !item_renormalize //=.
by rewrite !(item_set_slice3, item_set_slice4).
Qed.

Lemma predicted_velocity :
  slice3 (state predicted) 3 = add3 (slice3 x 3) delta_velocity.
Proof.
rewrite /predicted [state _]/= /slice3 !item_renormalize //=.
by rewrite !(item_set_slice3, item_set_slice4).
Qed.

Lemma predicted_gyro_bias : slice3 (state predicted) 10 = slice3 x 10.
Proof.
rewrite /predicted [state _]/= /slice3 !item_renormalize //=.
by rewrite !(item_set_slice3, item_set_slice4).
Qed.

Lemma predicted_accel_bias : slice3 (state predicted) 13 = slice3 x 13.
Proof.
rewrite /predicted [state _]/= /slice3 !item_renormalize //=.
by rewrite !(item_set_slice3, item_set_slice4).
Qed.

Lemma predicted_orientation_raw :
  let new_quat :=
    wxyz (as_quat (mul (MkRotation (normalize (xyzw quat))) delta_rotation)) in
  slice4 (state predicted) 6 = div4 new_quat (norm4 new_quat).
Proof.
move=> new_quat; rewrite /predicted [state _]/= slice4_renormalize.
set st := set_slice3 _ 13 _.
have -> : slice4 st 6 = new_quat.
  by rewrite /slice4 /st !(item_set_slice3, item_set_slice4).
by [].
Qed.

Lemma predicted_orientation :
  dot4 quat quat <> 0%Re -> wf delta_rotation ->
  slice4 (state predicted) 6
  = wxyz (normalize (compose_quat (xyzw quat) (as_quat delta_rotation))).
Proof. by move=> Hq Hd; rewrite predicted_orientation_raw predicted_quaternion. Qed.

End Predict.

Section PredictClaim.

Import GRing.Theory.
Import Scipy EKFFusionEngine.

Local Open Scope ring_scope.

(** C6.  Predict state propagation.  From a state [(p, v, q, bg, ba)]
    whose quaternion block is not zero (scipy's [from_quat] refuses a zero
    quaternion) and for every input,
    [predict] returns and sets the position to
    [p + v * dt + delta_position], the velocity to [v + delta_velocity],
    the orientation to the normalised quaternion product of [q] and the
    quaternion of [delta_rotation], and leaves both bias blocks as they
    were.  In particular, from the default state, [predict] with zero
    deltas, the identity rotation and [dt = 1.0] leaves the position and
    the velocity at [[0, 0, 0]]. *)
Theorem C6_predict_state_propagation
    (self : EKFFusionEngine.t) (delta_position delta_velocity : vec3)
    (delta_rotation : Rotation) (dt : R) :
  let x := state self in
  dot4 (slice4 x 6) (slice4 x 6) <> 0%Re ->
  wf delta_rotation ->
  (exists self' : EKFFusionEngine.t,
     predict self delta_position delta_velocity delta_rotation dt = Returns self'
     /\ [/\ slice3 (state self') 0
            = add3 (add3 (slice3 x 0) (scale3 (slice3 x 3) dt)) delta_position,
            slice3 (state self') 3 = add3 (slice3 x 3) delta_velocity,
            slice4 (state self') 6
            = wxyz (normalize (compose_quat (xyzw (slice4 x 6))
                                            (as_quat delta_rotation))),
            slice3 (state self') 10 = slice3 x 10
          & slice3 (state self') 13 = slice3 x 13])
  /\ (exists self' : EKFFusionEngine.t,
        predict engine0 zeros3 zeros3 identity 1%Re = Returns self'
        /\ slice3 (state self') 0 = zeros3
        /\ slice3 (state self') 3 = zeros3).
Proof.
move=> x Hq Hd; split.
  exists (predicted self delta_position delta_velocity delta_rotation dt).
  split; first exact: predict_returns.
  split.
  - exact: predicted_position.
  - exact: predicted_velocity.
  - exact: predicted_orientation.
  - exact: predicted_gyro_bias.
  - exact: predicted_accel_bias.
exists (predicted engine0 zeros3 zeros3 identity 1%Re).
have H0 : slice3 (state engine0) 0 = zeros3.
  by rewrite /slice3 [state _]/= !item_default_state.
have H3 : slice3 (state engine0) 3 = zeros3.
  by rewrite /slice3 [state _]/= !item_default_state.
split.
  by apply: predict_returns; rewrite slice4_engine0 /dot4 /=; toR; lra.
rewrite predicted_position predicted_velocity H0 H3.
by split; apply: vec3_eq; rewrite /=; toR; lra.
Qed.

Lemma C6_predict_state_propagation_witness :
  (exists self' : EKFFusionEngine.t,
     predict engine0 (Vec3 1 0 0) (Vec3 0 1 0) about_x (0.5)%Re = Returns self'
     /\ [/\ slice3 (state self') 0
            = add3 (add3 (slice3 (state engine0) 0)
                         (scale3 (slice3 (state engine0) 3) (0.5)%Re))
                   (Vec3 1 0 0),
            slice3 (state self') 3
            = add3 (slice3 (state engine0) 3) (Vec3 0 1 0),
            slice4 (state self') 6
            = wxyz (normalize (compose_quat (xyzw (slice4 (state engine0) 6))
                                            (as_quat about_x))),
            slice3 (state self') 10 = slice3 (state engine0) 10
          & slice3 (state self') 13 = slice3 (state engine0) 13])
  /\ (exists self' : EKFFusionEngine.t,
        predict engine0 zeros3 zeros3 identity 1%Re = Returns self'
        /\ slice3 (state self') 0 = zeros3
        /\ slice3 (state self') 3 = zeros3).
Proof.
apply: C6_predict_state_propagation.
  by rewrite slice4_engine0 /dot4 /=; toR; lra.
exact: wf_about_x.
Defined.

End PredictClaim.

(** ** The unit-norm invariant *)

Section UnitNorm.

Import GRing.Theory.
Import Scipy EKFFusionEngine Library.

Local Open Scope ring_scope.

(** The quaternion block [update] is about to renormalise (the state of
    line 208). *)
Definition corrected_quaternion (self : EKFFusionEngine.t)
    (measured_position : vec3) (measured_rotation : Rotation) : vec4 :=
  let K := kalman_gain self (invmx (innovation_covariance self)) in
  slice4 (corrected_state self K
            (residual self measured_position measured_rotation)) 6.

Lemma predict_unit_norm (self self' : EKFFusionEngine.t)
    (dp dv : vec3) (dr : Rotation) (dt : R) :
  wf dr -> predict self dp dv dr dt = Returns self' ->
  norm4 (slice4 (state self') 6) = 1%Re.
Proof.
move=> Hd.
case: (Req_dec_T (dot4 (slice4 (state self) 6) (slice4 (state self) 6)) 0%Re).
  by move=> /predict_raises ->.
move=> Hq; rewrite (predict_returns _ _ _ _ Hq) => -[<-].
rewrite predicted_orientation // norm4_wxyz norm4_normalize //.
by rewrite dot4_compose_quat dot4_xyzw Hd; toR; lra.
Qed.

(** Over the exact inverse, on an invertible [S], the block of line 208
    is [corrected_quaternion]. *)
Lemma corrected_block_linalg_inv (self : EKFFusionEngine.t)
    (z : vec3) (r : Rotation) :
  innovation_covariance self \in unitmx ->
  corrected_block (@linalg_inv 7) self z r = Ok (corrected_quaternion self z r).
Proof. by rewrite /corrected_block /linalg_inv => ->. Qed.

(** A nonzero block divided by its norm: no float is an infinity or nan,
    and the floats are the reals of the model. *)
Lemma divide4_nonzero (q : vec4) :
  dot4 q q <> 0%Re -> divide4 q (norm4 q) = finite4 (div4 q (norm4 q)).
Proof.
move=> Hq; have /eqP/negbTE Hn := norm4_neq0 Hq.
by rewrite /divide4 /divide Hn.
Qed.

(** The zero block divided by its norm: four nans. *)
Lemma divide4_zero :
  divide4 (Vec4 0 0 0 0) (norm4 (Vec4 0 0 0 0)) = (NaN, NaN, NaN, NaN).
Proof.
have -> : norm4 (Vec4 0 0 0 0) = 0.
  by rewrite /norm4 /dot4 /=; toR; rewrite Rmult_0_l !Rplus_0_l sqrt_0.
by rewrite /divide4 /divide /= !eqxx.
Qed.

Section Inverse.

Variable np_linalg_inv : 'M[R]_7 -> result 'M[R]_7.

(** What the invariant asks of a call: a [predict] is given a
    well-formed rotation, an [update] does not correct the quaternion
    block to the zero vector: line 211 does not divide zero by zero. *)
Definition admissible (self : EKFFusionEngine.t) (c : call) : Prop :=
  match c with
  | Predict _ _ delta_rotation _ => wf delta_rotation
  | Update measured_position measured_rotation =>
      forall q : vec4,
        corrected_block np_linalg_inv self measured_position measured_rotation
        = Ok q ->
        dot4 q q <> 0%Re
  end.

(** Every call of a sequence is admissible on the engine it finds. *)
Fixpoint admissible_history (self : EKFFusionEngine.t) (calls : seq call) :
    Prop :=
  if calls is c :: calls then
    admissible self c
    /\ admissible_history (after (exec_with np_linalg_inv self c)) calls
  else True.

Lemma admissible_history_last (self : EKFFusionEngine.t) (calls : seq call)
    (c : call) :
  admissible_history self (rcons calls c) ->
  admissible (run_with np_linalg_inv self calls) c.
Proof.
elim: calls self => [|c' calls IH] self /=; first by case.
by case=> _; exact: IH.
Qed.

Lemma update_with_unit_norm (self self' : EKFFusionEngine.t)
    (z : vec3) (r : Rotation) :
  admissible self (Update z r) ->
  update_with np_linalg_inv self z r = Returns self' ->
  norm4 (slice4 (state self') 6) = 1%Re
  /\ stored_quaternion np_linalg_inv self z r
     = Ok (finite4 (slice4 (state self') 6)).
Proof.
rewrite /admissible /stored_quaternion /corrected_block /update_with.
case: (np_linalg_inv _) => [S_inv|e] // Hq [<-].
have {}Hq := Hq _ erefl.
rewrite [state _]/= slice4_renormalize; split; first exact: norm4_normalize.
by rewrite divide4_nonzero.
Qed.

End Inverse.

(** C3 (amended).  Unit norm.  Take any engine and any sequence of
    [predict] and [update] calls in which every [predict] is given a
    well-formed rotation and no [update] corrects the quaternion block to
    the zero vector.  After every call of the sequence that returns, the
    orientation quaternion (state components 6..9) has norm 1; for an
    [update] the four floats line 211 stores are these numbers, none of
    them nan.  This holds whatever [np.linalg.inv] returns or raises on
    the way. *)
Theorem C3_unit_norm_after_admissible_calls
    (np_linalg_inv : 'M[R]_7 -> result 'M[R]_7)
    (self0 : EKFFusionEngine.t) (calls : seq call) (c : call)
    (self' : EKFFusionEngine.t) :
  admissible_history np_linalg_inv self0 (rcons calls c) ->
  exec_with np_linalg_inv (run_with np_linalg_inv self0 calls) c
  = Returns self' ->
  norm4 (slice4 (state self') 6) = 1%Re
  /\ forall z r, c = Update z r ->
       stored_quaternion np_linalg_inv (run_with np_linalg_inv self0 calls) z r
       = Ok (finite4 (slice4 (state self') 6)).
Proof.
move=> /admissible_history_last; case: c => [dp dv dr dt|z r] /= Hc E.
  by split=> //; exact: predict_unit_norm E.
have [Hn Hs] := update_with_unit_norm Hc E.
by split=> // z' r' [<- <-].
Qed.

Lemma C3_unit_norm_after_admissible_calls_witness :
  let self' := updated engine0 (Vec3 1 0 0) identity in
  norm4 (slice4 (state self') 6) = 1%Re
  /\ forall z r, Update (Vec3 1 0 0) identity = Update z r ->
       stored_quaternion (@linalg_inv 7) (run_with (@linalg_inv 7) engine0 [::])
         z r
       = Ok (finite4 (slice4 (state self') 6)).
Proof.
apply: (@C3_unit_norm_after_admissible_calls (@linalg_inv 7) engine0 [::]
          (Update (Vec3 1 0 0) identity)).
  split=> // q; rewrite (corrected_block_linalg_inv _ _ engine0_S_unit).
  move=> [<-]; rewrite /corrected_quaternion engine0_corrected_quaternion /=.
  by rewrite Rltb_false /dot4 /=; toR; lra.
by apply: update_returns; exact: engine0_S_unit.
Defined.

(** The counterexample to the invariant as the specification has it: an
    engine with covariance [np.eye(16)], measurement noise
    [np.diag([1, 1, 1, 0, 0, 0, 0])] and the state quaternion
    [[-0.5, 0, 0, 0]], of norm 0.5. *)
Definition state3 : 'cV[R]_16 := set_slice4 0 6 (Vec4 (- 0.5)%Re 0 0 0).

Definition noise3 : 'M[R]_7 :=
  \matrix_(i < 7, j < 7) if (i == j) && (i < 3)%N then 1 else 0.

Definition engine3 : EKFFusionEngine.t :=
  init (Some state3) (Some 1%:M) None (Some noise3).

Definition p3 (k : nat) : R := 1.
Definition r3 (k : nat) : R := if (k < 3)%N then 1 else 0.

Lemma engine3_P_diag (i j : 'I_16) :
  covariance engine3 i j = if i == j then p3 i else 0.
Proof. by rewrite /= mxE; case: (i == j). Qed.

Lemma engine3_R_diag (i j : 'I_7) :
  Rn engine3 i j = if i == j then r3 i else 0.
Proof. by rewrite /= mxE /r3; case: (i == j) => //=; case: ifP. Qed.

Lemma engine3_S_nonzero (k : nat) : (k < 7)%N -> p3 (obs_index k) + r3 k <> 0.
Proof. by move=> _; rewrite /p3 /r3; case: ifP => _; toR; lra. Qed.

Lemma item_state3 (k : nat) :
  (k < 16)%N -> item state3 k = if (k == 6)%N then (- 0.5)%Re else 0.
Proof.
move=> Hk; rewrite /state3 item_set_slice4 // /item mxE.
by move: Hk; do 16?[case: k => [|k] //].
Qed.

Lemma slice4_engine3 : slice4 (state engine3) 6 = Vec4 (- 0.5)%Re 0 0 0.
Proof. by rewrite /slice4 [state _]/= !item_state3. Qed.

(** The corrected quaternion block is the zero vector. *)
Lemma engine3_corrected_quaternion :
  corrected_quaternion engine3 zeros3 identity = Vec4 0 0 0 0.
Proof.
rewrite /corrected_quaternion /slice4.
have Hd k := diagonal_corrected engine3_P_diag engine3_R_diag engine3_S_nonzero
               (residual engine3 zeros3 identity) (k := k).
rewrite (Hd 3) // (Hd 4) // (Hd 5) // (Hd 6) // {Hd}.
rewrite (item_residual_quaternion _ _ _ (k := 0)) //.
rewrite (item_residual_quaternion _ _ _ (k := 1)) //.
rewrite (item_residual_quaternion _ _ _ (k := 2)) //.
rewrite (item_residual_quaternion _ _ _ (k := 3)) //.
rewrite slice4_engine3 [state engine3]/= !item_state3 //=.
case: RltbP => [_|[]]; last by rewrite /dot4 /=; toR; lra.
by apply: vec4_eq; rewrite /= /p3 /r3 /=; toR; lra.
Qed.

(** C3, counterexample.  The quaternion block of [engine3] has a nonzero
    norm; [update(zeros, identity)] returns ([S] is the diagonal matrix
    of 2, 2, 2, 1, 1, 1, 1, which numpy inverts exactly); the block it is
    about to normalise is exactly zero, line 211 divides zero by zero and
    the quaternion block stored is four nans, not a unit quaternion. *)
Lemma C3_counterexample :
  norm4 (slice4 (state engine3) 6) <> 0%Re
  /\ (exists self' : EKFFusionEngine.t,
        update_with (@linalg_inv 7) engine3 zeros3 identity = Returns self')
  /\ stored_quaternion (@linalg_inv 7) engine3 zeros3 identity
     = Ok (NaN, NaN, NaN, NaN).
Proof.
have HS : innovation_covariance engine3 \in unitmx.
  exact: (diagonal_S_unit engine3_P_diag engine3_R_diag engine3_S_nonzero).
split.
  apply: norm4_neq0; rewrite slice4_engine3 /dot4 /=; toR.
  by lra.
split.
  by exists (updated engine3 zeros3 identity); exact: update_returns.
rewrite /stored_quaternion corrected_block_linalg_inv //.
by rewrite engine3_corrected_quaternion divide4_zero.
Qed.

End UnitNorm.

(** ** The bias blocks of the default engine *)

Section BiasFreeze.

Import GRing.Theory.
Import Scipy EKFFusionEngine.

Local Open Scope ring_scope.

(** The invariant: the process noise is the default one, the bias rows
    of the covariance vanish on the ten pose columns, and both bias
    blocks of the state are zero. *)
Definition bias_decoupled (self : EKFFusionEngine.t) : Prop :=
  [/\ Qn self = default_Q,
      forall b j : 'I_16, (10 <= b)%N -> (j < 10)%N -> covariance self b j = 0,
      slice3 (state self) 10 = zeros3
    & slice3 (state self) 13 = zeros3].

Lemma engine0_bias_decoupled : bias_decoupled engine0.
Proof.
split=> //.
- move=> b j Hb Hj; rewrite default_covarianceE.
  case: eqP => // E; move: Hb; rewrite E leqNgt.
  by rewrite Hj.
- by rewrite /slice3 [state _]/= !item_default_state.
- by rewrite /slice3 [state _]/= !item_default_state.
Qed.

(** Rows 3..15 of [F] are rows of the identity. *)
Lemma transition_row (dt : R) (b k : 'I_16) :
  (3 <= b)%N -> compute_state_transition_matrix dt b k = (b == k)%:R.
Proof. by move=> Hb; rewrite mxE ltnNge Hb. Qed.

(** A pose row of [F] has no entry in a bias column. *)
Lemma transition_pose_bias (dt : R) (j l : 'I_16) :
  (j < 10)%N -> (10 <= l)%N -> compute_state_transition_matrix dt j l = 0.
Proof.
move=> Hj Hl; rewrite mxE.
have -> : (l < 6)%N = false.
  by apply/negbTE; rewrite -leqNgt; exact: leq_trans Hl.
rewrite andbF andbF; case: eqP => // E.
by move: Hj; rewrite E ltnNge Hl.
Qed.

Lemma predict_bias_decoupled (self : EKFFusionEngine.t)
    (dp dv : vec3) (dr : Rotation) (dt : R) :
  bias_decoupled self -> bias_decoupled (after (predict self dp dv dr dt)).
Proof.
move=> Hself; case: (predict_cases self dp dv dr dt) => -> //=.
case: Hself => HQ HP Hg Ha; split=> //.
- move=> b j Hb Hj.
  have Hbj : b != j by apply/eqP => E; move: Hb; rewrite E leqNgt Hj.
  have Hb3 : (3 <= b)%N by exact: leq_trans Hb.
  rewrite /= mxE [X in _ + X]mxE HQ (default_Q_offdiag Hbj) mulr0 addr0.
  rewrite mxE; apply: big1 => l _; rewrite [X in _ * X]mxE.
  case Hl: (l < 10)%N; last first.
    by rewrite (@transition_pose_bias dt j l) ?mulr0 // leqNgt Hl.
  have -> : (compute_state_transition_matrix dt *m covariance self) b l = 0.
    rewrite mxE; apply: big1 => k _; rewrite (transition_row dt k Hb3).
    by case: eqP => [<-|_]; rewrite ?mul0r // mul1r HP.
  by rewrite mul0r.
- by rewrite predicted_gyro_bias.
- by rewrite predicted_accel_bias.
Qed.

(** Under the invariant the bias rows of the Kalman gain are zero. *)
Lemma gain_bias_row (self : EKFFusionEngine.t) (S_inv : 'M[R]_7)
    (b : 'I_16) (i : 'I_7) :
  bias_decoupled self -> (10 <= b)%N -> kalman_gain self S_inv b i = 0.
Proof.
move=> [_ HP _ _] Hb; rewrite /kalman_gain mxE; apply: big1 => m _.
by rewrite mulmx_measurement_tr HP ?mul0r // obs_lt10.
Qed.

Lemma update_bias_decoupled (self : EKFFusionEngine.t) (z : vec3) (r : Rotation) :
  bias_decoupled self -> bias_decoupled (after (update self z r)).
Proof.
move=> Hself; case: (update_cases self z r) => -[_ ->] //=.
have HK := gain_bias_row _ _ Hself.
have Hx (k : nat) : (10 <= k < 16)%N ->
    item (state (updated self z r)) k = item (state self) k.
  move=> /andP[Hk10 Hk16]; rewrite /updated [state _]/= item_renormalize //.
  have -> : (6 <= k < 10)%N = false.
    by rewrite [(k < 10)%N]ltnNge Hk10 andbF.
  rewrite !(@item_val _ _ _ (Ordinal Hk16)) // /corrected_state !mxE.
  by rewrite big1 ?addr0 // => i _; rewrite HK ?mul0r.
case: Hself => HQ HP Hg Ha; split=> //.
- move=> b j Hb Hj; rewrite /= mulmxBl mul1mx !mxE HP //.
  rewrite big1 ?subr0 // => l _; rewrite mxE big1 ?mul0r //.
  by move=> i _; rewrite HK ?mul0r.
- by rewrite /slice3 !Hx // -/(slice3 (state self) 10).
- by rewrite /slice3 !Hx // -/(slice3 (state self) 13).
Qed.

Lemma run_bias_decoupled (self : EKFFusionEngine.t) (calls : seq call) :
  bias_decoupled self -> bias_decoupled (run self calls).
Proof.
elim: calls self => [|c calls IH] self Hself //=.
apply: IH; case: c => [dp dv dr dt|z r] /=.
  exact: predict_bias_decoupled.
exact: update_bias_decoupled.
Qed.

(** C10.  Bias freeze.  On a default-constructed engine, after every
    finite sequence of [predict] and [update] calls (raising calls
    included: they leave the engine as it was) the gyro-bias block and
    the accelerometer-bias block of the state, components 10..15, are
    still zero. *)
Theorem C10_bias_blocks_stay_zero (calls : seq call) :
  slice3 (state (run engine0 calls)) 10 = zeros3
  /\ slice3 (state (run engine0 calls)) 13 = zeros3.
Proof.
by have [_ _ Hg Ha] := run_bias_decoupled calls engine0_bias_decoupled.
Qed.

End BiasFreeze.

(** * Further properties of the code *)

(** ** The covariance stays a covariance *)

Section CovarianceInvariant.

Import GRing.Theory.
Import Scipy EKFFusionEngine.

Local Open Scope ring_scope.

Lemma qformD (n : nat) (A B : 'M[R]_n) (v : 'rV[R]_n) :
  qform (A + B) v = qform A v + qform B v.
Proof. by rewrite /qform mulmxDr mulmxDl mxE. Qed.

Lemma qformZ (n : nat) (c : R) (A : 'M[R]_n) (v : 'rV[R]_n) :
  qform (c *: A) v = c * qform A v.
Proof. by rewrite /qform -scalemxAr -scalemxAl mxE. Qed.

(** The quadratic form of [B A B^T] is that of [A] at [v B]. *)
Lemma qform_congruence (m n : nat) (A : 'M[R]_n) (B : 'M[R]_(m, n)) (v : 'rV[R]_m) :
  qform (B *m A *m B^T) v = qform A (v *m B).
Proof. by rewrite /qform trmx_mul !mulmxA. Qed.

(** A 1x1 product and its transpose have the same entry. *)
Lemma scalar_tr (n : nat) (u w : 'rV[R]_n) : (u *m w^T) 0 0 = (w *m u^T) 0 0.
Proof. by rewrite !mxE; apply: eq_bigr => k _; rewrite !mxE mulrC. Qed.

Lemma entryD (m n : nat) (A B : 'M[R]_(m, n)) i j : (A + B) i j = A i j + B i j.
Proof. by rewrite mxE. Qed.

Lemma entryB (m n : nat) (A B : 'M[R]_(m, n)) i j : (A - B) i j = A i j - B i j.
Proof. by rewrite !mxE. Qed.

Lemma positive_diagonal_psd (n : nat) (A : 'M[R]_n) :
  positive_diagonal A -> positive_semidefinite A.
Proof. by move=> HA v; have [] := positive_diagonal_definite v HA. Qed.

Section Predict.

Variable self : EKFFusionEngine.t.
Variables (dp dv : vec3) (dr : Rotation) (dt : R).

Lemma predicted_covariance_sym :
  symmetric (covariance self) -> symmetric (Qn self) ->
  symmetric (covariance (predicted self dp dv dr dt)).
Proof.
move=> HP HQ; rewrite /symmetric /predicted /= linearD /= linearZ /= HQ.
by rewrite !trmx_mul trmxK HP mulmxA.
Qed.

Lemma predicted_covariance_psd :
  positive_semidefinite (covariance self) -> positive_semidefinite (Qn self) ->
  (0 <= dt)%Re ->
  positive_semidefinite (covariance (predicted self dp dv dr dt)).
Proof.
move=> HP HQ Hdt v; rewrite /predicted /= qformD qformZ qform_congruence.
move: (HP (v *m compute_state_transition_matrix dt)) (HQ v).
by toR; move: (qform _ _) (qform _ _) => a b; nra.
Qed.

End Predict.

Section Update.

Variable self : EKFFusionEngine.t.
Variables (z : vec3) (r : Rotation).

Hypothesis P_sym : symmetric (covariance self).
Hypothesis R_sym : symmetric (Rn self).

Let P := covariance self.
Let H := measurement_matrix.
Let S := innovation_covariance self.

Lemma innovation_covariance_sym' : symmetric S.
Proof.
rewrite /symmetric /S /innovation_covariance linearD /= !trmx_mul trmxK.
by rewrite P_sym R_sym mulmxA.
Qed.

(** [K H P = P H^T S^-1 H P] is symmetric, and so is the posterior. *)
Lemma updated_covariance_sym : symmetric (covariance (updated self z r)).
Proof.
rewrite /symmetric /updated /= mulmxBl mul1mx linearB /= P_sym.
congr (_ - _); rewrite /kalman_gain -/P -/H -/S !trmx_mul trmxK.
by rewrite trmx_inv innovation_covariance_sym' P_sym !mulmxA.
Qed.

Hypothesis P_psd : positive_semidefinite (covariance self).
Hypothesis R_psd : positive_semidefinite (Rn self).
Hypothesis S_unit : S \in unitmx.

(** The posterior form is the prior form at [v - u H] plus the noise form
    at [u], for [u = v P H^T S^-1]. *)
Lemma updated_covariance_qform (v : 'rV[R]_16) :
  let u := v *m P *m H^T *m invmx S in
  qform (covariance (updated self z r)) v
  = qform P (v - u *m H) + qform (Rn self) u.
Proof.
move=> u; pose w := v *m P *m H^T.
have Hw : w = u *m S by rewrite /u mulmxKV.
have HS : qform S u = qform P (u *m H) + qform (Rn self) u.
  by rewrite /S /innovation_covariance qformD qform_congruence.
have E1 : qform (covariance (updated self z r)) v = qform P v - (u *m w^T) 0 0.
  rewrite /qform /updated /= mulmxBl mul1mx mulmxBr mulmxBl entryB.
  congr (_ - _); rewrite /kalman_gain -/P -/H -/S /u /w !trmx_mul trmxK P_sym.
  by rewrite !mulmxA.
have E2 : (u *m w^T) 0 0 = qform S u.
  by rewrite Hw trmx_mul innovation_covariance_sym' /qform mulmxA.
have E3 : qform P (v - u *m H)
          = qform P v - (u *m w^T) 0 0 - (u *m w^T) 0 0 + qform P (u *m H).
  rewrite /qform linearB /= mulmxBl mulmxBr !mulmxBl !entryB.
  have -> : (u *m H *m P *m v^T) 0 0 = (u *m w^T) 0 0.
    by rewrite /w !trmx_mul trmxK P_sym !mulmxA.
  have -> : (v *m P *m (u *m H)^T) 0 0 = (u *m w^T) 0 0.
    by rewrite scalar_tr /w !trmx_mul trmxK P_sym !mulmxA.
  by toR; entries; ring.
by rewrite E1 E3 E2 HS; toR; move: (qform _ _) (qform _ _) (qform _ _); move=> a b c; ring.
Qed.

Lemma updated_covariance_psd :
  positive_semidefinite (covariance (updated self z r)).
Proof.
move=> v; rewrite updated_covariance_qform.
move: (P_psd (v - v *m P *m H^T *m invmx S *m H)) (R_psd (v *m P *m H^T *m invmx S)).
by rewrite -/P; toR; move: (qform _ _) (qform _ _) => a b; lra.
Qed.

End Update.

End CovarianceInvariant.

Section CovarianceKept.

Import GRing.Theory.
Import Scipy EKFFusionEngine.

Local Open Scope ring_scope.

Lemma default_Q_diag (i : 'I_16) :
  default_Q i i
  = if (i < 6)%N then (0.01)%Re else if (i < 10)%N then (0.001)%Re
    else if (i < 13)%N then (0.0001)%Re else (0.001)%Re.
Proof.
rewrite /default_Q /scale_block !mxE eqxx.
by case: i; do 16?[case=> //=; first by move=> _; rewrite ?mul1r].
Qed.

Lemma default_Q_positive_diagonal : positive_diagonal default_Q.
Proof.
split; first exact: default_Q_offdiag.
by move=> i; rewrite default_Q_diag; do 3?[case: ifP => _]; lra.
Qed.

(** A symmetric positive semidefinite covariance. *)
Definition is_covariance (n : nat) (A : 'M[R]_n) : Prop :=
  symmetric A /\ positive_semidefinite A.

Lemma positive_diagonal_covariance (n : nat) (A : 'M[R]_n) :
  positive_diagonal A -> is_covariance A.
Proof.
by move=> HA; split; [exact: positive_diagonal_sym | exact: positive_diagonal_psd].
Qed.

Lemma default_covariance_is_covariance : is_covariance default_covariance.
Proof. by split; [exact: default_covariance_sym | exact: default_covariance_psd]. Qed.

(** X1.  [predict] keeps the covariance symmetric and positive semidefinite
    when the process noise is and the time step is not negative; a
    raising [predict] leaves it as it was. *)
Theorem predict_keeps_covariance (self : EKFFusionEngine.t)
    (delta_position delta_velocity : vec3) (delta_rotation : Rotation) (dt : R) :
  is_covariance (covariance self) -> is_covariance (Qn self) -> (0 <= dt)%Re ->
  is_covariance
    (covariance (after (predict self delta_position delta_velocity
                          delta_rotation dt))).
Proof.
move=> [Psym Ppsd] [Qsym Qpsd] Hdt.
case: (predict_cases self delta_position delta_velocity delta_rotation dt) => -> //=.
split; first exact: predicted_covariance_sym.
exact: predicted_covariance_psd.
Qed.

Lemma predict_keeps_covariance_witness :
  is_covariance
    (covariance (after (predict engine0 (Vec3 1 0 0) zeros3 about_x (0.5)%Re))).
Proof.
apply: predict_keeps_covariance.
- exact: default_covariance_is_covariance.
- exact: (positive_diagonal_covariance default_Q_positive_diagonal).
- by lra.
Defined.

(** X2.  [update] keeps the covariance symmetric and positive semidefinite
    when the measurement noise is; a raising [update] leaves it as it
    was. *)
Theorem update_keeps_covariance (self : EKFFusionEngine.t)
    (measured_position : vec3) (measured_rotation : Rotation) :
  is_covariance (covariance self) -> is_covariance (Rn self) ->
  is_covariance
    (covariance (after (update self measured_position measured_rotation))).
Proof.
move=> [Psym Ppsd] [Rsym Rpsd].
case: (update_cases self measured_position measured_rotation) => -[HS ->] //=.
split; first exact: updated_covariance_sym.
exact: updated_covariance_psd.
Qed.

Lemma update_keeps_covariance_witness :
  is_covariance (covariance (after (update engine0 (Vec3 1 0 0) about_x))).
Proof.
apply: update_keeps_covariance.
- exact: default_covariance_is_covariance.
- exact: (positive_diagonal_covariance default_R_positive_diagonal).
Defined.

(** Calls whose time step is not negative. *)
Definition forward (c : call) : bool :=
  match c with
  | Predict _ _ _ dt => Rleb 0 dt
  | Update _ _ => true
  end.

(** The invariant of an engine built with the default noise matrices. *)
Definition default_noise (self : EKFFusionEngine.t) : Prop :=
  [/\ Qn self = default_Q, Rn self = default_R
    & is_covariance (covariance self)].

Lemma engine0_default_noise : default_noise engine0.
Proof. by split=> //; exact: default_covariance_is_covariance. Qed.

Lemma exec_default_noise (self : EKFFusionEngine.t) (c : call) :
  forward c -> default_noise self -> default_noise (after (exec self c)).
Proof.
move=> Hc [HQ HR [Psym Ppsd]]; case: c Hc => [dp dv dr dt|z r] /= Hc.
  have [Qsym Qpsd] : is_covariance (Qn self).
    by rewrite HQ; exact: (positive_diagonal_covariance default_Q_positive_diagonal).
  have Hdt : (0 <= dt)%Re by exact/RlebP.
  case: (predict_cases self dp dv dr dt) => -> //=; split=> //.
  by split; [exact: predicted_covariance_sym | exact: predicted_covariance_psd].
have [Rsym Rpsd] : is_covariance (Rn self).
  by rewrite HR; exact: (positive_diagonal_covariance default_R_positive_diagonal).
case: (update_cases self z r) => -[HS ->] //=; split=> //.
by split; [exact: updated_covariance_sym | exact: updated_covariance_psd].
Qed.

Lemma run_default_noise (self : EKFFusionEngine.t) (calls : seq call) :
  all forward calls -> default_noise self -> default_noise (run self calls).
Proof.
elim: calls self => [|c calls IH] self //= /andP[Hc Hcalls] Hself.
by apply: IH => //; exact: exec_default_noise.
Qed.

(** X3.  On a default-constructed engine, after every sequence of calls whose
    time steps are not negative, the covariance is symmetric and positive
    semidefinite, and the next [update] returns: [S] is invertible, no
    [LinAlgError]. *)
Theorem default_engine_update_returns (calls : seq call)
    (measured_position : vec3) (measured_rotation : Rotation) :
  all forward calls ->
  let self := run engine0 calls in
  is_covariance (covariance self)
  /\ update self measured_position measured_rotation
     = Returns (updated self measured_position measured_rotation).
Proof.
move=> Hcalls self.
have [HQ HR [Psym Ppsd]] := run_default_noise Hcalls engine0_default_noise.
split=> //; apply: update_returns; apply: innovation_covariance_unit => //.
by rewrite HR; exact: default_R_positive_diagonal.
Qed.

Lemma default_engine_update_returns_witness :
  let self :=
    run engine0 [:: Predict (Vec3 1 0 0) zeros3 about_x (0.5)%Re;
                    Update (Vec3 1 0 0) identity] in
  is_covariance (covariance self)
  /\ update self (Vec3 2 0 0) about_x = Returns (updated self (Vec3 2 0 0) about_x).
Proof.
apply: default_engine_update_returns.
by rewrite /= andbT; apply/RlebP; lra.
Defined.

End CovarianceKept.

(** ** The quaternion block of a default engine *)

Section QuaternionDecoupled.

Import GRing.Theory.
Import Scipy EKFFusionEngine.

Local Open Scope ring_scope.

(** The measurement row that observes a quaternion component of the
    state. *)
Lemma quaternion_row (i : 'I_16) :
  (6 <= i < 10)%N -> exists2 m : 'I_7, (3 <= m)%N & obs m = i.
Proof.
move=> Hi.
have Hm : (i - 3 < 7)%N by case: i Hi; do 16?[case=> //].
exists (Ordinal Hm) => /=; first by case: i Hi {Hm}; do 16?[case=> //].
apply: val_inj => /=.
by case: i Hi {Hm}; do 16?[case=> //].
Qed.

Lemma obs_quaternion (m : 'I_7) : (3 <= m)%N -> (6 <= obs m < 10)%N.
Proof. by case: m; do 7?[case=> //]. Qed.

(** The quaternion rows of the covariance are [a] times rows of the
    identity. *)
Definition quaternion_rows (self : EKFFusionEngine.t) (a : R) : Prop :=
  forall i j : 'I_16, (6 <= i < 10)%N ->
    covariance self i j = if i == j then a else 0.

(** A row of [S] that is a multiple of a unit row gives the same row of
    the inverse. *)
Lemma invmx_unit_row (n : nat) (S : 'M[R]_n) (m : 'I_n) (c : R) :
  S \in unitmx -> c <> 0 ->
  (forall j, S m j = if m == j then c else 0) ->
  forall j, invmx S m j = if m == j then c^-1 else 0.
Proof.
move=> HS Hc Hrow j; pose e : 'rV[R]_n := delta_mx 0 m.
have E : e *m S = c *: e.
  rewrite /e -rowE; apply/rowP => k; rewrite !mxE Hrow eqxx /= eq_sym.
  by case: (k == m); rewrite ?mulr1 ?mulr0.
have Hc' : c != 0 by exact/eqP.
have E' : e *m invmx S = c^-1 *: e.
  by rewrite -[X in X *m _ = _]scale1r -(mulVf Hc') -scalerA -E -scalemxAl (mulmxK HS).
have -> : invmx S m j = (e *m invmx S) 0 j by rewrite /e -rowE mxE.
rewrite E' !mxE eqxx /= eq_sym.
by case: (m == j); rewrite ?mulr1 ?mulr0.
Qed.

Variable self : EKFFusionEngine.t.
Variable a : R.

Hypothesis a_ge0 : (0 <= a)%Re.
Hypothesis P_rows : quaternion_rows self a.
Hypothesis R_default : Rn self = default_R.
Hypothesis S_unit : innovation_covariance self \in unitmx.

Let S := innovation_covariance self.
Let K := kalman_gain self (invmx S).
Let c : R := (a + 0.001)%Re.

Lemma c_neq0 : c <> 0.
Proof. by rewrite /c; toR; lra. Qed.

Lemma quaternion_S_row (m j : 'I_7) :
  (3 <= m)%N -> S m j = if m == j then c else 0.
Proof.
move=> Hm; rewrite /S innovation_covarianceE P_rows ?obs_quaternion //.
rewrite (inj_eq obs_inj) R_default.
case: eqP => [<-|/eqP Hmj].
  by rewrite default_R_diag ltnNge Hm.
by rewrite default_R_offdiag // addr0.
Qed.

Lemma quaternion_gain (m i : 'I_7) :
  (3 <= m)%N -> K (obs m) i = if m == i then a / c else 0.
Proof.
move=> Hm; rewrite /K /kalman_gain mxE (bigD1 m) //= big1 ?addr0.
  move=> l /negbTE Hl; rewrite mulmx_measurement_tr P_rows ?obs_quaternion //.
  by rewrite (inj_eq obs_inj) eq_sym Hl mul0r.
rewrite mulmx_measurement_tr P_rows ?obs_quaternion // eqxx.
rewrite (invmx_unit_row S_unit c_neq0 (fun j => quaternion_S_row j Hm)).
by case: (m == i); rewrite ?mulr0.
Qed.

(** The quaternion block before renormalisation: the predicted
    quaternion plus the fraction [a / (a + 0.001)] of the residual. *)
Lemma quaternion_corrected (y : 'cV[R]_7) (k : nat) :
  (k < 4)%N ->
  item (corrected_state self K y) (k + 6)
  = item (state self) (k + 6) + a / c * item y (k + 3).
Proof.
move=> Hk.
have Hk7 : (k + 3 < 7)%N by rewrite (@ltn_add2r 3 k 4).
pose m : 'I_7 := Ordinal Hk7.
have Hm : (3 <= m)%N by rewrite /= leq_addl.
have Hobs : (k + 6)%N = obs m :> nat.
  by rewrite /= /obs_index ltnNge leq_addl /= -addnA.
rewrite (item_val _ Hobs) (item_val _ Hobs) (@item_val _ _ _ m) //.
rewrite /corrected_state !mxE (bigD1 m) //= big1 ?addr0.
  by move=> l Hl; rewrite quaternion_gain // eq_sym (negbTE Hl) mul0r.
by rewrite quaternion_gain // eqxx.
Qed.

(** The quaternion rows of the posterior covariance. *)
Lemma quaternion_rows_updated (z : vec3) (r : Rotation) :
  quaternion_rows (updated self z r) (a * 0.001 / c)%Re.
Proof.
move=> i j Hi; have [m Hm Hobs] := quaternion_row Hi.
rewrite /updated /= mulmxBl mul1mx entryB -/S -/K.
have -> : (K *m measurement_matrix *m covariance self) i j
          = a / c * covariance self i j.
  rewrite mxE (bigD1 i) //= big1 ?addr0.
    move=> l /negbTE Hl; rewrite mxE big1 ?mul0r // => i' _.
    rewrite -Hobs quaternion_gain // measurement_matrixE.
    case: eqP => [<-|_]; last by rewrite mul0r.
    by rewrite Hobs Hl mulr0.
  congr (_ * _); rewrite mxE (bigD1 m) //= big1 ?addr0.
    move=> l /negbTE Hl; rewrite -Hobs quaternion_gain // eq_sym Hl mul0r.
    by [].
  by rewrite -Hobs quaternion_gain // eqxx measurement_matrixE eqxx mulr1.
rewrite P_rows //; case: (i == j); last by rewrite mulr0 subr0.
by have := c_neq0; rewrite /c; toR => Hc; field.
Qed.

End QuaternionDecoupled.

Section QuaternionKept.

Import GRing.Theory.
Import Scipy EKFFusionEngine.

Local Open Scope ring_scope.

Lemma unit_quat_norm4 (q : vec4) : norm4 q = 1%Re -> unit_quat q.
Proof. by move=> H; rewrite /unit_quat -norm4_sqr H; toR; lra. Qed.

(** A unit quaternion [h] moved by the fraction [g] of the residual the
    code computes against a unit quaternion [m] is never the zero
    quaternion, for [0 <= g < 1]. *)
Lemma blend_nonzero (h m : vec4) (g : R) :
  unit_quat h -> unit_quat m -> (0 <= g < 1)%Re ->
  let y k := if Rltb (dot4 m h) 0 then (get4 m k + get4 h k)%Re
             else (get4 m k - get4 h k)%Re in
  let v := Vec4 (a0 h + g * y 0%N)%Re (a1 h + g * y 1%N)%Re
                (a2 h + g * y 2%N)%Re (a3 h + g * y 3%N)%Re in
  dot4 v v <> 0%Re.
Proof.
move=> Hh Hm [Hg0 Hg1] y v; rewrite /v /y {v y}.
have Hd : (-1 <= dot4 m h)%Re.
  have := dot4_ge0 (add4 m h).
  have -> : dot4 (add4 m h) (add4 m h)
            = (dot4 m m + dot4 h h + 2 * dot4 m h)%Re by rewrite /dot4 /=; ring.
  by rewrite Hh Hm; lra.
case: RltbP => Hlt /=.
  set v := Vec4 _ _ _ _.
  have -> : dot4 v v = ((1 + g) * (1 + g) * dot4 h h + g * g * dot4 m m
                        + 2 * g * (1 + g) * dot4 m h)%Re.
    by rewrite /v /dot4 /=; ring.
  by rewrite Hh Hm; move: (dot4 m h) Hd Hlt => d Hd Hlt; nra.
set v := Vec4 _ _ _ _.
have -> : dot4 v v = ((1 - g) * (1 - g) * dot4 h h + g * g * dot4 m m
                      + 2 * g * (1 - g) * dot4 m h)%Re.
  by rewrite /v /dot4 /=; ring.
rewrite Hh Hm; move: (dot4 m h) Hd Hlt => d Hd Hlt.
have Hgg : (0 <= g * (1 - g))%Re by nra.
have Hggd : (0 <= g * (1 - g) * d)%Re by apply: Rmult_le_pos => //; lra.
have Hsq : (0 < (1 - g) * (1 - g))%Re by nra.
by nra.
Qed.

Variable self : EKFFusionEngine.t.
Variable a : R.

Hypothesis a_ge0 : (0 <= a)%Re.
Hypothesis P_rows : quaternion_rows self a.

(** The quaternion rows after [predict]. *)
Lemma quaternion_rows_predicted (dp dv : vec3) (dr : Rotation) (dt : R) :
  Qn self = default_Q ->
  quaternion_rows (predicted self dp dv dr dt) (a + 0.001 * dt)%Re.
Proof.
move=> HQ i j Hi; have /andP[Hi6 Hi10] := Hi.
have Hi3 : (3 <= i)%N by exact: leq_trans Hi6.
rewrite /predicted /= entryD [X in _ + X]mxE HQ.
have -> : (compute_state_transition_matrix dt *m covariance self
           *m (compute_state_transition_matrix dt)^T) i j
          = if i == j then a else 0.
  rewrite mxE (bigD1 i) //= big1 ?addr0.
    move=> l /negbTE Hl.
    have -> : (compute_state_transition_matrix dt *m covariance self) i l = 0.
      rewrite mxE (bigD1 i) //= big1 ?addr0.
        by move=> k /negbTE Hk; rewrite transition_row // eq_sym Hk mul0r.
      by rewrite transition_row // eqxx mul1r P_rows // eq_sym Hl.
    by rewrite mul0r.
  have -> : (compute_state_transition_matrix dt *m covariance self) i i = a.
    rewrite mxE (bigD1 i) //= big1 ?addr0.
      by move=> k /negbTE Hk; rewrite transition_row // eq_sym Hk mul0r.
    by rewrite transition_row // eqxx mul1r P_rows // eqxx.
  rewrite !mxE.
  have -> : (3 <= i < 6)%N = false by rewrite [(i < 6)%N]ltnNge Hi6 andbF.
  by rewrite andbF eq_sym; case: (i == j); rewrite ?mulr1 ?mulr0.
case: eqP => [<-|/eqP Hij]; last by rewrite default_Q_offdiag // mulr0 addr0.
rewrite default_Q_diag [(i < 6)%N]ltnNge Hi6 /= Hi10.
by toR; ring.
Qed.

Hypothesis R_default : Rn self = default_R.
Hypothesis S_unit : innovation_covariance self \in unitmx.
Hypothesis h_unit : unit_quat (slice4 (state self) 6).

(** After a returning [update] with a well-formed measured rotation the
    quaternion block is a unit quaternion. *)
Lemma updated_quaternion_unit (z : vec3) (r : Rotation) :
  wf r -> unit_quat (slice4 (state (updated self z r)) 6).
Proof.
move=> Hr; apply: unit_quat_norm4.
rewrite /updated [state _]/= slice4_renormalize; apply: norm4_normalize.
rewrite /slice4.
have Hq k := quaternion_corrected a_ge0 P_rows R_default S_unit
               (residual self z r) (k := k).
rewrite (Hq 0%N) // (Hq 1%N) // (Hq 2%N) // (Hq 3%N) // {Hq}.
rewrite (item_residual_quaternion _ _ _ (k := 0)) //.
rewrite (item_residual_quaternion _ _ _ (k := 1)) //.
rewrite (item_residual_quaternion _ _ _ (k := 2)) //.
rewrite (item_residual_quaternion _ _ _ (k := 3)) //.
have Hm : unit_quat (wxyz (as_quat r)) by rewrite /unit_quat dot4_wxyz.
have Hg : (0 <= a / (a + 0.001) < 1)%Re.
  have Hi : (0 < / (a + 0.001))%Re by apply: Rinv_0_lt_compat; lra.
  have Hci : ((a + 0.001) * / (a + 0.001) = 1)%Re by apply: Rinv_r; lra.
  by rewrite /Rdiv; move: (/ _)%Re Hi Hci => i Hi Hci; split; nra.
exact: (blend_nonzero h_unit Hm Hg).
Qed.

End QuaternionKept.

Section DefaultEngineNeverRaises.

Import GRing.Theory.
Import Scipy EKFFusionEngine.

Local Open Scope ring_scope.

(** A call as the orchestrator makes it: rotations of unit norm (every
    scipy [Rotation] is one) and a time step that is not negative. *)
Definition regular (c : call) : Prop :=
  match c with
  | Predict _ _ delta_rotation dt => wf delta_rotation /\ (0 <= dt)%Re
  | Update _ measured_rotation => wf measured_rotation
  end.

Fixpoint all_regular (calls : seq call) : Prop :=
  if calls is c :: calls then regular c /\ all_regular calls else True.

Lemma regular_forward (c : call) : regular c -> forward c.
Proof. by case: c => [dp dv dr dt [_ Hdt]|z r _] //=; exact/RlebP. Qed.

(** The invariant: default noise matrices, a unit state quaternion, and
    quaternion rows of the covariance that are a non-negative multiple of
    rows of the identity. *)
Definition healthy (self : EKFFusionEngine.t) : Prop :=
  [/\ default_noise self, unit_quat (slice4 (state self) 6)
    & exists2 a : R, (0 <= a)%Re & quaternion_rows self a].

Lemma engine0_healthy : healthy engine0.
Proof.
split; first exact: engine0_default_noise.
  by rewrite slice4_engine0 /unit_quat /dot4 /=; toR; ring.
exists 0.1%Re; first by lra.
by move=> i j Hi; rewrite /engine0 /init /= default_covarianceE.
Qed.

Lemma exec_healthy (self : EKFFusionEngine.t) (c : call) :
  regular c -> healthy self ->
  exists2 self', exec self c = Returns self' & healthy self'.
Proof.
move=> Hc [Hn Hq [a Ha Hrows]].
have Hn' := exec_default_noise (regular_forward Hc) Hn.
have [HQ HR [Psym Ppsd]] := Hn.
case: c Hc Hn' => [dp dv dr dt [Hdr Hdt]|z r Hr] /= Hn'.
  have Hq0 : dot4 (slice4 (state self) 6) (slice4 (state self) 6) <> 0%Re.
    by rewrite Hq; toR; lra.
  move: Hn'; rewrite (predict_returns _ _ _ _ Hq0) => Hn'.
  exists (predicted self dp dv dr dt) => //; split=> //.
    apply: unit_quat_norm4; rewrite predicted_orientation //.
    rewrite norm4_wxyz norm4_normalize //.
    by rewrite dot4_compose_quat dot4_xyzw Hq Hdr; toR; lra.
  exists (a + 0.001 * dt)%Re; first by nra.
  exact: quaternion_rows_predicted.
have HS : innovation_covariance self \in unitmx.
  apply: innovation_covariance_unit => //.
  by rewrite HR; exact: default_R_positive_diagonal.
move: Hn'; rewrite (update_returns _ _ HS) => Hn'.
exists (updated self z r) => //; split=> //.
  exact: (updated_quaternion_unit Ha Hrows).
exists (a * 0.001 / (a + 0.001))%Re; last exact: quaternion_rows_updated.
have Hi : (0 < / (a + 0.001))%Re by apply: Rinv_0_lt_compat; lra.
by rewrite /Rdiv; move: (/ _)%Re Hi => i Hi; nra.
Qed.

Lemma run_healthy (self : EKFFusionEngine.t) (calls : seq call) :
  all_regular calls -> healthy self -> healthy (run self calls).
Proof.
elim: calls self => [|c calls IH] self //= [Hc Hcalls] Hself.
apply: IH => //.
by have [self' -> ] := exec_healthy Hc Hself.
Qed.

(** X4.  On a default-constructed engine, after any sequence of calls
    that are each given a unit-norm rotation and a time step that is not
    negative, a further such [predict] or [update] returns (neither
    [ValueError] nor [LinAlgError]), and the orientation quaternion of
    the state has norm 1 after it. *)
Theorem default_engine_never_raises (calls : seq call) (c : call) :
  all_regular calls -> regular c ->
  exists2 self', exec (run engine0 calls) c = Returns self'
               & norm4 (slice4 (state self') 6) = 1%Re.
Proof.
move=> Hcalls Hc.
have [self' E [_ Hq _]] := exec_healthy Hc (run_healthy Hcalls engine0_healthy).
by exists self' => //; rewrite /norm4 Hq sqrt_1.
Qed.

Lemma default_engine_never_raises_witness :
  exists2 self',
    exec (run engine0 [:: Predict (Vec3 1 0 0) zeros3 about_x (0.5)%Re;
                          Update (Vec3 1 0 0) identity])
         (Update (Vec3 2 0 0) about_x) = Returns self'
    & norm4 (slice4 (state self') 6) = 1%Re.
Proof.
apply: default_engine_never_raises.
  by split; [split; [exact: wf_about_x | lra] | split; [exact: wf_identity |]].
exact: wf_about_x.
Defined.

End DefaultEngineNeverRaises.

(** ** Variances under [update] *)

Section VarianceShrinks.

Import GRing.Theory.
Import Scipy EKFFusionEngine.

Local Open Scope ring_scope.

(** A positive semidefinite matrix has no negative diagonal entry. *)
Lemma psd_diag_ge0 (n : nat) (A : 'M[R]_n) (i : 'I_n) :
  positive_semidefinite A -> (0 <= A i i)%Re.
Proof.
pose e : 'rV[R]_n := delta_mx 0 i.
move=> /(_ e); rewrite /qform /e -rowE.
have -> : (row i A *m e^T) 0 0 = A i i.
  rewrite mxE (bigD1 i) //= big1 ?addr0.
    by move=> k /negbTE Hk; rewrite !mxE Hk andbF mulr0.
  by rewrite !mxE !eqxx mulr1.
by [].
Qed.

(** X5.  [update] returns and lowers, or keeps, every variance: each diagonal
    entry of the posterior covariance lies between 0 and the entry of the
    prior, for all 16 state components, and [get_position_uncertainty]
    does not grow. *)
Theorem update_shrinks_variances (self : EKFFusionEngine.t)
    (measured_position : vec3) (measured_rotation : Rotation) :
  is_covariance (covariance self) -> positive_diagonal (Rn self) ->
  exists self' : EKFFusionEngine.t,
    [/\ update self measured_position measured_rotation = Returns self',
        forall i : 'I_16,
          (0 <= covariance self' i i <= covariance self i i)%Re
      & (get_position_uncertainty self' <= get_position_uncertainty self)%Re].
Proof.
move=> [Psym Ppsd] Rdiag.
have [Rsym Rpsd] := positive_diagonal_covariance Rdiag.
have Sunit := innovation_covariance_unit Ppsd Rdiag.
exists (updated self measured_position measured_rotation).
have Hle (i : 'I_16) :
    (covariance (updated self measured_position measured_rotation) i i
     <= covariance self i i)%Re.
  rewrite /updated /= mulmxBl mul1mx 2!mxE.
  by have := gain_diag_ge0 Psym Ppsd Rdiag i; toR; entries; lra.
split; first exact: update_returns.
  move=> i; split=> //; apply: psd_diag_ge0.
  exact: updated_covariance_psd.
by apply: sqrt_le_1_alt; apply: Rsum_le => i _; exact: Hle.
Qed.

Lemma update_shrinks_variances_witness :
  exists self' : EKFFusionEngine.t,
    [/\ update engine0 (Vec3 1 0 0) about_x = Returns self',
        forall i : 'I_16,
          (0 <= covariance self' i i <= covariance engine0 i i)%Re
      & (get_position_uncertainty self' <= get_position_uncertainty engine0)%Re].
Proof.
apply: update_shrinks_variances.
- exact: default_covariance_is_covariance.
- exact: default_R_positive_diagonal.
Defined.

End VarianceShrinks.

(** ** Calls that change nothing, and [reset] *)

Section FixedPoints.

Import GRing.Theory.
Import Scipy EKFFusionEngine.

Local Open Scope ring_scope.

Lemma get3_slice3 (x : 'cV[R]_16) (lo k : nat) :
  (k < 3)%N -> get3 (slice3 x lo) k = item x (lo + k).
Proof. by case: k => [|[|[|k]]] // _; rewrite /= ?addn0 ?addn1 ?addn2. Qed.

Lemma get4_slice4 (x : 'cV[R]_16) (lo k : nat) :
  (k < 4)%N -> get4 (slice4 x lo) k = item x (lo + k).
Proof.
by case: k => [|[|[|[|k]]]] // _; rewrite /= ?addn0 ?addn1 ?addn2 ?addn3.
Qed.

(** Dividing by its norm leaves a state with a unit quaternion as it
    is. *)
Lemma renormalize_unit (x : 'cV[R]_16) :
  unit_quat (slice4 x 6) -> renormalize x = x.
Proof.
move=> Hq; apply/colP => i; rewrite -!item_ord item_renormalize //.
case: ifP => // /andP[Hi6 Hi10].
rewrite (norm4_unit Hq) div4_1 get4_slice4 ?subnKC //.
by rewrite ltn_subLR.
Qed.

(** The residual of a measurement that repeats the estimate is zero. *)
Lemma residual_at_estimate (self : EKFFusionEngine.t) (r : Rotation) :
  unit_quat (slice4 (state self) 6) ->
  as_quat r = xyzw (slice4 (state self) 6) ->
  residual self (slice3 (state self) 0) r = 0.
Proof.
move=> Hq Hr; apply/colP => i; rewrite [RHS]mxE -item_ord.
case: (ltnP i 3) => Hi.
  by rewrite item_residual_position // get3_slice3 // add0n; toR; ring.
have Hk : (i - 3 < 4)%N by rewrite ltn_subLR.
rewrite -(subnK Hi) (item_residual_quaternion _ _ _ Hk) Hr xyzwK.
rewrite Hq; case: RltbP => [|_]; first by lra.
by toR; ring.
Qed.

(** X6.  An [update] with the position and the orientation of the estimate
    itself returns and leaves the state as it is. *)
Theorem update_at_estimate (self : EKFFusionEngine.t)
    (measured_rotation : Rotation) :
  innovation_covariance self \in unitmx ->
  unit_quat (slice4 (state self) 6) ->
  as_quat measured_rotation = xyzw (slice4 (state self) 6) ->
  exists2 self' : EKFFusionEngine.t,
    update self (slice3 (state self) 0) measured_rotation = Returns self'
    & state self' = state self.
Proof.
move=> HS Hq Hr.
exists (updated self (slice3 (state self) 0) measured_rotation).
  exact: update_returns.
rewrite /updated [state _]/= /corrected_state residual_at_estimate //.
by rewrite mulmx0 addr0 renormalize_unit.
Qed.

Lemma update_at_estimate_witness :
  exists2 self' : EKFFusionEngine.t,
    update engine0 (slice3 (state engine0) 0) identity = Returns self'
    & state self' = state engine0.
Proof.
apply: update_at_estimate.
- exact: engine0_S_unit.
- by rewrite slice4_engine0 /unit_quat /dot4 /=; toR; ring.
- by rewrite slice4_engine0.
Defined.

Lemma transition_matrix0 : compute_state_transition_matrix 0 = 1%:M.
Proof.
apply/matrixP => i j; rewrite !mxE.
case: ifP => // /andP[Hi /andP[Hj _]].
have -> : (i == j) = false.
  by apply/eqP => E; move: Hi Hj; rewrite E ltnNge => /negbTE ->.
by case: ifP.
Qed.

(** X7.  A [predict] with zero increments, the identity rotation and a zero
    time step returns and leaves state and covariance as they are, when
    the state quaternion has unit norm. *)
Theorem predict_nothing (self : EKFFusionEngine.t) :
  unit_quat (slice4 (state self) 6) ->
  predict self zeros3 zeros3 identity 0 = Returns self.
Proof.
move=> Hq.
have Hq0 : dot4 (slice4 (state self) 6) (slice4 (state self) 6) <> 0%Re.
  by rewrite Hq; toR; lra.
rewrite (predict_returns _ _ _ _ Hq0); congr Returns.
have Hu : unit_quat (slice4 (state (predicted self zeros3 zeros3 identity 0)) 6)
          /\ slice4 (state (predicted self zeros3 zeros3 identity 0)) 6
             = slice4 (state self) 6.
  rewrite predicted_orientation; [exact: Hq0 | exact: wf_identity |].
  have -> : compose_quat (xyzw (slice4 (state self) 6)) (as_quat identity)
            = xyzw (slice4 (state self) 6).
    by apply: vec4_eq; rewrite /compose_quat /=; ring.
  rewrite normalize_id ?xyzwK //.
  by rewrite /unit_quat dot4_xyzw.
case: self Hq Hq0 Hu => x P Q Rm /= Hq Hq0 [_ Hu].
rewrite /predicted /= transition_matrix0 mul1mx trmx1 mulmx1 scale0r addr0.
congr Make.
apply/colP => i; rewrite -!item_ord.
rewrite item_renormalize //; case: ifP => [/andP[Hi6 Hi10]|Hi].
  rewrite -slice4_renormalize Hu get4_slice4 ?subnKC //.
  by rewrite ltn_subLR.
rewrite !(item_set_slice3, item_set_slice4) // Hi.
move: Hi; case: i => m Hm /=.
by do 16?[case: m Hm => [|m] Hm //=]; move=> _; lra.
Qed.

Lemma predict_nothing_witness :
  predict engine0 zeros3 zeros3 identity 0 = Returns engine0.
Proof.
apply: predict_nothing.
by rewrite slice4_engine0 /unit_quat /dot4 /=; toR; ring.
Defined.

(** X8.  [get_state] after [reset]: the position and the orientation given to
    [reset] (the origin and the identity by default), zero velocity and
    zero biases; the covariance is [0.1 * I] again, the noise matrices
    are kept. *)
Theorem reset_get_state (self : EKFFusionEngine.t)
    (position : option vec3) (orientation : option Rotation) :
  (if orientation is Some r then wf r else True) ->
  let p := if position is Some p then p else zeros3 in
  let r := if orientation is Some r then r else identity in
  let self' := reset self position orientation in
  [/\ get_state self'
      = Ok (StateDict p zeros3 r (wxyz (as_quat r)) zeros3 zeros3),
      covariance self' = default_covariance,
      Qn self' = Qn self & Rn self' = Rn self].
Proof.
move=> Hr.
have Hwf : wf (if orientation is Some r then r else identity).
  by case: orientation Hr => // _; exact: wf_identity.
pose x0 : 'cV[R]_16 := if position is Some p then set_slice3 0 0 p else 0.
have Hstate : state (reset self position orientation)
    = set_slice4 x0 6
        (wxyz (as_quat (if orientation is Some r then r else identity))).
  by rewrite /reset /x0; case: orientation {Hr Hwf}.
move: Hwf Hstate; move: (if orientation is Some r then r else identity) => r.
move=> Hwf Hstate p r' self'; rewrite {}/r'; split=> //.
have Hx0 k : (k < 16)%N ->
    item x0 k = if (k < 3)%N then get3 p k else 0.
  move=> Hk; rewrite /x0 /p; case: (position) => [q|].
    rewrite item_set_slice3 //= add0n subn0; case: ifP => // _.
    by rewrite /item mxE.
  by rewrite /item mxE; case: ifP => // _; case: k Hk => [|[|[|k]]].
rewrite /get_state Hstate.
have -> : slice4 (set_slice4 x0 6 (wxyz (as_quat r))) 6 = wxyz (as_quat r).
  by rewrite /slice4 !item_set_slice4.
have -> : Vec4 (a1 (wxyz (as_quat r))) (a2 (wxyz (as_quat r)))
               (a3 (wxyz (as_quat r))) (a0 (wxyz (as_quat r)))
          = as_quat r by case: (as_quat r).
have Hq0 : dot4 (as_quat r) (as_quat r) <> 0%Re by rewrite Hwf; toR; lra.
rewrite (from_quat_ok Hq0) normalize_id //.
have -> : MkRotation (as_quat r) = r by case: (r).
congr (Ok (StateDict _ _ _ _ _ _)); rewrite /slice3 !item_set_slice4 //= !Hx0 //=.
by case: (p).
Qed.

Lemma reset_get_state_witness :
  let self' := reset engine3 (Some (Vec3 1 2 3)) (Some about_x) in
  [/\ get_state self'
      = Ok (StateDict (Vec3 1 2 3) zeros3 about_x (wxyz (as_quat about_x))
                      zeros3 zeros3),
      covariance self' = default_covariance,
      Qn self' = Qn engine3 & Rn self' = Rn engine3].
Proof.
apply: (@reset_get_state engine3 (Some (Vec3 1 2 3)) (Some about_x)).
exact: wf_about_x.
Defined.

End FixedPoints.

(** * Further properties of [IMUProcessor] *)

(** ** The rotation [preintegrate] returns *)

Section PreintegrateRotation.

Import Scipy IMUProcessor.

Local Open Scope R_scope.

(** The quaternion [from_rotvec] builds is never zero: it has norm 1 above
    the series threshold, and a positive scalar part below it. *)
Lemma from_rotvec_nonzero (v : vec3) :
  dot4 (as_quat (from_rotvec v)) (as_quat (from_rotvec v)) <> 0.
Proof.
rewrite /from_rotvec; cbv zeta.
set angle := norm3 v.
have Ha : 0 <= angle by exact: sqrt_pos.
have Hsq : angle * angle = v0 v * v0 v + v1 v * v1 v + v2 v * v2 v.
  by rewrite /angle /norm3; apply: sqrt_sqrt; nra.
case: RlebP => Hsmall.
  have Hc : 0 < cos (angle / 2).
    by have := PI2_1; move=> Hpi; apply: cos_gt_0; lra.
  rewrite /dot4 /=; move: (cos _) Hc (_ - _ + _) => c Hc s.
  by nra.
have Ha0 : angle <> 0 by lra.
set s := sin (angle / 2) / angle; set c := cos (angle / 2).
have -> : dot4 (Vec4 (s * v0 v) (s * v1 v) (s * v2 v) c)
               (Vec4 (s * v0 v) (s * v1 v) (s * v2 v) c)
          = s * s * (angle * angle) + c * c.
  by rewrite Hsq /dot4 /=; ring.
have -> : s * s * (angle * angle) = sin (angle / 2) * sin (angle / 2).
  by rewrite /s; field.
by have := sin2_cos2 (angle / 2); rewrite /Rsqr -/c => ->; lra.
Qed.

(** Composing with a gyro increment keeps the running rotation of unit
    norm. *)
Lemma wf_advance_rotation (self : IMUProcessor.t) (rot : Rotation)
    (gyro : vec3) (dt : R) :
  wf rot -> wf (advance_rotation self rot gyro dt).
Proof.
move=> Hrot; rewrite /advance_rotation /wf /mul /=; apply: normalize_unit.
rewrite dot4_compose_quat Hrot Rmult_1_l.
exact: from_rotvec_nonzero.
Qed.

Lemma wf_run_steps (self : IMUProcessor.t) (st : loop_state)
    (steps : seq (vec3 * vec3 * R)) :
  wf (current_rotation st) -> wf (current_rotation (run_steps self st steps)).
Proof.
elim: steps st => [|s steps IH] st //= Hst.
by apply: IH; rewrite /integrate_step; exact: wf_advance_rotation.
Qed.

Lemma wf_preintegrate (self : IMUProcessor.t)
    (gyro accel : seq sample) (r : Rotation) :
  wf r -> wf (preintegrate self gyro accel (Some r)).2.2.
Proof.
move=> Hr; rewrite /preintegrate; cbv zeta.
rewrite [X in wf X]/= integrate_loop_schedule.
by apply: wf_mul; [exact: wf_inv | exact: wf_run_steps].
Qed.

(** X11.  Whatever the samples, the rotation [preintegrate] returns and stores
    has unit norm when the starting rotation has (a scipy [Rotation]
    always has); it is fit to be handed to [predict]. *)
Theorem preintegrate_rotation_wf (self : IMUProcessor.t)
    (gyro accel : seq sample) (initial_rotation : option Rotation) :
  (if initial_rotation is Some r then wf r else True) ->
  let: (self', (_, _, delta_rot)) :=
    preintegrate self gyro accel initial_rotation in
  wf delta_rot /\ delta_rotation self' = delta_rot.
Proof.
move=> Hr; rewrite /preintegrate; cbv zeta; split=> //.
have Hwf : wf (if initial_rotation is Some r then r else identity).
  by case: initial_rotation Hr => // _; exact: wf_identity.
rewrite integrate_loop_schedule.
by apply: wf_mul; [exact: wf_inv | exact: wf_run_steps].
Qed.

Lemma preintegrate_rotation_wf_witness :
  let: (self', (_, _, delta_rot)) :=
    preintegrate (init None None None)
      [:: (0, Vec3 0.01 0 0); (0.005, Vec3 0.01 0 0)]
      [:: (0, Vec3 0 0 9.81); (0.005, Vec3 0 0 9.81)] (Some about_x) in
  wf delta_rot /\ delta_rotation self' = delta_rot.
Proof.
apply: (@preintegrate_rotation_wf (init None None None)
          [:: (0, Vec3 0.01 0 0); (0.005, Vec3 0.01 0 0)]
          [:: (0, Vec3 0 0 9.81); (0.005, Vec3 0 0 9.81)] (Some about_x)).
exact: wf_about_x.
Defined.

End PreintegrateRotation.

(** ** Readings that cancel *)

Section CancellingReadings.

Import Scipy IMUProcessor.

Local Open Scope R_scope.

(** Equality of two arrays of shape (3,), component by component. *)
Definition eq3 (u v : vec3) : bool :=
  [&& v0 u == v0 v, v1 u == v1 v & v2 u == v2 v].

Lemma eq3P (u v : vec3) : reflect (u = v) (eq3 u v).
Proof.
apply: (iffP and3P) => [[/eqP H0 /eqP H1 /eqP H2]|->]; first exact: vec3_eq.
by split.
Qed.

(** The samples of a list all carry the reading [v]. *)
Definition reads (v : vec3) (ms : seq sample) : bool :=
  all (fun s : sample => eq3 s.2 v) ms.

Lemma reads_sorted (v : vec3) (ms : seq sample) :
  reads v (sorted_by_time ms) = reads v ms.
Proof. exact: all_sort. Qed.

Lemma reads_nth (v : vec3) (ms : seq sample) (k : nat) :
  reads v ms -> (k < size ms)%N -> (nth sample0 ms k).2 = v.
Proof. by move=> /all_nthP H Hk; apply/eq3P; exact: H. Qed.

Variable self : IMUProcessor.t.

Let unmoved (t : R) : loop_state := LoopState identity zeros3 zeros3 t.

(** One step on readings that cancel the biases and the gravity term. *)
Lemma rest_step (dt t : R) :
  integrate_step self (gyro_bias self) (add3 (accel_bias self) (gravity self))
    dt (unmoved t)
  = unmoved (t + dt).
Proof.
rewrite /integrate_step /unmoved.
rewrite [current_rotation (LoopState _ _ _ _)]/=.
have -> : advance_rotation self identity (gyro_bias self) dt = identity.
  rewrite /advance_rotation.
  have -> : scale3 (sub3 (gyro_bias self) (gyro_bias self)) dt = zeros3.
    by apply: vec3_eq => /=; ring.
  by rewrite from_rotvec_zeros mul_identity_r //; exact: wf_identity.
have -> : accel_world self identity (add3 (accel_bias self) (gravity self))
          = zeros3.
  by rewrite /accel_world apply_identity; apply: vec3_eq => /=; ring.
by congr LoopState; apply: vec3_eq => /=; ring.
Qed.

Lemma rest_loop (gyro accel : seq sample) (fuel gyro_idx accel_idx : nat) (t : R) :
  reads (gyro_bias self) gyro ->
  reads (add3 (accel_bias self) (gravity self)) accel ->
  exists t', integrate_loop self gyro accel fuel gyro_idx accel_idx (unmoved t)
             = unmoved t'.
Proof.
move=> Hg Ha; elim: fuel gyro_idx accel_idx t => [|fuel IH] gi ai t.
  by exists t.
case Hgi: (gi.+1 < size gyro)%N; last first.
  by exists t; rewrite integrate_loop_exit // Hgi.
case Hai: (ai.+1 < size accel)%N; last first.
  by exists t; rewrite integrate_loop_exit // Hai andbF.
rewrite integrate_loop_iter //.
rewrite (reads_nth Hg (ltnW Hgi)) (reads_nth Ha (ltnW Hai)) rest_step.
by do 2![case: ifP => _]; exact: IH.
Qed.

End CancellingReadings.

(** X12.  Readings that cancel.  When every gyro sample reads the gyro
    bias and every accelerometer sample reads the accelerometer bias plus
    [self.gravity] (with the default gravity that is [[0, 0, -9.81]]), and
    the integration starts from the identity (given or by default),
    [preintegrate] returns the zero delta, whatever the timestamps and
    the number of samples. *)
Theorem preintegrate_cancelling_readings (self : IMUProcessor.t)
    (gyro accel : seq IMUProcessor.sample)
    (initial_rotation : option Scipy.Rotation) :
  (if initial_rotation is Some r then r = Scipy.identity else True) ->
  reads (IMUProcessor.gyro_bias self) gyro ->
  reads (add3 (IMUProcessor.accel_bias self) (IMUProcessor.gravity self)) accel ->
  (IMUProcessor.preintegrate self gyro accel initial_rotation).2
  = (zeros3, zeros3, Scipy.identity).
Proof.
move=> Hr Hg Ha; rewrite /IMUProcessor.preintegrate; cbv zeta.
have -> : (if initial_rotation is Some r then r else Scipy.identity)
          = Scipy.identity by case: initial_rotation Hr.
rewrite -reads_sorted in Hg; rewrite -reads_sorted in Ha.
set fuel := (_ + _)%N.
have [t' ->] := @rest_loop (IMUProcessor.reset_integration self) _ _
                  fuel 0%N 0%N 0%Re Hg Ha.
by rewrite /= mul_inv_l //; exact: wf_identity.
Qed.

Lemma preintegrate_cancelling_readings_witness :
  (IMUProcessor.preintegrate (IMUProcessor.init None None None)
     [:: (0%Re, zeros3); (0.005%Re, zeros3); (0.01%Re, zeros3)]
     [:: (0%Re, Vec3 0 0 (- 9.81)); (0.005%Re, Vec3 0 0 (- 9.81));
         (0.01%Re, Vec3 0 0 (- 9.81))] None).2
  = (zeros3, zeros3, Scipy.identity).
Proof.
apply: preintegrate_cancelling_readings => //.
  by rewrite /reads /= /eq3 /= !eqxx.
by rewrite /reads /= /eq3 /= !Rplus_0_l !eqxx.
Defined.

(** ** Total time, and streams with common timestamps *)

Section TotalTime.

Import Scipy IMUProcessor.

Local Open Scope R_scope.

(** The sum of the durations of a schedule. *)
Definition durations (steps : seq (vec3 * vec3 * R)) : R :=
  foldr (fun s x => s.2 + x) 0 steps.

Lemma acc_dt_run_steps (self : IMUProcessor.t) (st : loop_state)
    (steps : seq (vec3 * vec3 * R)) :
  acc_dt (run_steps self st steps) = acc_dt st + durations steps.
Proof.
elim: steps st => [|s steps IH] st /=; first by ring.
by rewrite -/(run_steps self _ steps) IH /=; ring.
Qed.

Lemma durations_ge0 (steps : seq (vec3 * vec3 * R)) :
  all (fun s => Rltb 0 s.2) steps ->
  0 <= durations steps /\ (durations steps = 0 -> steps = [::]).
Proof.
elim: steps => [|s steps IH] /=; first by split=> //; lra.
by move=> /andP[/RltbP Hs /IH [H0 _]]; split; lra.
Qed.

(** The total time [preintegrate] stores is the sum of the durations of
    the steps it integrated. *)
Lemma preintegrate_dt_total (self : IMUProcessor.t) (gyro accel : seq sample)
    (initial_rotation : option Rotation) :
  dt_total (preintegrate self gyro accel initial_rotation).1
  = durations
      (integration_steps (sorted_by_time gyro) (sorted_by_time accel)
         (size (sorted_by_time gyro) + size (sorted_by_time accel)) 0 0).
Proof.
rewrite /preintegrate; cbv zeta.
by rewrite [dt_total _]/= integrate_loop_schedule acc_dt_run_steps /=; ring.
Qed.

(** X13.  The total integration time [preintegrate] stores in
    [self.dt_total], which [get_integration_info] reports as
    ['total_time'], is never negative, whatever the timestamps; and when
    it is zero no step was integrated: the position and velocity changes,
    returned and stored, are zero. *)
Theorem preintegrate_total_time (self : IMUProcessor.t)
    (gyro accel : seq sample) (initial_rotation : option Rotation) :
  let: (self', (delta_pos, delta_vel, _)) :=
    preintegrate self gyro accel initial_rotation in
  0 <= dt_total self'
  /\ (dt_total self' = 0 ->
      [/\ delta_pos = zeros3, delta_vel = zeros3,
          delta_position self' = zeros3 & delta_velocity self' = zeros3]).
Proof.
have := preintegrate_dt_total self gyro accel initial_rotation.
rewrite /preintegrate; cbv zeta; rewrite [dt_total _]/= => ->.
rewrite [delta_position _]/= [delta_velocity _]/=.
set steps := integration_steps _ _ _ _ _.
have [H0 Hnil] := durations_ge0 (integration_steps_dt _ _ _ _ _ : all _ steps).
split=> // /Hnil E.
by rewrite integrate_loop_schedule -/steps E.
Qed.

Variables gyro accel : seq sample.

Let t (k : nat) : R := (nth sample0 gyro k).1.
Let n : nat := size gyro.

(** The two streams carry the same timestamps, strictly increasing. *)
Hypothesis increasing : sorted (fun s1 s2 : sample => Rltb s1.1 s2.1) gyro.
Hypothesis aligned : [seq s.1 | s <- accel] = [seq s.1 | s <- gyro].

Lemma aligned_size : size accel = n.
Proof. by rewrite /n -(size_map fst accel) aligned size_map. Qed.

Lemma aligned_time (k : nat) : (nth sample0 accel k).1 = t k.
Proof.
case: (ltnP k n) => Hk.
  rewrite /t -(nth_map _ 0) ?aligned_size // aligned.
  by rewrite (nth_map sample0).
by rewrite /t !nth_default // aligned_size.
Qed.

Lemma increasing_time (k : nat) : (k.+1 < n)%N -> t k < t k.+1.
Proof. by move=> Hk; apply/RltbP; exact: (sortedP sample0 increasing). Qed.

Lemma aligned_sorted_gyro : sorted_by_time gyro = gyro.
Proof.
apply: (sorted_sort by_time_trans).
apply: sub_sorted increasing => s1 s2 /RltbP H.
by apply/RlebP; lra.
Qed.

Lemma aligned_sorted_accel : sorted_by_time accel = accel.
Proof.
apply: (sorted_sort by_time_trans).
have -> : sorted by_time accel = sorted Rleb [seq s.1 | s <- accel].
  by rewrite sorted_map.
rewrite aligned sorted_map.
apply: sub_sorted increasing => s1 s2 /RltbP H.
by apply/RlebP; lra.
Qed.

(** From equal indices [(k, k)]: one step over [t k, t k.+1], and the
    gyro index advances. *)
Lemma steps_aligned (fuel k : nat) :
  (k.+1 < n)%N ->
  integration_steps gyro accel fuel.+1 k k
  = ((nth sample0 gyro k).2, (nth sample0 accel k).2, t k.+1 - t k)
      :: integration_steps gyro accel fuel k.+1 k.
Proof.
move=> Hk; have Ht := increasing_time Hk.
rewrite /= aligned_size -/n Hk /= !aligned_time -!/(t _).
rewrite !Rmin_left; try lra.
by rewrite (Rleb_true (Rle_refl _)) Rleb_false //; lra.
Qed.

(** From [(k.+1, k)]: the same interval [t k, t k.+1] once more, with the
    next gyro reading, and the accelerometer index catches up. *)
Lemma steps_staggered (fuel k : nat) :
  (k.+2 < n)%N ->
  integration_steps gyro accel fuel.+1 k.+1 k
  = ((nth sample0 gyro k.+1).2, (nth sample0 accel k).2, t k.+1 - t k)
      :: integration_steps gyro accel fuel k.+1 k.+1.
Proof.
move=> Hk; have Hk' : (k.+1 < n)%N by exact: ltnW.
have Ht := increasing_time Hk'; have Ht' := increasing_time Hk.
rewrite /= aligned_size -/n Hk Hk' /= !aligned_time -!/(t _).
rewrite (Rmin_right (t k.+2)) ?(Rmin_right (t k.+1)); try lra.
by rewrite !Rleb_false //; lra.
Qed.

Lemma steps_exit (fuel k : nat) :
  (k.+2 = n)%N -> integration_steps gyro accel fuel k.+1 k = [::].
Proof. by move=> Hn; case: fuel => [|fuel] //=; rewrite -/n -Hn ltnn. Qed.

(** The durations of the schedule from [(k, k)] on, when [e + 2] samples
    are left: twice every interval but the last. *)
Lemma aligned_durations (e k fuel : nat) :
  ((k + e).+2 = n)%N -> ((e.*2).+1 <= fuel)%N ->
  durations (integration_steps gyro accel fuel k k)
  = 2 * (t (k + e) - t k) + (t (k + e).+1 - t (k + e)).
Proof.
elim: e k fuel => [|e IH] k [|fuel] // Hn Hfuel.
  rewrite addn0 in Hn *; rewrite steps_aligned -?Hn // steps_exit //=.
  by ring.
case: fuel Hfuel => [|fuel] // Hfuel.
have H1 : (k.+1 < n)%N by rewrite -Hn !ltnS leq_addr.
have H2 : (k.+2 < n)%N by rewrite -Hn !ltnS addnS ltnS leq_addr.
have H3 : ((e.*2).+1 <= fuel)%N by move: Hfuel; rewrite doubleS !ltnS.
rewrite steps_aligned // steps_staggered //= (IH k.+1) //.
  by rewrite addSn -addnS.
by rewrite addSn -addnS; ring.
Qed.

End TotalTime.

(** X14.  Streams with common timestamps, as [simulate_imu_data] produces them.
    When the gyro and the accelerometer samples carry the same strictly
    increasing timestamps [t 0 < ... < t (n-1)], [n >= 2], the loop
    integrates every interval but the last twice: the total integration
    time is [2 (t (n-2) - t 0) + (t (n-1) - t (n-2))], not
    [t (n-1) - t 0]. *)
Theorem aligned_streams_total_time (self : IMUProcessor.t)
    (gyro accel : seq IMUProcessor.sample)
    (initial_rotation : option Scipy.Rotation) :
  sorted (fun s1 s2 : IMUProcessor.sample => Rltb s1.1 s2.1) gyro ->
  [seq s.1 | s <- accel] = [seq s.1 | s <- gyro] ->
  (2 <= size gyro)%N ->
  let t k := (nth IMUProcessor.sample0 gyro k).1 in
  let n := size gyro in
  IMUProcessor.dt_total
    (IMUProcessor.preintegrate self gyro accel initial_rotation).1
  = (2 * (t (n - 2)%N - t 0%N) + (t (n - 1)%N - t (n - 2)%N))%Re.
Proof.
move=> Hinc Hal Hn t n.
have [m Em] : exists m, n = m.+2.
  by rewrite /n; case: (size gyro) Hn => [|[|m]] // _; exists m.
rewrite preintegrate_dt_total (aligned_sorted_gyro Hinc).
rewrite (aligned_sorted_accel Hinc Hal) (aligned_size Hal) -/n Em.
rewrite (@aligned_durations gyro accel Hinc Hal m 0) ?add0n -/n ?Em //.
  by rewrite addnn doubleS !ltnS leqW // leqW.
by rewrite -/t subn2 subn1.
Qed.

Lemma aligned_streams_total_time_witness :
  IMUProcessor.dt_total
    (IMUProcessor.preintegrate (IMUProcessor.init None None None)
       [:: (0%Re, zeros3); (1%Re, zeros3); (3%Re, zeros3)]
       [:: (0%Re, zeros3); (1%Re, zeros3); (3%Re, zeros3)] None).1
  = (2 * (1 - 0) + (3 - 1))%Re.
Proof.
apply: (@aligned_streams_total_time (IMUProcessor.init None None None)
          [:: (0%Re, zeros3); (1%Re, zeros3); (3%Re, zeros3)]
          [:: (0%Re, zeros3); (1%Re, zeros3); (3%Re, zeros3)] None) => //.
by rewrite /= andbT; apply/andP; split; apply/RltbP; lra.
Defined.

(** * Properties of [AprilTagDetector.get_pose_from_tag_id] *)

Section TagLookup.

Import AprilTagDetector.

(** The detection carries the tag id. *)
Definition carries (id : BinNums.Z) (d : detection) : bool :=
  BinInt.Z.eqb (tag_id d) id.

(** X15.  [get_pose_from_tag_id] returns the translation and the rotation
    matrix of the first detection that carries the tag id, later ones with
    the same id are not looked at; it returns [None] exactly when no
    detection carries the id (the empty list included). *)
Theorem get_pose_from_tag_id_first (detections : seq detection) (id : BinNums.Z) :
  get_pose_from_tag_id detections id
  = omap (fun d => (translation d, rotation_matrix d))
         (ohead (filter (carries id) detections))
  /\ (get_pose_from_tag_id detections id = None
      <-> ~~ has (carries id) detections).
Proof.
elim: detections => [|d ds [IH1 IH2]] //=.
by rewrite -/(carries id d); case: (carries id d).
Qed.

End TagLookup.

(** * Properties of [VIOSystem] *)

Section Orchestrator.

Import GRing.Theory.
Import Scipy AprilTagDetector.

Local Open Scope ring_scope.

(** [get_state] on a state whose quaternion has unit norm. *)
Lemma get_state_unit (self : EKFFusionEngine.t) :
  unit_quat (EKFFusionEngine.slice4 (EKFFusionEngine.state self) 6) ->
  exists2 sd : EKFFusionEngine.state_dict,
    EKFFusionEngine.get_state self = Ok sd
    & wf (EKFFusionEngine.orientation sd)
      /\ EKFFusionEngine.quaternion sd
         = EKFFusionEngine.slice4 (EKFFusionEngine.state self) 6.
Proof.
move=> Hq; rewrite /EKFFusionEngine.get_state.
set q := EKFFusionEngine.slice4 _ 6 in Hq *.
have Hx : unit_quat (xyzw q) by rewrite /unit_quat dot4_xyzw.
have Hq0 : dot4 (xyzw q) (xyzw q) <> 0%Re by rewrite Hx; toR; lra.
rewrite -/(xyzw q) (from_quat_ok Hq0) normalize_id //.
by eexists; first by []. 
Qed.

(** The arguments of one [process_frame] call. *)
Record frame : Type := Frame {
  detected : seq detection;
  time : R;
  gyro_measurements : seq IMUProcessor.sample;
  accel_measurements : seq IMUProcessor.sample
}.

Variable from_matrix : 'M[R]_3 -> Rotation.

Definition feed (self : VIOSystem.t) (f : frame) : VIOSystem.outcome VIOSystem.pose :=
  VIOSystem.process_frame from_matrix self (detected f) (time f)
    (gyro_measurements f) (accel_measurements f).

(** A sequence of frames on one system; after a raise the system takes
    the next frame as the raise left it. *)
Definition run_frames (self : VIOSystem.t) (frames : seq frame) : VIOSystem.t :=
  foldl (fun self f => VIOSystem.after (feed self f)) self frames.

(** *** [reset] after any history *)

(** What no frame changes: the noise matrices of the filter, the biases
    and the gravity vector of the IMU processor. *)
Definition configured (self : VIOSystem.t) : Prop :=
  [/\ EKFFusionEngine.Qn (VIOSystem.ekf self) = EKFFusionEngine.default_Q,
      EKFFusionEngine.Rn (VIOSystem.ekf self) = EKFFusionEngine.default_R,
      IMUProcessor.gyro_bias (VIOSystem.imu_processor self) = zeros3,
      IMUProcessor.accel_bias (VIOSystem.imu_processor self) = zeros3
    & IMUProcessor.gravity (VIOSystem.imu_processor self)
      = Vec3 0 0 (- 9.81)%Re].

Lemma noise_after_predict (self : EKFFusionEngine.t) dp dv dr dt :
  let self' := EKFFusionEngine.after (EKFFusionEngine.predict self dp dv dr dt) in
  EKFFusionEngine.Qn self' = EKFFusionEngine.Qn self
  /\ EKFFusionEngine.Rn self' = EKFFusionEngine.Rn self.
Proof. by case: (predict_cases self dp dv dr dt) => ->. Qed.

Lemma noise_after_update (self : EKFFusionEngine.t) z r :
  let self' := EKFFusionEngine.after (EKFFusionEngine.update self z r) in
  EKFFusionEngine.Qn self' = EKFFusionEngine.Qn self
  /\ EKFFusionEngine.Rn self' = EKFFusionEngine.Rn self.
Proof. by case: (update_cases self z r) => -[_ ->]. Qed.

Lemma configured_imu_prediction (self : VIOSystem.t) (timestamp : R)
    (gyro accel : seq IMUProcessor.sample) :
  configured self ->
  configured (VIOSystem.after (VIOSystem.imu_prediction self timestamp gyro accel)).
Proof.
move=> Hc; rewrite /VIOSystem.imu_prediction.
case: (VIOSystem.last_frame_time self) => [last|] //.
case: ifP => // _; case: (EKFFusionEngine.get_state _) => [sd|e] //.
have [HQ HR Hgb Hab Hg] := Hc.
set pre := IMUProcessor.preintegrate _ _ _ _.
have Hpre : [/\ IMUProcessor.gyro_bias pre.1 = zeros3,
                IMUProcessor.accel_bias pre.1 = zeros3
              & IMUProcessor.gravity pre.1 = Vec3 0 0 (- 9.81)%Re].
  by rewrite /pre /IMUProcessor.preintegrate.
case: pre Hpre => imu [[dp dv] dr] /= [Igb Iab Ig].
have := noise_after_predict (VIOSystem.ekf self) dp dv dr (timestamp - last)%Re.
by case: (EKFFusionEngine.predict _ _ _ _ _) => [ekf|e ekf] /= [EQ ER];
   split=> //=; rewrite ?EQ ?ER.
Qed.

Lemma configured_tag_update (self : VIOSystem.t) (ds : seq detection) :
  configured self ->
  configured (VIOSystem.after (VIOSystem.tag_update from_matrix self ds)).
Proof.
move=> Hc; rewrite /VIOSystem.tag_update; case: ds => [|d ds] //.
have [HQ HR Hgb Hab Hg] := Hc.
have := noise_after_update (VIOSystem.ekf self) (translation d)
          (from_matrix (rotation_matrix d)).
by case: (EKFFusionEngine.update _ _ _) => [ekf|e ekf] /= [EQ ER];
   split=> //=; rewrite ?EQ ?ER.
Qed.

Lemma configured_feed (self : VIOSystem.t) (f : frame) :
  configured self -> configured (VIOSystem.after (feed self f)).
Proof.
move=> Hc; rewrite /feed /VIOSystem.process_frame.
set self1 := VIOSystem.Make _ _ _ _.
have H1 : configured self1 by [].
have := configured_imu_prediction (time f) (gyro_measurements f)
          (accel_measurements f) H1.
case: (VIOSystem.imu_prediction _ _ _ _) => [self2 []|e self2] //= H2.
have := configured_tag_update (detected f) H2.
case: (VIOSystem.tag_update _ _ _) => [self3 []|e self3] //= H3.
by case: (EKFFusionEngine.get_state _) => [sd|e].
Qed.

Lemma configured_run_frames (self : VIOSystem.t) (frames : seq frame) :
  configured self -> configured (run_frames self frames).
Proof.
elim: frames self => [|f frames IH] self //= Hc.
by apply: IH; exact: configured_feed.
Qed.

Lemma reset_configured (self : VIOSystem.t) :
  configured self -> VIOSystem.reset self = VIOSystem.init.
Proof.
case: self => -[gb ab g dp dv dr dt] [x P Q Rm] last count.
by rewrite /configured /= => -[-> -> -> -> ->].
Qed.

(** *** Frames in time order *)

(** The frame time [t] is not before the last frame of the system. *)
Definition not_before (self : VIOSystem.t) (t : R) : Prop :=
  match VIOSystem.last_frame_time self with
  | Some last => (last <= t)%Re
  | None => True
  end.

(** The frame times [ts] are in order, from the last frame of the system
    on. *)
Definition in_order (self : VIOSystem.t) (ts : seq R) : bool :=
  match VIOSystem.last_frame_time self with
  | Some last => path Rleb last ts
  | None => sorted Rleb ts
  end.

Lemma feed_healthy (self : VIOSystem.t) (f : frame) :
  (forall m, wf (from_matrix m)) ->
  healthy (VIOSystem.ekf self) ->
  not_before self (time f) ->
  exists self' p,
    [/\ feed self f = VIOSystem.Returns self' p,
        healthy (VIOSystem.ekf self'),
        VIOSystem.last_frame_time self' = Some (time f),
        VIOSystem.frame_count self' = (VIOSystem.frame_count self).+1
      & [/\ norm4 (VIOSystem.quaternion p) = 1%Re,
            wf (VIOSystem.orientation p),
            (0 <= VIOSystem.uncertainty p)%Re,
            VIOSystem.detections p = size (detected f)
          & VIOSystem.timestamp p = time f]].
Proof.
move=> Hfm Hh Ht; rewrite /feed /VIOSystem.process_frame.
set self1 := VIOSystem.Make _ _ _ _.
have [self2 [E2 H2 L2 C2]] :
    exists self2,
      [/\ VIOSystem.imu_prediction self1 (time f) (gyro_measurements f)
            (accel_measurements f) = VIOSystem.Returns self2 tt,
          healthy (VIOSystem.ekf self2),
          VIOSystem.last_frame_time self2 = VIOSystem.last_frame_time self
        & VIOSystem.frame_count self2 = (VIOSystem.frame_count self).+1].
  rewrite /VIOSystem.imu_prediction [VIOSystem.last_frame_time self1]/=.
  move: Ht; rewrite /not_before.
  case EL: (VIOSystem.last_frame_time self) => [last|] Ht; last by exists self1.
  case: ifP => _; last by exists self1.
  have [_ Hq _] := Hh.
  have [sd -> [Hsd _]] := get_state_unit Hq.
  have := wf_preintegrate (VIOSystem.imu_processor self1)
            (gyro_measurements f) (accel_measurements f) Hsd.
  case: (IMUProcessor.preintegrate _ _ _ _) => imu [[dp dv] dr] /= Hdr.
  have Hc : regular (EKFFusionEngine.Predict dp dv dr (time f - last)%Re).
    by split=> //; lra.
  have [ekf' /= -> Hekf'] := exec_healthy Hc Hh.
  by eexists; split; first by [].
rewrite E2 /=.
have [self3 [E3 H3 L3 C3]] :
    exists self3,
      [/\ VIOSystem.tag_update from_matrix self2 (detected f)
          = VIOSystem.Returns self3 tt,
          healthy (VIOSystem.ekf self3),
          VIOSystem.last_frame_time self3 = VIOSystem.last_frame_time self
        & VIOSystem.frame_count self3 = (VIOSystem.frame_count self).+1].
  rewrite /VIOSystem.tag_update; case: (detected f) => [|d ds]; first by exists self2.
  have Hc : regular (EKFFusionEngine.Update (translation d)
                       (from_matrix (rotation_matrix d))) by exact: Hfm.
  have [ekf' /= -> Hekf'] := exec_healthy Hc H2.
  by eexists; split; first by [].
rewrite E3 /=.
have [[_ _ [_ Ppsd]] Hq _] := H3.
have [sd -> [Hsd Eq]] := get_state_unit Hq.
eexists; eexists; split; first by [].
- by [].
- by [].
- by [].
- split=> //=.
  + by rewrite Eq /norm4 Hq sqrt_1.
  + exact: sqrt_pos.
Qed.

End Orchestrator.

(** X16.  [reset] after any history.  From a freshly constructed system, after
    any sequence of [process_frame] calls (whatever they detected,
    whatever the timestamps, raising calls included), [reset] gives back
    the freshly constructed system: default state and covariance, the
    noise matrices, biases and gravity as constructed, no frame time,
    frame counter 0. *)
Theorem reset_after_frames (from_matrix : 'M[R]_3 -> Scipy.Rotation)
    (frames : seq frame) :
  VIOSystem.reset (run_frames from_matrix VIOSystem.init frames)
  = VIOSystem.init.
Proof.
apply: reset_configured; apply: configured_run_frames.
by split.
Qed.

(** X17.  Frames in time order never raise.  On a freshly constructed system,
    for frames whose timestamps do not decrease and a [from_matrix] that
    returns unit-norm rotations (as scipy's does), every [process_frame]
    returns: no [ValueError] from [get_state] or [predict], no
    [LinAlgError] from [update].  The pose it returns has a unit
    quaternion and a non-negative uncertainty, reports the number of
    detections and the frame's timestamp; the system has counted the frame
    and holds its time. *)
Theorem process_frame_never_raises (from_matrix : 'M[R]_3 -> Scipy.Rotation)
    (frames : seq frame) (f : frame) :
  (forall m, Scipy.wf (from_matrix m)) ->
  sorted Rleb [seq time g | g <- rcons frames f] ->
  exists self' p,
    [/\ feed from_matrix (run_frames from_matrix VIOSystem.init frames) f
        = VIOSystem.Returns self' p,
        VIOSystem.last_frame_time self' = Some (time f),
        VIOSystem.frame_count self' = (size frames).+1
      & [/\ norm4 (VIOSystem.quaternion p) = 1%Re,
            Scipy.wf (VIOSystem.orientation p),
            (0 <= VIOSystem.uncertainty p)%Re,
            VIOSystem.detections p = size (detected f)
          & VIOSystem.timestamp p = time f]].
Proof.
move=> Hfm.
have Hgen (self : VIOSystem.t) :
    healthy (VIOSystem.ekf self) ->
    in_order self [seq time g | g <- rcons frames f] ->
    exists self' p,
      [/\ feed from_matrix (run_frames from_matrix self frames) f
          = VIOSystem.Returns self' p,
          VIOSystem.last_frame_time self' = Some (time f),
          VIOSystem.frame_count self'
          = (VIOSystem.frame_count self + size frames).+1
        & [/\ norm4 (VIOSystem.quaternion p) = 1%Re,
              Scipy.wf (VIOSystem.orientation p),
              (0 <= VIOSystem.uncertainty p)%Re,
              VIOSystem.detections p = size (detected f)
            & VIOSystem.timestamp p = time f]].
  elim: frames self => [|g frames IH] self Hh Ht.
    have Ht' : not_before self (time f).
      move: Ht; rewrite /not_before /in_order.
      case: (VIOSystem.last_frame_time self) => [last|] //=.
      by rewrite andbT => /RlebP.
    have [self' [p [E Hh' L C Hp]]] := feed_healthy Hfm Hh Ht'.
    by exists self', p; split=> //; rewrite addn0.
  have Ht' : not_before self (time g).
    move: Ht; rewrite /not_before /in_order.
    case: (VIOSystem.last_frame_time self) => [last|] //=.
    by case/andP => /RlebP.
  have [self1 [p1 [E1 Hh1 L1 C1 _]]] := feed_healthy Hfm Hh Ht'.
  have Ht1 : in_order self1 [seq time g | g <- rcons frames f].
    move: Ht; rewrite /in_order L1.
    case: (VIOSystem.last_frame_time self) => [last|] //=.
    by case/andP.
  have [self' [p [E Hlast Hcount Hp]]] := IH self1 Hh1 Ht1.
  exists self', p; split=> //.
    by rewrite [run_frames _ _ _]/= E1.
  by rewrite Hcount C1 addSn addnS.
move=> Ht; have [self' [p [E L C Hp]]] := Hgen VIOSystem.init engine0_healthy Ht.
by exists self', p; split.
Qed.

Lemma process_frame_never_raises_witness :
  let from_matrix := fun _ : 'M[R]_3 => Scipy.identity in
  let f0 := Frame [::] 0%Re [::] [::] in
  let f1 := Frame [:: AprilTagDetector.Detection BinNums.Z0 (Vec3 1 0 0)
                        (1%:M)%R] 0.5%Re
                  [:: (0%Re, zeros3); (0.5%Re, zeros3)]
                  [:: (0%Re, Vec3 0 0 (- 9.81)); (0.5%Re, Vec3 0 0 (- 9.81))] in
  exists self' p,
    [/\ feed from_matrix (run_frames from_matrix VIOSystem.init [:: f0]) f1
        = VIOSystem.Returns self' p,
        VIOSystem.last_frame_time self' = Some (time f1),
        VIOSystem.frame_count self' = 2
      & [/\ norm4 (VIOSystem.quaternion p) = 1%Re,
            Scipy.wf (VIOSystem.orientation p),
            (0 <= VIOSystem.uncertainty p)%Re,
            VIOSystem.detections p = size (detected f1)
          & VIOSystem.timestamp p = time f1]].
Proof.
move=> from_matrix f0 f1.
apply: (@process_frame_never_raises from_matrix [:: f0] f1).
  by move=> m; exact: wf_identity.
by rewrite /= andbT; apply/RlebP; lra.
Defined.

(** * [update] on a diagonal covariance: no overshoot *)

Section NoOvershoot.

Import GRing.Theory.
Import Scipy EKFFusionEngine.

Local Open Scope ring_scope.

(** X9.  With a diagonal covariance (variances [p k], not negative) and a
    diagonal measurement noise (variances [r k], positive), as right
    after construction or [reset], [update] returns and moves each
    position component by the fraction [p k / (p k + r k)] of the way to
    the measured one: the posterior lies between the prior and the
    measurement. *)
Theorem update_position_between (self : EKFFusionEngine.t) (p r : nat -> R)
    (measured_position : vec3) (measured_rotation : Rotation) :
  (forall i j : 'I_16, covariance self i j = if i == j then p i else 0) ->
  (forall i j : 'I_7, Rn self i j = if i == j then r i else 0) ->
  (forall k, (0 <= p k)%Re) -> (forall k, (0 < r k)%Re) ->
  exists2 self' : EKFFusionEngine.t,
    update self measured_position measured_rotation = Returns self'
    & forall k, (k < 3)%N ->
        let x := item (state self) k in
        let z := get3 measured_position k in
        item (state self') k = (x + p k / (p k + r k) * (z - x))%Re
        /\ (Rmin x z <= item (state self') k <= Rmax x z)%Re.
Proof.
move=> P_diag R_diag Hp Hr.
have S_nonzero k : (k < 7)%N -> p (obs_index k) + r k <> 0.
  by move=> _; have := Hp (obs_index k); have := Hr k; toR; lra.
have S_unit := diagonal_S_unit P_diag R_diag S_nonzero.
exists (updated self measured_position measured_rotation).
  exact: update_returns.
move=> k Hk x z.
have Hk7 : (k < 7)%N by exact: leq_trans Hk _.
have Hk16 : (k < 16)%N by exact: leq_trans Hk _.
have Ek : obs_index k = k by rewrite /obs_index Hk.
have E : item (state (updated self measured_position measured_rotation)) k
         = (x + p k / (p k + r k) * (z - x))%Re.
  rewrite /updated [state _]/= item_renormalize //.
  have -> : (6 <= k < 10)%N = false.
    by case: k Hk {Hk7 Hk16 Ek x z} => [|[|[|k]]].
  have := diagonal_corrected P_diag R_diag S_nonzero
            (residual self measured_position measured_rotation) Hk7.
  by rewrite Ek => ->; rewrite item_residual_position.
split=> //; rewrite E.
have Hi : (0 < / (p k + r k))%Re.
  by apply: Rinv_0_lt_compat; have := Hp k; have := Hr k; lra.
have Hpi : ((p k + r k) * / (p k + r k) = 1)%Re.
  by apply: Rinv_r; have := Hp k; have := Hr k; lra.
have Hg : (0 <= p k / (p k + r k) <= 1)%Re.
  rewrite /Rdiv; move: (/ _)%Re Hi Hpi (Hp k) (Hr k) => i Hi Hpi Hpk Hrk.
  by split; nra.
move: (p k / (p k + r k))%Re Hg => g [Hg0 Hg1].
rewrite /Rmin /Rmax; case: (Rle_dec x z) => Hxz; split; nra.
Qed.

Lemma update_position_between_witness :
  exists2 self' : EKFFusionEngine.t,
    update engine0 (Vec3 1 2 3) about_x = Returns self'
    & forall k, (k < 3)%N ->
        let x := item (state engine0) k in
        let z := get3 (Vec3 1 2 3) k in
        item (state self') k = (x + p0 k / (p0 k + r0 k) * (z - x))%Re
        /\ (Rmin x z <= item (state self') k <= Rmax x z)%Re.
Proof.
apply: update_position_between.
- exact: engine0_P_diag.
- exact: engine0_R_diag.
- by move=> k; rewrite /p0; lra.
- by move=> k; rewrite /r0; case: ifP => _; lra.
Defined.

End NoOvershoot.

(** * What a raising [process_frame] leaves *)

Section FrameRaises.

Import GRing.Theory.
Import Scipy AprilTagDetector.

Local Open Scope ring_scope.

Variable from_matrix : 'M[R]_3 -> Rotation.

(** The two fields no step of [process_frame] writes before line 163. *)
Lemma imu_prediction_keeps (self : VIOSystem.t) (timestamp : R)
    (gyro accel : seq IMUProcessor.sample) :
  let self' :=
    VIOSystem.after (VIOSystem.imu_prediction self timestamp gyro accel) in
  VIOSystem.frame_count self' = VIOSystem.frame_count self
  /\ VIOSystem.last_frame_time self' = VIOSystem.last_frame_time self.
Proof.
rewrite /VIOSystem.imu_prediction.
case EL: (VIOSystem.last_frame_time self) => [last|] //.
case: ifP => // _.
case: (EKFFusionEngine.get_state _) => [sd|e1] //.
case: (IMUProcessor.preintegrate _ _ _ _) => imu [[dp dv] dr].
by case: (EKFFusionEngine.predict _ _ _ _ _) => [ekf'|e1 ekf'].
Qed.

Lemma tag_update_keeps (self : VIOSystem.t) (detected : seq detection) :
  let self' := VIOSystem.after (VIOSystem.tag_update from_matrix self detected) in
  VIOSystem.frame_count self' = VIOSystem.frame_count self
  /\ VIOSystem.last_frame_time self' = VIOSystem.last_frame_time self.
Proof.
rewrite /VIOSystem.tag_update; case: detected => [|d ds] //.
by case: (EKFFusionEngine.update _ _ _) => [ekf'|e1 ekf'].
Qed.

(** X18.  When [process_frame] raises, from whichever of its calls, the
    frame counter has been incremented and the time of the last frame has
    not been advanced: the next frame is taken with the time step since
    the last frame that returned. *)
Theorem process_frame_raises (self self' : VIOSystem.t) (e : exn)
    (detected : seq detection) (timestamp : R)
    (gyro_measurements accel_measurements : seq IMUProcessor.sample) :
  VIOSystem.process_frame from_matrix self detected timestamp
    gyro_measurements accel_measurements = VIOSystem.Raises e self' ->
  VIOSystem.frame_count self' = (VIOSystem.frame_count self).+1
  /\ VIOSystem.last_frame_time self' = VIOSystem.last_frame_time self.
Proof.
rewrite /VIOSystem.process_frame.
set self1 := VIOSystem.Make _ _ _ _.
have := imu_prediction_keeps self1 timestamp gyro_measurements
          accel_measurements.
case: (VIOSystem.imu_prediction _ _ _ _) => [self2 []|e1 s1] /=; last first.
  by move=> H [_ <-].
move=> [C2 L2].
have := tag_update_keeps self2 detected.
case: (VIOSystem.tag_update _ _ _) => [self3 []|e2 s2] /=; last first.
  by move=> [C3 L3] [_ <-]; rewrite C3 L3 C2 L2.
move=> [C3 L3].
case: (EKFFusionEngine.get_state _) => [sd|e3] // [_ <-].
by rewrite C3 L3 C2 L2.
Qed.

End FrameRaises.

Lemma process_frame_raises_witness :
  let blank :=
    VIOSystem.Make (IMUProcessor.init None None None)
      (EKFFusionEngine.init (Some 0%R) None None None) None 0 in
  let self' :=
    VIOSystem.Make (IMUProcessor.init None None None)
      (EKFFusionEngine.init (Some 0%R) None None None) None 1 in
  VIOSystem.frame_count self' = (VIOSystem.frame_count blank).+1
  /\ VIOSystem.last_frame_time self' = VIOSystem.last_frame_time blank.
Proof.
move=> blank self'.
pose from_matrix := fun _ : 'M[R]_3 => Scipy.identity.
apply: (@process_frame_raises from_matrix blank self' ValueError [::] 0%Re
          [::] [::]).
have H0 (q := EKFFusionEngine.slice4 (0 : 'cV[R]_16)%R 6) :
    dot4 (xyzw q) (xyzw q) = 0%Re.
  by rewrite dot4_xyzw /dot4 /= /EKFFusionEngine.item !mxE; toR; ring.
rewrite /VIOSystem.process_frame /= /EKFFusionEngine.get_state.
by rewrite -/(xyzw _) (from_quat_raise H0).
Defined.

(** * [preintegrate] under a constant acceleration *)

Section ConstantAcceleration.

Import Scipy IMUProcessor.

Local Open Scope R_scope.

(** The sum of the squares of the durations of a schedule. *)
Definition squares (steps : seq (vec3 * vec3 * R)) : R :=
  foldr (fun s x => s.2 * s.2 + x) 0 steps.

Variable self : IMUProcessor.t.
Variable c : vec3.

(** The world-frame acceleration of every step: the reading less the bias
    and less [self.gravity]. *)
Let a : vec3 := sub3 (sub3 c (accel_bias self)) (gravity self).

(** The accumulators after a total time [t] whose steps have squares
    summing to [q]. *)
Let moving (t q : R) : loop_state :=
  LoopState identity (scale3 a t) (scale3 a (t * t / 2 + q)) t.

Lemma constant_step (dt t q : R) :
  integrate_step self (gyro_bias self) c dt (moving t q)
  = moving (t + dt) (q + dt * dt).
Proof.
rewrite /integrate_step /moving.
rewrite [current_rotation (LoopState _ _ _ _)]/=.
have -> : advance_rotation self identity (gyro_bias self) dt = identity.
  rewrite /advance_rotation.
  have -> : scale3 (sub3 (gyro_bias self) (gyro_bias self)) dt = zeros3.
    by apply: vec3_eq => /=; ring.
  by rewrite from_rotvec_zeros mul_identity_r //; exact: wf_identity.
have -> : accel_world self identity c = a.
  by rewrite /accel_world apply_identity.
move: a => [ax ay az].
by congr LoopState; apply: vec3_eq => /=; nra.
Qed.

Lemma constant_loop (gyro accel : seq sample) (fuel gyro_idx accel_idx : nat)
    (t q : R) :
  reads (gyro_bias self) gyro -> reads c accel ->
  integrate_loop self gyro accel fuel gyro_idx accel_idx (moving t q)
  = moving (t + durations (integration_steps gyro accel fuel gyro_idx accel_idx))
           (q + squares (integration_steps gyro accel fuel gyro_idx accel_idx)).
Proof.
move=> Hg Ha; elim: fuel gyro_idx accel_idx t q => [|fuel IH] gi ai t q.
  by rewrite /= !Rplus_0_r.
case Hgi: (gi.+1 < size gyro)%N; last first.
  by rewrite integrate_loop_exit ?Hgi //= Hgi /= !Rplus_0_r.
case Hai: (ai.+1 < size accel)%N; last first.
  by rewrite integrate_loop_exit ?Hai ?andbF //= Hgi Hai /= !Rplus_0_r.
rewrite integrate_loop_iter // [integration_steps _ _ _ _ _]/= Hgi Hai /=.
rewrite (reads_nth Hg (ltnW Hgi)) (reads_nth Ha (ltnW Hai)) constant_step.
set dt := (_ - _); set le := Rleb _ _.
by case: (Rleb dt 0); case: le; rewrite IH //=; congr moving; ring.
Qed.

End ConstantAcceleration.

Lemma squares_bounds (steps : seq (vec3 * vec3 * R)) :
  all (fun s => Rltb 0 s.2) steps ->
  (0 <= durations steps
   /\ 0 <= squares steps <= durations steps * durations steps)%Re.
Proof.
elim: steps => [|s steps IH] /=; first by move=> _; lra.
move=> /andP[/RltbP Hs /IH [HT [HQ0 HQ]]].
by move: (durations steps) (squares steps) HT HQ0 HQ => T Q HT HQ0 HQ; nra.
Qed.

(** X19.  Constant readings.  When every gyro sample reads the gyro bias
    and every accelerometer sample reads the same [c], and the integration
    starts from the identity, every step has the world-frame acceleration
    [a = c - accel_bias - gravity], and with [T] the total time integrated
    and [Q] the sum of the squares of the step durations [preintegrate]
    returns the velocity change [a T] and the position change
    [a (T^2 / 2 + Q)]: the position exceeds [a T^2 / 2] by [a Q], since each
    step adds the updated velocity times [dt] and [0.5 a dt^2] on top;
    [Q] lies between 0 and [T^2]. *)
Theorem preintegrate_constant_acceleration (self : IMUProcessor.t)
    (gyro accel : seq IMUProcessor.sample) (c : vec3)
    (initial_rotation : option Scipy.Rotation) :
  (if initial_rotation is Some r then r = Scipy.identity else True) ->
  reads (IMUProcessor.gyro_bias self) gyro -> reads c accel ->
  let a := sub3 (sub3 c (IMUProcessor.accel_bias self))
                (IMUProcessor.gravity self) in
  let steps :=
    integration_steps (IMUProcessor.sorted_by_time gyro)
      (IMUProcessor.sorted_by_time accel)
      (size (IMUProcessor.sorted_by_time gyro)
       + size (IMUProcessor.sorted_by_time accel)) 0 0 in
  let T := durations steps in
  let: (self', result) :=
    IMUProcessor.preintegrate self gyro accel initial_rotation in
  [/\ result
      = (scale3 a (T * T / 2 + squares steps)%Re, scale3 a T, Scipy.identity),
      IMUProcessor.dt_total self' = T
    & (0 <= squares steps <= T * T)%Re].
Proof.
move=> Hr Hg Ha a steps T.
have [_ HQ] := squares_bounds (integration_steps_dt _ _ _ _ _ : all _ steps).
have := preintegrate_dt_total self gyro accel initial_rotation.
rewrite -/steps -/T /IMUProcessor.preintegrate; cbv zeta => HT.
split=> //.
have -> : (if initial_rotation is Some r then r else Scipy.identity)
          = Scipy.identity by case: initial_rotation Hr {HT}.
rewrite -reads_sorted in Hg; rewrite -reads_sorted in Ha.
have E0 : IMUProcessor.LoopState Scipy.identity zeros3 zeros3 0
          = IMUProcessor.LoopState Scipy.identity (scale3 a 0)
              (scale3 a (0 * 0 / 2 + 0)%Re) 0.
  by congr IMUProcessor.LoopState; apply: vec3_eq => /=; field.
rewrite [IMUProcessor.delta_velocity _]/= [IMUProcessor.delta_position _]/=.
rewrite [IMUProcessor.dt_total _]/= E0.
rewrite (@constant_loop (IMUProcessor.reset_integration self) c _ _ _ 0 0 0 0
           Hg Ha) -/steps -/T /=.
rewrite !Rplus_0_l mul_inv_l //; exact: wf_identity.
Qed.

Lemma preintegrate_constant_acceleration_witness :
  let gyro := [:: (0%Re, zeros3); (1%Re, zeros3); (3%Re, zeros3)] in
  let accel := [:: (0%Re, Vec3 1 0 0); (1%Re, Vec3 1 0 0); (3%Re, Vec3 1 0 0)] in
  let self := IMUProcessor.init None None None in
  let a := sub3 (sub3 (Vec3 1 0 0) (IMUProcessor.accel_bias self))
                (IMUProcessor.gravity self) in
  let steps :=
    integration_steps (IMUProcessor.sorted_by_time gyro)
      (IMUProcessor.sorted_by_time accel)
      (size (IMUProcessor.sorted_by_time gyro)
       + size (IMUProcessor.sorted_by_time accel)) 0 0 in
  let T := durations steps in
  let: (self', result) := IMUProcessor.preintegrate self gyro accel None in
  [/\ result
      = (scale3 a (T * T / 2 + squares steps)%Re, scale3 a T, Scipy.identity),
      IMUProcessor.dt_total self' = T
    & (0 <= squares steps <= T * T)%Re].
Proof.
move=> gyro accel self.
apply: (@preintegrate_constant_acceleration self gyro accel (Vec3 1 0 0) None).
- by [].
- by rewrite /reads /= /eq3 /= !eqxx.
- by rewrite /reads /= /eq3 /= !eqxx.
Defined.
